(** * torchsnapshot: the snapshot orchestrators of [torchsnapshot/snapshot.py]

    A shallow embedding of [Snapshot] ([take], [async_take], [_take_impl],
    [restore], [read_object] and the static helpers) and of
    [PendingSnapshot], followed by the properties of the orchestration
    protocol: key-order agreement, replication agreement, commit ordering,
    RNG handling, error propagation and resource handling.

    Conventions.
    - One rank is modelled at a time.  A collective call takes, besides the
      object the rank passes, the list of the objects passed by the ranks of
      the process group at that call (one slot per rank, in rank order); the
      rank's own slot is overwritten with its own object.
    - Python dictionaries whose identity matters ([app_state]) live in a heap
      of dictionary objects; the others are finite maps.
    - Calls into modules of the package other than [snapshot.py] that do I/O
      or talk to the other ranks are recorded as events of a trace; the
      functions of those modules that only compute ([get_manifest_for_rank],
      [handle_sharded_tensor_elasticity], [inflate]) are given by the
      environment. *)

From Stdlib Require Import ZArith Lia Ascii.
From stdpp Require Import base option list list_numbers gmap sets strings pretty sorting.

Local Open Scope Z_scope.
Local Open Scope nat_scope.

(** ** Strings: the order used by [sorted] and [os.path.join] *)

Module Str.

(** Python compares [str] objects code point by code point; on byte strings
    that is [String.compare]. *)
Definition le (a b : string) : Prop := String.leb a b = true.
Definition lt (a b : string) : Prop := String.ltb a b = true.

#[global] Instance le_dec a b : Decision (le a b).
Proof. unfold le. apply _. Defined.

#[global] Instance lt_dec a b : Decision (lt a b).
Proof. unfold lt. apply _. Defined.

(** [sorted(xs)] on a list of strings. *)
Definition sorted (xs : list string) : list string := merge_sort le xs.

(** [os.path.join(a, b)] of [posixpath] for two components. *)
Definition ends_with_slash (a : string) : bool :=
  match String.get (String.length a - 1) a with
  | Some c => bool_decide (c = "/"%char)
  | None => false
  end.

Definition starts_with_slash (b : string) : bool :=
  match b with
  | String c _ => bool_decide (c = "/"%char)
  | EmptyString => false
  end.

Definition path_join (a b : string) : string :=
  if starts_with_slash b then b
  else if bool_decide (a = "") || ends_with_slash a then a +:+ b
  else a +:+ "/" +:+ b.

End Str.


(** ** Data model *)

(** A raised Python exception: its class name and [str(e)]. *)
Record exn := Exn { exn_class : string; exn_msg : string }.

Inductive result (A : Type) : Type :=
  | Ok (a : A)
  | Raise (e : exn).
Arguments Ok {A} a.
Arguments Raise {A} e.

(** The run-time class of a value of [app_state], as far as [isinstance]
    distinguishes it: [Stateful] is the protocol of objects with [state_dict]
    and [load_state_dict]; [RNGState] and [DistributedDataParallel] are
    Stateful. *)
Inductive kind : Type :=
  | NotStateful
  | PlainStateful
  | RNGState
  | DDP (parameters_to_ignore named_parameters named_buffers : list string).

(** A value of [app_state]: a reference to an object ([o_id]), its class, and
    what the object's [state_dict()] and [load_state_dict()] do to the global
    random number generator (application code may draw random numbers). *)
Record obj : Type := Obj {
  o_id : nat;
  o_kind : kind;
  o_state_dict_rng : Z → Z;
  o_load_state_dict_rng : Z → Z;
}.

(** [AppState = Dict[str, Any]]. *)
Abbreviation AppState := (gmap string obj).

Definition is_Stateful (o : obj) : bool :=
  match o_kind o with NotStateful => false | _ => true end.

Definition is_RNGState (o : obj) : bool :=
  match o_kind o with RNGState => true | _ => false end.

(** Leaves of a flattened state dict. *)
Inductive value : Type :=
  | Primitive (v : Z)
  | Tensor (data : Z)
  | ShardedTensor (shards : Z)
  | Object (o : Z).

Definition is_ShardedTensor (v : value) : bool :=
  match v with ShardedTensor _ => true | _ => false end.

Definition is_Tensor (v : value) : bool :=
  match v with Tensor _ | ShardedTensor _ => true | _ => false end.

(** [manifest.Entry]. *)
Inductive Entry : Type :=
  | PrimitiveEntry (get_value : Z) (replicated : bool)
  | TensorEntry (location : string) (replicated : bool)
  | ShardedTensorEntry (locations : list string)
  | ObjectEntry (location : string) (replicated : bool)
  | ContainerEntry (keys : list string).

Abbreviation Manifest := (gmap string Entry).

(** [manifest.is_container_entry]. *)
Definition is_container_entry (entry : Entry) : bool :=
  match entry with ContainerEntry _ => true | _ => false end.

(** Modelled from the spec: what the future of [io_preparer.prepare_read]
    holds once the read requests of an entry have been executed ([fut.obj]):
    the value of a primitive entry, or the object assembled from what was
    read at the storage locations of the entry.  [io_preparer.py] is not part
    of the source at hand. *)
Inductive read_result : Type :=
  | ReadPrimitive (v : Z)
  | ReadLoaded (parts : list Z).

Record SnapshotMetadata : Type := {
  version : string;
  world_size : nat;
  manifest : Manifest;
}.

Definition SNAPSHOT_METADATA_FNAME : string := ".snapshot_metadata".

(** [PGWrapper]: the rank and the world size of the process group. *)
Record PGWrapper : Type := { get_rank : nat; get_world_size : nat }.

(** What a storage location holds: a persisted object or the metadata
    document. *)
Inductive blob : Type :=
  | BObj (v : Z)
  | BMetadata (m : SnapshotMetadata).

Inductive event : Type :=
  | EvNewEventLoop
  | EvLoopClose
  | EvOpenStorage (url : string)
  | EvSyncClose (url : string)
  | EvBroadcast
  | EvAllGather
  | EvBarrier
  | EvWarning (msg : string)
  | EvStateDict (key : string)
  | EvLoadStateDict (key : string) (state_dict : Z)
  | EvCalculateReplicated
  | EvPrepareWrite (logical_path : string)
  | EvPartitionWriteReqs
  | EvBatchWriteRequests
  | EvGatherManifest
  | EvMemoryBudget
  | EvExecuteWriteReqs
  | EvSyncComplete
  | EvSyncWrite (url file : string)
  | EvSyncRead (url file : string)
  | EvPrepareRead (logical_path : string)
  | EvBatchReadRequests
  | EvExecuteReadReqs
  | EvGetOrCreateStore
  | EvBarrierArrive
  | EvBarrierDepart
  | EvReportError (msg : string).

#[global] Instance event_eq_dec : EqDecision event.
Proof. solve_decision. Defined.

(** The state one rank works on: the heap of dictionary objects, the global
    random number generator, the state of every stateful object, the storage
    back ends by URL, and the trace of events so far (oldest first). *)
Record world : Type := World {
  w_dicts : gmap nat AppState;
  w_rng : Z;
  w_states : gmap nat Z;
  w_storage : gmap string (gmap string blob);
  w_trace : list event;
}.

(** What the rest of the system does during one operation: the objects the
    ranks pass to each collective, the result of the manifest gather, the
    package version, the batching knob, the functions of [manifest_ops] and
    [flatten] that [_load_stateful] calls, and for the completion of the
    writes, the write of the metadata document, the execution of the reads
    and the two phases of the store-based barrier whether the call raises
    ([Some msg]) or not ([None]).

    [e_get_manifest_for_rank metadata rank] is the pair
    [get_manifest_for_rank(metadata, rank)] returns, two new dictionaries
    keyed by unranked paths; [e_handle_sharded_tensor_elasticity manifest
    merged_sd_entries tensor_requests] is [manifest] as the call of that name
    leaves it; [e_inflate manifest flattened prefix] is what
    [inflate(manifest, flattened, prefix)] returns or raises. *)
Record environment : Type := {
  e_paths : nat → string;
  e_replicated : nat → list string;
  e_keys : nat → list string;
  e_manifest : Manifest;
  e_version : string;
  e_batching_disabled : bool;
  e_get_manifest_for_rank : SnapshotMetadata → Z → Manifest * Manifest;
  e_handle_sharded_tensor_elasticity : Manifest → Manifest → list string → Manifest;
  e_inflate : Manifest → list (string * read_result) → string → result Z;
  e_sync_complete : option string;
  e_write_metadata : option string;
  e_execute_reads : option string;
  e_arrive : option string;
  e_depart : option string;
}.

(** ** The monad of one rank: state and exceptions *)

Definition M (A : Type) : Type := world → result A * world.

Definition ret {A} (a : A) : M A := λ w, (Ok a, w).

Definition bind {A B} (m : M A) (k : A → M B) : M B :=
  λ w, match m w with
       | (Ok a, w') => k a w'
       | (Raise e, w') => (Raise e, w')
       end.

Definition raise {A} (e : exn) : M A := λ w, (Raise e, w).

Notation "x <- m ;; k" := (bind m (λ x, k))
  (at level 100, m at next level, right associativity, only parsing).
Notation "m ;;; k" := (bind m (λ _, k))
  (at level 100, right associativity, only parsing).

(** [try: body / except Exception as e: handler e]. *)
Definition try_except {A} (body : M A) (handler : exn → M A) : M A :=
  λ w, match body w with
       | (Ok a, w') => (Ok a, w')
       | (Raise e, w') => handler e w'
       end.

(** [try: body / finally: fin]: [fin] runs on both exits; an exception of
    [body] is raised again after it unless [fin] raises itself. *)
Definition try_finally {A} (body : M A) (fin : M unit) : M A :=
  λ w, match body w with
       | (r, w') =>
           match fin w' with
           | (Ok _, w'') => (r, w'')
           | (Raise e, w'') => (Raise e, w'')
           end
       end.

Definition emit (ev : event) : M unit :=
  λ w, (Ok tt, World (w_dicts w) (w_rng w) (w_states w) (w_storage w) (w_trace w ++ [ev])).

(** A call into another module that raises [Exception(msg)] when the
    environment says so. *)
Definition external (outcome : option string) : M unit :=
  match outcome with
  | None => ret tt
  | Some msg => raise (Exn "Exception" msg)
  end.

Fixpoint for_each {A} (xs : list A) (body : A → M unit) : M unit :=
  match xs with
  | [] => ret tt
  | x :: xs' => body x ;;; for_each xs' body
  end.

(** ** Collectives of [PGWrapper]

    [peers j] is the object rank [j] passes to the call. *)

(** [pg.all_gather_object(obj_list, obj)]: afterwards [obj_list] has one slot
    per rank, slot [j] holding the object of rank [j]. *)
Definition all_gather_object {A} (pg : PGWrapper) (peers : nat → A) (obj : A) : list A :=
  (λ j, if bool_decide (j = get_rank pg) then obj else peers j) <$> seq 0 (get_world_size pg).

(** [pg.broadcast_object_list(obj_list, src)] for a one-element [obj_list]:
    afterwards its element is the one of rank [src]. *)
Definition broadcast_object_list {A} (pg : PGWrapper) (peers : nat → A) (obj : A) (src : nat) : A :=
  if bool_decide (get_rank pg = src) then obj else peers src.

(** ** Static helpers of [Snapshot] without effects *)

(** [Snapshot._gather_keys]:
    [sorted(set(itertools.chain.from_iterable(gathered_keys)))]. *)
Definition _gather_keys (keys : list string) (pg_wrapper : PGWrapper)
    (peers : nat → list string) : list string :=
  let gathered_keys := all_gather_object pg_wrapper peers keys in
  Str.sorted (elements (list_to_set (C:=gset string) (concat gathered_keys))).

(** [Snapshot._coalesce_replicated]: [set.intersection] applied to the sets
    of the lists of [global_replicated], a [TypeError] when there is none. *)
Definition _coalesce_replicated (global_replicated : list (list string)) : result (gset string) :=
  match list_to_set (C:=gset string) <$> global_replicated with
  | [] => Raise (Exn "TypeError" "descriptor 'intersection' of 'set' object needs an argument")
  | s :: rest => Ok (foldl (∩) s rest)
  end.

(** [Snapshot._infer_replicated].  The items of [app_state] are visited in the
    order of the finite map, Python visits them in insertion order: the two
    results hold the same patterns, and only membership is used later. *)
Definition ddp_patterns (key : string) (val : obj) : list string :=
  match o_kind val with
  | DDP parameters_to_ignore named_parameters named_buffers =>
      match parameters_to_ignore with
      | [] => [Str.path_join key "**"]
      | _ =>
          Str.path_join key <$>
            filter (λ name, name ∉ parameters_to_ignore) (named_parameters ++ named_buffers)
      end
  | _ => []
  end.

Definition _infer_replicated (replicated : list string) (app_state : AppState) : list string :=
  let new_replicated := replicated in
  if bool_decide ("**" ∈ new_replicated) then new_replicated
  else new_replicated ++ flat_map (λ kv, ddp_patterns kv.1 kv.2) (map_to_list app_state).

(** [path_count = defaultdict(int)] and the two loops that fill it. *)
Definition path_count_incr (path_count : gmap string nat) (path : string) : gmap string nat :=
  <[path := S (default 0 (path_count !! path))]> path_count.

Definition path_count_of (obj_list : list (list string)) : gmap string nat :=
  foldl (λ path_count paths, foldl path_count_incr path_count paths) ∅ obj_list.

(** The number of occurrences of a path in a list. *)
Definition occurrences (p : string) (l : list string) : nat := length (filter (p =.) l).

Section classification.

(** [fnmatch.fnmatch(name, pat)] of the Python library. *)
Variable fnmatch : string → string → bool.

(** The list [replicated_paths] a rank builds from its own [flattened]. *)
Definition local_replicated_paths (flattened : gmap string value) (replicated : gset string)
    : list string :=
  (filter (λ pv, existsb (fnmatch pv.1) (elements replicated) && negb (is_ShardedTensor pv.2) = true)
          (map_to_list flattened)).*1.

(** The element of [replicated_paths_list] before the broadcast. *)
Definition replicated_paths_sent (flattened : gmap string value) (replicated : gset string)
    (pg : PGWrapper) (peers_paths : nat → list string) : list string :=
  let rank := get_rank pg in
  let world_size := get_world_size pg in
  let replicated_paths := local_replicated_paths flattened replicated in
  let obj_list := all_gather_object pg peers_paths replicated_paths in
  if bool_decide (rank = 0) then
    let path_count := path_count_of obj_list in
    filter (λ p, default 0 (path_count !! p) = world_size) replicated_paths
  else [].

(** [Snapshot._calculate_replicated_entries].  [peers_paths j] is the list
    rank [j] passes to the all-gather, [peers_sent j] the list it passes to
    the broadcast. *)
Definition _calculate_replicated_entries (flattened : gmap string value)
    (replicated : gset string) (pg : PGWrapper)
    (peers_paths peers_sent : nat → list string) : gset string :=
  let sent := replicated_paths_sent flattened replicated pg peers_paths in
  let replicated_paths := broadcast_object_list pg peers_sent sent 0 in
  list_to_set replicated_paths.

End classification.

(** ** Primitive actions on the state of a rank *)

Definition set_dicts (f : gmap nat AppState → gmap nat AppState) (w : world) : world :=
  World (f (w_dicts w)) (w_rng w) (w_states w) (w_storage w) (w_trace w).

Definition set_rng (f : Z → Z) (w : world) : world :=
  World (w_dicts w) (f (w_rng w)) (w_states w) (w_storage w) (w_trace w).

Definition set_states (f : gmap nat Z → gmap nat Z) (w : world) : world :=
  World (w_dicts w) (w_rng w) (f (w_states w)) (w_storage w) (w_trace w).

Definition set_storage (f : gmap string (gmap string blob) → gmap string (gmap string blob))
    (w : world) : world :=
  World (w_dicts w) (w_rng w) (w_states w) (f (w_storage w)) (w_trace w).

(** The dictionary object behind a reference (the items of the dict). *)
Definition dict_items (d : nat) : M AppState :=
  λ w, (Ok (default ∅ (w_dicts w !! d)), w).

(** [d.copy()]: a new dictionary object with the same bindings. *)
Definition dict_copy (d : nat) : M nat :=
  λ w, let d' := fresh (dom (w_dicts w)) in
       (Ok d', set_dicts (insert d' (default ∅ (w_dicts w !! d))) w).

(** [del d[key]]. *)
Definition dict_delitem (d : nat) (key : string) : M unit :=
  λ w, (Ok tt, set_dicts (alter (delete key) d) w).

(** Modelled from the spec: [stateful.state_dict()].  The class [RNGState]
    of [rng_state.py] is not part of the source at hand.  Its [state_dict]
    returns the state of the global random number generator and leaves it as
    it is; its [load_state_dict] sets the generator to the given state.  The
    state dict of any other stateful object is the state recorded for it;
    calling it runs application code, which may advance the generator. *)
Definition state_dict (key : string) (stateful : obj) : M Z :=
  emit (EvStateDict key) ;;;
  match o_kind stateful with
  | NotStateful => raise (Exn "AttributeError" "state_dict")
  | RNGState => λ w, (Ok (w_rng w), w)
  | _ => λ w, (Ok (default 0%Z (w_states w !! o_id stateful)),
               set_rng (o_state_dict_rng stateful) w)
  end.

(** Modelled from the spec: [stateful.load_state_dict(state_dict)].  For an
    [RNGState] object it sets the generator to the given state; for any
    other object it records the state and runs application code, which may
    advance the generator. *)
Definition load_state_dict (key : string) (stateful : obj) (sd : Z) : M unit :=
  emit (EvLoadStateDict key sd) ;;;
  match o_kind stateful with
  | NotStateful => raise (Exn "AttributeError" "load_state_dict")
  | RNGState => λ w, (Ok tt, set_rng (λ _, sd) w)
  | _ => λ w, (Ok tt, set_rng (o_load_state_dict_rng stateful)
                        (set_states (insert (o_id stateful) sd) w))
  end.

(** [storage.sync_write(write_io)] on the storage opened at [url]. *)
Definition sync_write (url file : string) (b : blob) : M unit :=
  (λ w, (Ok tt, set_storage (λ st, <[url := <[file := b]> (default ∅ (st !! url))]> st) w)) ;;;
  emit (EvSyncWrite url file).

(** [storage.sync_read(read_io)]. *)
Definition sync_read (url file : string) : M blob :=
  b <- (λ w, match w_storage w !! url ≫= (.!! file) with
             | Some b => (Ok b, w)
             | None => (Raise (Exn "FileNotFoundError" file), w)
             end) ;;
  emit (EvSyncRead url file) ;;;
  ret b.

(** [pg_wrapper.barrier()]. *)
Definition barrier : M unit := emit EvBarrier.

(** [os.path.join(str(rank), logical_path)]. *)
Definition ranked_path (rank : nat) (logical_path : string) : string :=
  Str.path_join (pretty rank) logical_path.

(** [d.update({key: v})] on a dictionary kept in insertion order. *)
Fixpoint dict_update {V} (d : list (string * V)) (key : string) (v : V) : list (string * V) :=
  match d with
  | [] => [(key, v)]
  | (k, v') :: d' => if bool_decide (k = key) then (k, v) :: d' else (k, v') :: dict_update d' key v
  end.

(** ** [Snapshot] *)

Record Snapshot : Type := {
  s_path : string;
  s_pg : PGWrapper;
  s_metadata : option SnapshotMetadata;
}.

(** [PendingIOWork]: the write requests in flight, each a storage location
    and the object to persist there. *)
Record PendingIOWork : Type := { io_writes : list (string * Z) }.

(** Modelled from the spec: [pending_io_work.sync_complete(event_loop)]
    returns when every request has completed and raises when one failed.
    The scheduler of [scheduler.py] is not part of the source at hand; the
    objects are at their locations when the call returns. *)
Definition sync_complete (pending_io_work : PendingIOWork) (storage : string)
    (env : environment) : M unit :=
  external (e_sync_complete env) ;;;
  (λ w, (Ok tt, set_storage (λ st,
           <[storage := foldl (λ files kv, <[kv.1 := BObj kv.2]> files)
                              (default ∅ (st !! storage)) (io_writes pending_io_work)]> st) w)) ;;;
  emit EvSyncComplete.

(** [Snapshot._validate_app_state].  The exception message leaves out the
    type of the value. *)
Definition _validate_app_state (app_state : nat) : M unit :=
  items <- dict_items app_state ;;
  for_each (map_to_list items) (λ kv,
    if is_Stateful kv.2 then ret tt
    else raise (Exn "TypeError" ("Expected Stateful in app_state for key " +:+ kv.1))).

(** The dictionary [rng_state_items] of [_pop_rng_state]: the items of
    [app_state] whose value is an [RNGState]. *)
Definition rng_state_items (items : AppState) : AppState :=
  filter (λ kv : string * obj, is_RNGState kv.2 = true) items.

(** [Snapshot._pop_rng_state].  The exception message leaves out the keys. *)
Definition _pop_rng_state (app_state : nat) : M (option (string * obj)) :=
  items <- dict_items app_state ;;
  match map_to_list (rng_state_items items) with
  | [] => ret None
  | [(key, stateful)] => dict_delitem app_state key ;;; ret (Some (key, stateful))
  | _ => raise (Exn "RuntimeError" "Multiple RNGState objects in app state")
  end.

(** [Snapshot._coalesce_path_and_replicated]. *)
Definition _coalesce_path_and_replicated (path : string) (pg_wrapper : PGWrapper)
    (app_state : nat) (replicated : list string) (env : environment)
    : M (string * gset string) :=
  let obj_list_0 := broadcast_object_list pg_wrapper (e_paths env) path 0 in
  emit EvBroadcast ;;;
  (if bool_decide (obj_list_0 ≠ path)
   then emit (EvWarning "Using path specified by rank 0.") else ret tt) ;;;
  items <- dict_items app_state ;;
  let replicated := _infer_replicated replicated items in
  let global_replicated := all_gather_object pg_wrapper (e_replicated env) replicated in
  emit EvAllGather ;;;
  match _coalesce_replicated global_replicated with
  | Raise e => raise e
  | Ok coalesced_replicated =>
      (if bool_decide (list_to_set replicated ≠ coalesced_replicated)
       then emit (EvWarning "replicated paths differ from those verified across all ranks")
       else ret tt) ;;;
      ret (obj_list_0, coalesced_replicated)
  end.

(** [Snapshot._write_snapshot_metadata]. *)
Definition _write_snapshot_metadata (snapshot_metadata : SnapshotMetadata) (storage : string)
    (env : environment) : M unit :=
  external (e_write_metadata env) ;;;
  sync_write storage SNAPSHOT_METADATA_FNAME (BMetadata snapshot_metadata).

(** [Snapshot._read_snapshot_metadata]. *)
Definition _read_snapshot_metadata (storage : string) : M SnapshotMetadata :=
  b <- sync_read storage SNAPSHOT_METADATA_FNAME ;;
  match b with
  | BMetadata m => ret m
  | BObj _ => raise (Exn "YAMLError" "malformed snapshot metadata")
  end.

(** The loop of [_take_impl] over the global keys: a rank calls
    [state_dict()] on the objects it has, and every rank passes a barrier
    after every key. *)
Fixpoint take_loop (app_state : nat) (global_keys : list string)
    (flattened : list (string * Z)) : M (list (string * Z)) :=
  match global_keys with
  | [] => ret flattened
  | key :: rest =>
      items <- dict_items app_state ;;
      flattened <- match items !! key with
                   | Some stateful =>
                       sd <- state_dict key stateful ;;
                       ret (dict_update flattened key sd)
                   | None => ret flattened
                   end ;;
      barrier ;;;
      take_loop app_state rest flattened
  end.

(** [Snapshot._take_impl].  [storage] is the URL the storage plugin was
    opened at.  Flattening is kept at the granularity of the stateful
    objects: the logical path of a state dict is its key, and its write
    request persists it at [ranked_path rank key].  The calls into
    [partitioner], [batcher], [io_preparer] and [scheduler] are events.
    The write requests are in flight from [sync_execute_write_reqs] on; the
    storage shows them when [sync_complete] has returned, and what the
    storage at that URL holds in between is left open. *)
Definition _take_impl (path : string) (app_state : nat) (replicated : gset string)
    (pg_wrapper : PGWrapper) (storage : string) (is_async_snapshot : bool)
    (env : environment) : M (PendingIOWork * SnapshotMetadata) :=
  app_state <- dict_copy app_state ;;
  rng_state_item <- _pop_rng_state app_state ;;
  rng_state_dict <- match rng_state_item with
                    | Some (key, stateful) => sd <- state_dict key stateful ;; ret (Some sd)
                    | None => ret None
                    end ;;
  let flattened :=
    match rng_state_item, rng_state_dict with
    | Some (key, _), Some sd => [(key, sd)]
    | _, _ => []
    end in
  items <- dict_items app_state ;;
  let global_keys := _gather_keys (map_to_list items).*1 pg_wrapper (e_keys env) in
  emit EvAllGather ;;;
  flattened <- take_loop app_state global_keys flattened ;;
  match rng_state_item with
  | Some (key, stateful) => load_state_dict key stateful (default 0%Z rng_state_dict)
  | None => ret tt
  end ;;;
  emit EvCalculateReplicated ;;;
  for_each flattened (λ kv, emit (EvPrepareWrite kv.1)) ;;;
  emit EvPartitionWriteReqs ;;;
  (if e_batching_disabled env then ret tt else emit EvBatchWriteRequests) ;;;
  emit EvGatherManifest ;;;
  emit EvMemoryBudget ;;;
  emit EvExecuteWriteReqs ;;;
  let pending_io_work :=
    {| io_writes := (λ kv, (ranked_path (get_rank pg_wrapper) kv.1, kv.2)) <$> flattened |} in
  let metadata :=
    {| version := e_version env;
       world_size := get_world_size pg_wrapper;
       manifest := e_manifest env |} in
  ret (pending_io_work, metadata).

(** [Snapshot.take]. *)
Definition take (path : string) (app_state : nat) (pg : PGWrapper)
    (replicated : option (list string)) (env : environment) : M Snapshot :=
  _validate_app_state app_state ;;;
  emit EvNewEventLoop ;;;
  let pg_wrapper := pg in
  pc <- _coalesce_path_and_replicated path pg_wrapper app_state (default [] replicated) env ;;
  let path := pc.1 in
  let coalesced_replicated := pc.2 in
  emit (EvOpenStorage path) ;;;
  let storage := path in
  im <- _take_impl path app_state coalesced_replicated pg storage false env ;;
  let pending_io_work := im.1 in
  let metadata := im.2 in
  sync_complete pending_io_work storage env ;;;
  barrier ;;;
  (if bool_decide (get_rank pg_wrapper = 0)
   then _write_snapshot_metadata metadata storage env else ret tt) ;;;
  emit (EvSyncClose storage) ;;;
  emit EvLoopClose ;;;
  ret {| s_path := path; s_pg := pg; s_metadata := Some metadata |}.

(** ** [PendingSnapshot] *)

(** The keyword arguments of the background thread. *)
Record thread_kwargs : Type := {
  t_path : string;
  t_rank : nat;
  t_world_size : nat;
  t_pending_io_work : PendingIOWork;
  t_metadata : SnapshotMetadata;
  t_storage : string;
}.

(** The handle.  [ps_thread] holds the arguments of the thread until the
    thread has run. *)
Record PendingSnapshot : Type := {
  ps_path : string;
  ps_pg : PGWrapper;
  ps_exc_info : option exn;
  ps_done : bool;
  ps_thread : option thread_kwargs;
}.

Definition set_exc_info (e : exn) (self : PendingSnapshot) : PendingSnapshot :=
  {| ps_path := ps_path self; ps_pg := ps_pg self; ps_exc_info := Some e;
     ps_done := ps_done self; ps_thread := ps_thread self |}.

Definition set_done (self : PendingSnapshot) : PendingSnapshot :=
  {| ps_path := ps_path self; ps_pg := ps_pg self; ps_exc_info := ps_exc_info self;
     ps_done := true; ps_thread := ps_thread self |}.

Definition set_joined (self : PendingSnapshot) : PendingSnapshot :=
  {| ps_path := ps_path self; ps_pg := ps_pg self; ps_exc_info := ps_exc_info self;
     ps_done := ps_done self; ps_thread := None |}.

(** [LinearBarrier.arrive], [depart] and [report_error] of [dist_store]. *)
Definition arrive (env : environment) : M unit :=
  external (e_arrive env) ;;; emit EvBarrierArrive.

Definition depart (env : environment) : M unit :=
  external (e_depart env) ;;; emit EvBarrierDepart.

Definition report_error (msg : string) : M unit := emit (EvReportError msg).

(** [PendingSnapshot.__init__]: the arguments of the thread are evaluated,
    among them [get_or_create_store(pg_wrapper=pg_wrapper)], and the thread
    is started. *)
Definition PendingSnapshot_init (path : string) (pending_io_work : PendingIOWork)
    (pg_wrapper : PGWrapper) (metadata : SnapshotMetadata) (storage : string)
    : M PendingSnapshot :=
  emit EvGetOrCreateStore ;;;
  ret {| ps_path := path; ps_pg := pg_wrapper; ps_exc_info := None; ps_done := false;
         ps_thread := Some {| t_path := path; t_rank := get_rank pg_wrapper;
                              t_world_size := get_world_size pg_wrapper;
                              t_pending_io_work := pending_io_work;
                              t_metadata := metadata; t_storage := storage |} |}.

(** [PendingSnapshot._complete_snapshot], the body of the thread. *)
Definition _complete_snapshot (self : PendingSnapshot) (kw : thread_kwargs)
    (env : environment) : M PendingSnapshot :=
  let rank := t_rank kw in
  let storage := t_storage kw in
  self <- try_finally
    (try_except
       (sync_complete (t_pending_io_work kw) storage env ;;;
        arrive env ;;;
        (if bool_decide (rank = 0)
         then _write_snapshot_metadata (t_metadata kw) storage env else ret tt) ;;;
        depart env ;;;
        ret self)
       (λ e,
          report_error (exn_msg e) ;;;
          let self := set_exc_info e self in
          emit (EvWarning "Encountered exception while taking snapshot asynchronously") ;;;
          ret self))
    (emit (EvSyncClose storage) ;;; emit EvLoopClose) ;;
  ret (set_done self).

(** [self.thread.join()]: the thread has run when the call returns. *)
Definition thread_join (self : PendingSnapshot) (env : environment) : M PendingSnapshot :=
  match ps_thread self with
  | Some kw => self <- _complete_snapshot self kw env ;; ret (set_joined self)
  | None => ret self
  end.

(** [traceback.format_exception]: its last line. *)
Definition format_exception (e : exn) : string :=
  exn_class e +:+ ": " +:+ exn_msg e.

Definition wait_error (e : exn) : exn :=
  Exn "RuntimeError"
      ("Encountered exception while taking snapshot asynchronously: " +:+ format_exception e).

(** [PendingSnapshot.wait]; the handle after the call comes with the result. *)
Definition wait (self : PendingSnapshot) (env : environment) : M (Snapshot * PendingSnapshot) :=
  self <- thread_join self env ;;
  match ps_exc_info self with
  | Some e => raise (wait_error e)
  | None => ret ({| s_path := ps_path self; s_pg := ps_pg self; s_metadata := None |}, self)
  end.

(** [PendingSnapshot.done]. *)
Definition done_ (self : PendingSnapshot) : bool := ps_done self.

(** [Snapshot.async_take]. *)
Definition async_take (path : string) (app_state : nat) (pg : PGWrapper)
    (replicated : option (list string)) (env : environment) : M PendingSnapshot :=
  _validate_app_state app_state ;;;
  emit EvNewEventLoop ;;;
  let pg_wrapper := pg in
  pc <- _coalesce_path_and_replicated path pg_wrapper app_state (default [] replicated) env ;;
  let path := pc.1 in
  let coalesced_replicated := pc.2 in
  emit (EvOpenStorage path) ;;;
  let storage := path in
  im <- _take_impl path app_state coalesced_replicated pg storage true env ;;
  PendingSnapshot_init path im.1 pg_wrapper im.2 storage.

(** ** Restoring and reading *)

(** The property [Snapshot.metadata]: the document is read from storage the
    first time and kept on the object. *)
Definition metadata (self : Snapshot) : M (SnapshotMetadata * Snapshot) :=
  match s_metadata self with
  | Some m => ret (m, self)
  | None =>
      emit EvNewEventLoop ;;;
      emit (EvOpenStorage (s_path self)) ;;;
      m <- _read_snapshot_metadata (s_path self) ;;
      emit (EvSyncClose (s_path self)) ;;;
      emit EvLoopClose ;;;
      ret (m, {| s_path := s_path self; s_pg := s_pg self; s_metadata := Some m |})
  end.

(** Modelled from the spec: the storage locations of the read requests
    [io_preparer.prepare_read] makes for an entry.  A primitive entry and a
    container entry have none. *)
Definition entry_locations (entry : Entry) : list string :=
  match entry with
  | PrimitiveEntry _ _ => []
  | TensorEntry location _ => [location]
  | ShardedTensorEntry locations => locations
  | ObjectEntry location _ => [location]
  | ContainerEntry _ => []
  end.

(** Modelled from the spec: the execution of read requests by the scheduler
    of [scheduler.py], one [storage.sync_read] per location, in the order of
    the locations. *)
Fixpoint read_locations (storage : string) (locations : list string) : M (list Z) :=
  match locations with
  | [] => ret []
  | l :: ls =>
      b <- sync_read storage l ;;
      match b with
      | BObj v => vs <- read_locations storage ls ;; ret (v :: vs)
      | BMetadata _ => raise (Exn "UnpicklingError" "not a persisted object")
      end
  end.

(** Modelled from the spec: what the futures of the entries hold after the
    execution of their read requests, by logical path.  A primitive entry
    has no read request and its future holds its value. *)
Fixpoint read_entries (storage : string) (entries : list (string * Entry))
    : M (list (string * read_result)) :=
  match entries with
  | [] => ret []
  | (logical_path, entry) :: rest =>
      obj <- match entry with
             | PrimitiveEntry v _ => ret (ReadPrimitive v)
             | _ => parts <- read_locations storage (entry_locations entry) ;;
                    ret (ReadLoaded parts)
             end ;;
      futs <- read_entries storage rest ;;
      ret ((logical_path, obj) :: futs)
  end.

(** [Snapshot._load_stateful]; the snapshot object after the call is the
    result.  As in [_take_impl], flattening is kept at the granularity of
    the stateful objects: [flatten] makes of the state dict one leaf under
    [stateful_key], which is not a tensor, so that no tensor is requested
    and every entry is read with [obj_out=None].  The manifest is the one
    projected to the rank, as [handle_sharded_tensor_elasticity] leaves it;
    its items are taken in the order of [map_to_list]. *)
Definition _load_stateful (self : Snapshot) (stateful_key : string) (stateful : option obj)
    (storage : string) (pg : PGWrapper) (env : environment) : M Snapshot :=
  match stateful with
  | None => ret self
  | Some stateful =>
      ms <- metadata self ;;
      let self := ms.2 in
      let mm := e_get_manifest_for_rank env ms.1 (Z.of_nat (get_rank pg)) in
      let merged_sd_entries := mm.2 in
      sd <- state_dict stateful_key stateful ;;
      let flattened : gmap string value :=
        filter (λ kv : string * value, is_Tensor kv.2 = true)
               {[ stateful_key := Object sd ]} in
      let manifest :=
        e_handle_sharded_tensor_elasticity env mm.1 merged_sd_entries
          (map_to_list flattened).*1 in
      let container_entries : Manifest :=
        filter (λ kv : string * Entry, is_container_entry kv.2 = true) manifest in
      let entries :=
        filter (λ kv : string * Entry, is_container_entry kv.2 = false)
               (map_to_list manifest) in
      for_each entries (λ kv, emit (EvPrepareRead kv.1)) ;;;
      (if e_batching_disabled env then ret tt else emit EvBatchReadRequests) ;;;
      emit EvMemoryBudget ;;;
      external (e_execute_reads env) ;;;
      futs <- read_entries storage entries ;;
      emit EvExecuteReadReqs ;;;
      match e_inflate env container_entries futs stateful_key with
      | Raise e => raise e
      | Ok loaded => load_state_dict stateful_key stateful loaded ;;; ret self
      end
  end.

(** The loop of [restore] over the global keys. *)
Fixpoint restore_loop (self : Snapshot) (app_state : nat) (global_keys : list string)
    (storage : string) (pg_wrapper : PGWrapper) (env : environment) : M Snapshot :=
  match global_keys with
  | [] => ret self
  | key :: rest =>
      items <- dict_items app_state ;;
      self <- _load_stateful self key (items !! key) storage pg_wrapper env ;;
      barrier ;;;
      restore_loop self app_state rest storage pg_wrapper env
  end.

(** [Snapshot.restore]; the snapshot object after the call is the result. *)
Definition restore (self : Snapshot) (app_state : nat) (env : environment) : M Snapshot :=
  _validate_app_state app_state ;;;
  emit EvNewEventLoop ;;;
  let pg_wrapper := s_pg self in
  emit (EvOpenStorage (s_path self)) ;;;
  let storage := s_path self in
  app_state <- dict_copy app_state ;;
  rng_state_item <- _pop_rng_state app_state ;;
  items <- dict_items app_state ;;
  let global_keys := _gather_keys (map_to_list items).*1 pg_wrapper (e_keys env) in
  emit EvAllGather ;;;
  self <- restore_loop self app_state global_keys storage pg_wrapper env ;;
  self <- match rng_state_item with
          | Some (key, stateful) => _load_stateful self key (Some stateful) storage pg_wrapper env
          | None => ret self
          end ;;
  emit (EvSyncClose storage) ;;;
  emit EvLoopClose ;;;
  ret self.

(** [path.split("/", 1)] when it yields two parts. *)
Fixpoint split_once (path : string) : option (string * string) :=
  match path with
  | EmptyString => None
  | String c rest =>
      if bool_decide (c = "/"%char) then Some (EmptyString, rest)
      else (λ ab : string * string, (String c ab.1, ab.2)) <$> split_once rest
  end.

(** [int(s)] on a string of ASCII characters: white space around an optional
    sign and decimal digits, single underscores allowed between digits.
    Python's [int] also accepts the white space and the decimal digits that
    Unicode has outside of ASCII, and rejects a literal with more digits than
    [sys.get_int_max_str_digits()]; the model leaves both out. *)
Definition is_space (c : ascii) : bool :=
  bool_decide (c ∈ [" "; "009"; "010"; "011"; "012"; "013"; "028"; "029"; "030"; "031"]%char).

(** Characters of the ASCII range. *)
Definition is_ascii (c : ascii) : bool := bool_decide (nat_of_ascii c < 128).

Definition digit_of (c : ascii) : option Z :=
  let n := nat_of_ascii c in
  if bool_decide (48 ≤ n ≤ 57) then Some (Z.of_nat (n - 48)) else None.

Fixpoint parse_digits (cs : list ascii) (acc : Z) (after_digit : bool) : option Z :=
  match cs with
  | [] => if after_digit then Some acc else None
  | c :: cs' =>
      if bool_decide (c = "_"%char) then
        if after_digit then parse_digits cs' acc false else None
      else match digit_of c with
           | Some d => parse_digits cs' (10 * acc + d)%Z true
           | None => None
           end
  end.

Fixpoint lstrip (cs : list ascii) : list ascii :=
  match cs with
  | c :: cs' => if is_space c then lstrip cs' else cs
  | [] => []
  end.

Definition strip (cs : list ascii) : list ascii :=
  reverse (lstrip (reverse (lstrip cs))).

Definition int (s : string) : option Z :=
  match strip (String.list_ascii_of_string s) with
  | c :: cs =>
      if bool_decide (c = "-"%char) then Z.opp <$> parse_digits cs 0%Z false
      else if bool_decide (c = "+"%char) then parse_digits cs 0%Z false
      else parse_digits (c :: cs) 0%Z false
  | [] => None
  end.

Definition lookup_error (path : string) : exn :=
  Exn "RuntimeError"
      ("The supplied path " +:+ path +:+ " does not exist in the snapshot's manifest.").

Section read_object.

(** [manifest_ops.get_manifest_for_rank]: the manifest as the rank sees it
    and the merged sharded tensor entries, both keyed by unranked paths. *)
Variable get_manifest_for_rank : SnapshotMetadata → Z → Manifest * Manifest.

(** [Snapshot.read_object]; the snapshot object after the call comes with
    the result. *)
Definition read_object (self : Snapshot) (path : string) (obj_out : option value)
    (memory_budget_bytes : option nat) (env : environment) : M (read_result * Snapshot) :=
  match split_once path with
  | None => raise (Exn "ValueError" "not enough values to unpack (expected 2, got 1)")
  | Some (rank_str, unranked_path) =>
      match int rank_str with
      | None => raise (Exn "ValueError" ("invalid literal for int() with base 10: " +:+ rank_str))
      | Some rank =>
          ms <- metadata self ;;
          let self := ms.2 in
          let mm := get_manifest_for_rank ms.1 rank in
          let manifest := mm.1 in
          let merged_sd_entries := mm.2 in
          if bool_decide (merged_sd_entries !! unranked_path = None ∧
                          manifest !! unranked_path = None)
          then raise (lookup_error path)
          else
            (if from_option is_Tensor false obj_out then ret tt
             else emit (EvWarning "obj_out does not support in-place load")) ;;;
            emit EvNewEventLoop ;;;
            let pg_wrapper := s_pg self in
            emit (EvOpenStorage (s_path self)) ;;;
            let storage := s_path self in
            match from_option Some (manifest !! unranked_path) (merged_sd_entries !! unranked_path) with
            | None => raise (Exn "KeyError" unranked_path)
            | Some (PrimitiveEntry v _) => ret (ReadPrimitive v, self)
            | Some entry =>
                emit (EvPrepareRead unranked_path) ;;;
                (if e_batching_disabled env then ret tt else emit EvBatchReadRequests) ;;;
                external (e_execute_reads env) ;;;
                parts <- read_locations storage (entry_locations entry) ;;
                emit EvExecuteReadReqs ;;;
                emit (EvSyncClose storage) ;;;
                emit EvLoopClose ;;;
                ret (ReadLoaded parts, self)
            end
  end
  end.

End read_object.

(** ** Predicates on runs *)

(** [keeps I m]: whatever the outcome of [m], the states before and after
    are related by [I]. *)
Definition keeps (I : relation world) {A} (m : M A) : Prop := ∀ w, I w (m w).2.

(** [avoids e0 m]: [m] does not raise the exception [e0]. *)
Definition avoids (e0 : exn) {A} (m : M A) : Prop :=
  ∀ w e w', m w = (Raise e, w') → e ≠ e0.

(** The trace grows by events that satisfy [p]. *)
Definition grows_by (p : event → bool) : relation world :=
  λ w w', ∃ delta, w_trace w' = w_trace w ++ delta ∧ Forall (λ ev, p ev = true) delta.

(** Nothing but the trace changes, and it grows by events that satisfy [p]. *)
Definition only_trace (p : event → bool) : relation world :=
  λ w w', ∃ delta,
    w' = World (w_dicts w) (w_rng w) (w_states w) (w_storage w) (w_trace w ++ delta) ∧
    Forall (λ ev, p ev = true) delta.

(** The dictionary object at [d] keeps its bindings. *)
Definition same_dict (d : nat) : relation world :=
  λ w w', ∀ items, w_dicts w !! d = Some items → w_dicts w' !! d = Some items.

Definition same_rng : relation world := λ w w', w_rng w' = w_rng w.

Definition same_storage : relation world := λ w w', w_storage w' = w_storage w.

(** Reads and writes of the storage back end. *)
Definition is_storage_io (ev : event) : bool :=
  match ev with
  | EvExecuteWriteReqs | EvSyncComplete | EvSyncWrite _ _ | EvSyncRead _ _
  | EvExecuteReadReqs => true
  | _ => false
  end.

(** The events of [_coalesce_path_and_replicated]. *)
Definition is_coalesce_event (ev : event) : bool :=
  match ev with EvBroadcast | EvAllGather | EvWarning _ => true | _ => false end.

Definition is_sync_write (ev : event) : bool :=
  match ev with EvSyncWrite _ _ => true | _ => false end.

(** The events of a trace after a trace it extends. *)
Definition trace_since (w w' : world) : list event := drop (length (w_trace w)) (w_trace w').


(** *** Summaries of runs, used to state what a run does *)

(** Every value of [app_state] is Stateful. *)
Definition all_Stateful (items : AppState) : bool :=
  forallb (λ kv : string * obj, is_Stateful kv.2) (map_to_list items).

(** The item [_pop_rng_state] returns when it does not raise, and the items
    it leaves in the dictionary. *)
Definition popped_item (items : AppState) : option (string * obj) :=
  match map_to_list (rng_state_items items) with
  | [kv] => Some kv
  | _ => None
  end.

Definition popped_items (items : AppState) : AppState :=
  match popped_item items with
  | Some (key, _) => delete key items
  | None => items
  end.

(** What [state_dict()] of an object returns and does to the generator. *)
Definition state_dict_value (o : obj) (states : gmap nat Z) (rng : Z) : Z :=
  match o_kind o with
  | RNGState => rng
  | _ => default 0%Z (states !! o_id o)
  end.

Definition state_dict_rng (o : obj) (rng : Z) : Z :=
  match o_kind o with
  | NotStateful | RNGState => rng
  | _ => o_state_dict_rng o rng
  end.

(** The events of the loop of [_take_impl] over [global_keys] on a rank
    whose dictionary holds [items]. *)
Definition take_loop_events (items : AppState) (global_keys : list string) : list event :=
  flat_map (λ key, (if items !! key is Some _ then [EvStateDict key] else []) ++ [EvBarrier])
           global_keys.

(** The dictionary [flattened] and the generator after that loop. *)
Fixpoint take_loop_summary (items : AppState) (states : gmap nat Z) (global_keys : list string)
    (flattened : list (string * Z)) (rng : Z) : list (string * Z) * Z :=
  match global_keys with
  | [] => (flattened, rng)
  | key :: rest =>
      match items !! key with
      | Some o =>
          take_loop_summary items states rest
            (dict_update flattened key (state_dict_value o states rng)) (state_dict_rng o rng)
      | None => take_loop_summary items states rest flattened rng
      end
  end.

(** The global keys, the dictionary [flattened], the events and the
    generator of a run of [_take_impl] on a rank whose [app_state] holds
    [items], started with the object states [states] and the generator at
    [rng]. *)
Definition take_global_keys (items : AppState) (pg : PGWrapper) (env : environment)
    : list string :=
  _gather_keys (map_to_list (popped_items items)).*1 pg (e_keys env).

Definition take_flattened (items : AppState) (states : gmap nat Z) (pg : PGWrapper)
    (env : environment) (rng : Z) : list (string * Z) :=
  (take_loop_summary (popped_items items) states (take_global_keys items pg env)
     (match popped_item items with Some (key, _) => [(key, rng)] | None => [] end) rng).1.

Definition take_impl_rng (items : AppState) (states : gmap nat Z) (pg : PGWrapper)
    (env : environment) (rng : Z) : Z :=
  match popped_item items with
  | Some _ => rng
  | None => (take_loop_summary items states (take_global_keys items pg env) [] rng).2
  end.

Definition take_tail_events (flattened : list (string * Z)) (env : environment) : list event :=
  [EvCalculateReplicated] ++ (EvPrepareWrite <$> flattened.*1) ++ [EvPartitionWriteReqs] ++
  (if e_batching_disabled env then [] else [EvBatchWriteRequests]) ++
  [EvGatherManifest; EvMemoryBudget; EvExecuteWriteReqs].

Definition take_impl_events (items : AppState) (states : gmap nat Z) (pg : PGWrapper)
    (env : environment) (rng : Z) : list event :=
  (match popped_item items with Some (key, _) => [EvStateDict key] | None => [] end) ++
  [EvAllGather] ++
  take_loop_events (popped_items items) (take_global_keys items pg env) ++
  (match popped_item items with Some (key, _) => [EvLoadStateDict key rng] | None => [] end) ++
  take_tail_events (take_flattened items states pg env rng) env.

Definition take_impl_result (items : AppState) (states : gmap nat Z) (pg : PGWrapper)
    (env : environment) (rng : Z) : PendingIOWork * SnapshotMetadata :=
  ({| io_writes := (λ kv, (ranked_path (get_rank pg) kv.1, kv.2)) <$>
                     take_flattened items states pg env rng |},
   {| version := e_version env; world_size := get_world_size pg; manifest := e_manifest env |}).

(** *** [take] and [async_take] in two parts *)

(** What [take] and [async_take] have in common: everything up to the return
    of [_take_impl].  The result is the coalesced path with the result of
    [_take_impl]. *)
Definition take_prefix (path : string) (app_state : nat) (pg : PGWrapper)
    (replicated : option (list string)) (is_async_snapshot : bool) (env : environment)
    : M (string * (PendingIOWork * SnapshotMetadata)) :=
  _validate_app_state app_state ;;;
  emit EvNewEventLoop ;;;
  pc <- _coalesce_path_and_replicated path pg app_state (default [] replicated) env ;;
  emit (EvOpenStorage pc.1) ;;;
  im <- _take_impl pc.1 app_state pc.2 pg pc.1 is_async_snapshot env ;;
  ret (pc.1, im).

(** The rest of [take]: the commit of the snapshot. *)
Definition take_commit (path : string) (pg : PGWrapper) (pending_io_work : PendingIOWork)
    (metadata : SnapshotMetadata) (env : environment) : M Snapshot :=
  sync_complete pending_io_work path env ;;;
  barrier ;;;
  (if bool_decide (get_rank pg = 0)
   then _write_snapshot_metadata metadata path env else ret tt) ;;;
  emit (EvSyncClose path) ;;;
  emit EvLoopClose ;;;
  ret {| s_path := path; s_pg := pg; s_metadata := Some metadata |}.

(** The handle [PendingSnapshot.__init__] makes. *)
Definition new_handle (path : string) (pending_io_work : PendingIOWork)
    (pg_wrapper : PGWrapper) (metadata : SnapshotMetadata) (storage : string) : PendingSnapshot :=
  {| ps_path := path; ps_pg := pg_wrapper; ps_exc_info := None; ps_done := false;
     ps_thread := Some {| t_path := path; t_rank := get_rank pg_wrapper;
                          t_world_size := get_world_size pg_wrapper;
                          t_pending_io_work := pending_io_work;
                          t_metadata := metadata; t_storage := storage |} |}.

(** The path every rank uses: the one rank 0 passed. *)
Definition coalesced_path (path : string) (pg : PGWrapper) (env : environment) : string :=
  broadcast_object_list pg (e_paths env) path 0.

(** The events of [_take_impl]. *)
Definition is_take_impl_event (ev : event) : bool :=
  match ev with
  | EvAllGather | EvBarrier | EvStateDict _ | EvLoadStateDict _ _ | EvCalculateReplicated
  | EvPrepareWrite _ | EvPartitionWriteReqs | EvBatchWriteRequests | EvGatherManifest
  | EvMemoryBudget | EvExecuteWriteReqs => true
  | _ => false
  end.

(** The events of [take_prefix] when the coalesced path is [path0], and the
    one of [PendingSnapshot.__init__]. *)
Definition is_prefix_event (path0 : string) (ev : event) : bool :=
  match ev with
  | EvNewEventLoop | EvGetOrCreateStore => true
  | EvOpenStorage url => bool_decide (url = path0)
  | _ => is_coalesce_event ev || is_take_impl_event ev
  end.

(** The outcome and the events of [take_commit]. *)
Definition take_commit_outcome (path : string) (pg : PGWrapper) (metadata : SnapshotMetadata)
    (env : environment) : result Snapshot :=
  match e_sync_complete env with
  | Some msg => Raise (Exn "Exception" msg)
  | None =>
      match (if bool_decide (get_rank pg = 0) then e_write_metadata env else None) with
      | Some msg => Raise (Exn "Exception" msg)
      | None => Ok {| s_path := path; s_pg := pg; s_metadata := Some metadata |}
      end
  end.

Definition take_commit_events (path : string) (pg : PGWrapper) (env : environment)
    : list event :=
  match e_sync_complete env with
  | Some _ => []
  | None =>
      [EvSyncComplete; EvBarrier] ++
      (if bool_decide (get_rank pg = 0) then
         match e_write_metadata env with
         | Some _ => []
         | None => [EvSyncWrite path SNAPSHOT_METADATA_FNAME; EvSyncClose path; EvLoopClose]
         end
       else [EvSyncClose path; EvLoopClose])
  end.

(** The message of the first exception of the background commit on rank
    [rank], if a step raises. *)
Definition commit_failure (rank : nat) (env : environment) : option string :=
  match e_sync_complete env with
  | Some msg => Some msg
  | None =>
      match e_arrive env with
      | Some msg => Some msg
      | None =>
          match (if bool_decide (rank = 0) then e_write_metadata env else None) with
          | Some msg => Some msg
          | None => e_depart env
          end
      end
  end.

(** The events of the steps of the background commit that return. *)
Definition commit_steps (rank : nat) (storage : string) (env : environment) : list event :=
  match e_sync_complete env with
  | Some _ => []
  | None =>
      EvSyncComplete ::
      match e_arrive env with
      | Some _ => []
      | None =>
          EvBarrierArrive ::
          match (if bool_decide (rank = 0) then e_write_metadata env else None) with
          | Some _ => []
          | None =>
              (if bool_decide (rank = 0)
               then [EvSyncWrite storage SNAPSHOT_METADATA_FNAME] else []) ++
              match e_depart env with
              | Some _ => []
              | None => [EvBarrierDepart]
              end
          end
      end
  end.

(** *** Reading: the projection of the manifest and the resources *)

Definition is_replicated_entry (entry : Entry) : bool :=
  match entry with
  | PrimitiveEntry _ r | TensorEntry _ r | ObjectEntry _ r => r
  | _ => false
  end.

Definition is_sharded_entry (entry : Entry) : bool :=
  match entry with ShardedTensorEntry _ => true | _ => false end.

(** Modelled from the spec: [manifest_ops.get_manifest_for_rank] is not part
    of the source at hand.  The global manifest is keyed by
    [<rank>/<unranked path>]; projected to a rank, replicated entries are
    visible to every rank and per-rank entries to their owning rank only; the
    sharded tensor entries of all ranks are merged, keyed by unranked path. *)
Definition get_manifest_for_rank_model (metadata : SnapshotMetadata) (rank : Z)
    : Manifest * Manifest :=
  let unranked :=
    omap (λ kv : string * Entry,
            match split_once kv.1 with
            | Some (rank_str, unranked_path) => Some (int rank_str, unranked_path, kv.2)
            | None => None
            end) (map_to_list (manifest metadata)) in
  (list_to_map
     ((λ x : option Z * string * Entry, (x.1.2, x.2)) <$>
      filter (λ x : option Z * string * Entry,
                is_sharded_entry x.2 = false ∧
                (is_replicated_entry x.2 = true ∨ x.1.1 = Some rank)) unranked),
   list_to_map
     ((λ x : option Z * string * Entry, (x.1.2, x.2)) <$>
      filter (λ x : option Z * string * Entry, is_sharded_entry x.2 = true) unranked)).

(** Modelled from the spec: [manifest_ops.handle_sharded_tensor_elasticity]
    makes the shards of the requested tensors available to the rank; with no
    tensor requested, as here, it leaves the manifest as it is. *)
Definition handle_sharded_tensor_elasticity_model (manifest merged_sd_entries : Manifest)
    (tensor_requests : list string) : Manifest := manifest.

(** Modelled from the spec: [flatten.inflate] builds the state dict under
    [prefix] from the container entries and the flattened leaves.  At the
    granularity of the stateful objects the state dict is the one object
    read for the logical path [prefix]. *)
Definition inflate_model (manifest : Manifest) (flattened : list (string * read_result))
    (prefix : string) : result Z :=
  match (list_to_map flattened : gmap string read_result) !! prefix with
  | Some (ReadLoaded [v]) => Ok v
  | Some (ReadPrimitive v) => Ok v
  | _ => Raise (Exn "KeyError" prefix)
  end.

(** Events of read requests. *)
Definition is_read_request (ev : event) : bool :=
  match ev with
  | EvPrepareRead _ | EvBatchReadRequests | EvExecuteReadReqs | EvSyncRead _ _ => true
  | _ => false
  end.

(** Storage plugins and event loops of a trace that were opened and not
    closed. *)
Definition count_events (p : event → bool) (t : list event) : nat :=
  length (filter (λ ev, p ev = true) t).

Definition storages_left_open (t : list event) : nat :=
  count_events (λ ev, match ev with EvOpenStorage _ => true | _ => false end) t -
  count_events (λ ev, match ev with EvSyncClose _ => true | _ => false end) t.

Definition event_loops_left_open (t : list event) : nat :=
  count_events (λ ev, match ev with EvNewEventLoop => true | _ => false end) t -
  count_events (λ ev, match ev with EvLoopClose => true | _ => false end) t.

(** *** The order of the calls into the stateful objects *)

(** What a rank does for the keys of [global_keys] in turn: [inl key] is the
    call into the object at [key], which a rank without the key skips, and
    [inr ()] the barrier after the key. *)
Definition key_schedule (items : AppState) (global_keys : list string) : list (string + unit) :=
  flat_map (λ key, (if items !! key is Some _ then [inl key] else []) ++ [inr ()]) global_keys.

(** The calls of [state_dict] and the barriers of a trace. *)
Definition capture_marker (ev : event) : option (string + unit) :=
  match ev with
  | EvStateDict key => Some (inl key)
  | EvBarrier => Some (inr ())
  | _ => None
  end.

(** The calls of [load_state_dict] and the barriers of a trace. *)
Definition load_marker (ev : event) : option (string + unit) :=
  match ev with
  | EvLoadStateDict key _ => Some (inl key)
  | EvBarrier => Some (inr ())
  | _ => None
  end.

(** Events other than the calls of [load_state_dict] and the barriers. *)
Definition no_load_marker (ev : event) : bool :=
  match load_marker ev with None => true | Some _ => false end.

(** [_load_stateful] for an object in two parts: everything before the call
    of [load_state_dict], with the state dict [inflate] returns as result,
    and that call. *)
Definition load_stateful_reads (self : Snapshot) (stateful_key : string) (stateful : obj)
    (storage : string) (pg : PGWrapper) (env : environment) : M (Snapshot * Z) :=
  ms <- metadata self ;;
  let mm := e_get_manifest_for_rank env ms.1 (Z.of_nat (get_rank pg)) in
  sd <- state_dict stateful_key stateful ;;
  let flattened : gmap string value :=
    filter (λ kv : string * value, is_Tensor kv.2 = true) {[ stateful_key := Object sd ]} in
  let manifest :=
    e_handle_sharded_tensor_elasticity env mm.1 mm.2 (map_to_list flattened).*1 in
  let container_entries : Manifest :=
    filter (λ kv : string * Entry, is_container_entry kv.2 = true) manifest in
  let entries :=
    filter (λ kv : string * Entry, is_container_entry kv.2 = false) (map_to_list manifest) in
  for_each entries (λ kv, emit (EvPrepareRead kv.1)) ;;;
  (if e_batching_disabled env then ret tt else emit EvBatchReadRequests) ;;;
  emit EvMemoryBudget ;;;
  external (e_execute_reads env) ;;;
  futs <- read_entries storage entries ;;
  emit EvExecuteReadReqs ;;;
  match e_inflate env container_entries futs stateful_key with
  | Raise e => raise e
  | Ok loaded => ret (ms.2, loaded)
  end.

Definition is_ok {A} (r : result A) : bool :=
  match r with Ok _ => true | Raise _ => false end.

(** ** Sample states *)

Module Ex.

Definition rng_state : obj := Obj 0 RNGState id id.
Definition model : obj := Obj 1 PlainStateful (λ r, r + 7)%Z (λ r, 2 * r)%Z.
Definition optim : obj := Obj 2 PlainStateful (λ r, r + 1)%Z id.
Definition ddp_model : obj := Obj 3 (DDP ["bias"] ["weight"; "bias"] ["mean"]) id id.
Definition rng_state' : obj := Obj 4 RNGState id id.
Definition number : obj := Obj 5 NotStateful id id.

Definition app_state : AppState :=
  {[ "rng" := rng_state; "model" := model; "optim" := optim ]}.

(** What another rank registers. *)
Definition app_state_1 : AppState := {[ "model" := model; "zebra" := optim ]}.

Definition items_of (j : nat) : AppState :=
  if bool_decide (j = 0) then app_state else app_state_1.

(** Two [RNGState] objects. *)
Definition app_state_2rng : AppState := {[ "rng" := rng_state; "rng2" := rng_state' ]}.

(** A value that is not Stateful. *)
Definition app_state_bad : AppState := {[ "model" := model; "step" := number ]}.

(** The dictionary of the caller is object 5. *)
Definition world0 : world :=
  World {[ 5 := app_state ]} 42%Z {[ 1 := 100%Z; 2 := 200%Z ]} ∅ [].

Definition world_2rng : world := World {[ 5 := app_state_2rng ]} 42%Z ∅ ∅ [].

Definition world_bad : world := World {[ 5 := app_state_bad ]} 42%Z ∅ ∅ [].

(** Two ranks; rank 1 passes the path ["/tmp/other"], the keys ["model"]
    and ["zebra"] of [app_state_1], and no pattern. *)
Definition env : environment :=
  {| e_paths := λ j, if bool_decide (j = 0) then "/tmp/snap" else "/tmp/other";
     e_replicated := λ _, [];
     e_keys := λ j, if bool_decide (j = 0) then ["model"; "optim"] else ["model"; "zebra"];
     e_manifest := {[ "0/model" := TensorEntry "0/model" false;
                      "0/step" := PrimitiveEntry 7%Z true ]};
     e_version := "0.0.1";
     e_batching_disabled := false;
     e_get_manifest_for_rank := get_manifest_for_rank_model;
     e_handle_sharded_tensor_elasticity := handle_sharded_tensor_elasticity_model;
     e_inflate := inflate_model;
     e_sync_complete := None;
     e_write_metadata := None;
     e_execute_reads := None;
     e_arrive := None;
     e_depart := None |}.

(** A snapshot with its metadata loaded and replicated entries only. *)
Definition snapshot_replicated : Snapshot :=
  {| s_path := "/tmp/snap"; s_pg := {| get_rank := 0; get_world_size := 2 |};
     s_metadata := Some {| version := "0.0.1"; world_size := 2;
                           manifest := {[ "0/step" := PrimitiveEntry 7%Z true;
                                          "0/foo" := TensorEntry "replicated/foo" true ]} |} |}.

(** The same with a write request that fails. *)
Definition env_write_fails : environment :=
  {| e_paths := e_paths env; e_replicated := e_replicated env; e_keys := e_keys env;
     e_manifest := e_manifest env; e_version := e_version env;
     e_batching_disabled := e_batching_disabled env;
     e_get_manifest_for_rank := e_get_manifest_for_rank env;
     e_handle_sharded_tensor_elasticity := e_handle_sharded_tensor_elasticity env;
     e_inflate := e_inflate env;
     e_sync_complete := Some "disk full";
     e_write_metadata := None; e_execute_reads := None;
     e_arrive := None; e_depart := None |}.

(** The same with a failing write of the metadata document. *)
Definition env_metadata_fails : environment :=
  {| e_paths := e_paths env; e_replicated := e_replicated env; e_keys := e_keys env;
     e_manifest := e_manifest env; e_version := e_version env;
     e_batching_disabled := e_batching_disabled env;
     e_get_manifest_for_rank := e_get_manifest_for_rank env;
     e_handle_sharded_tensor_elasticity := e_handle_sharded_tensor_elasticity env;
     e_inflate := e_inflate env;
     e_sync_complete := None;
     e_write_metadata := Some "permission denied"; e_execute_reads := None;
     e_arrive := None; e_depart := None |}.

(** A matcher for the patterns of the samples: [*] matches any run of
    characters, [?] any one character, any other character itself. *)
Fixpoint glob (pat name : list ascii) : bool :=
  match pat with
  | [] => match name with [] => true | _ => false end
  | c :: pat' =>
      if bool_decide (c = "*"%char) then
        (fix star (name : list ascii) : bool :=
           glob pat' name || match name with [] => false | _ :: name' => star name' end) name
      else
        match name with
        | [] => false
        | d :: name' => (bool_decide (c = "?"%char) || bool_decide (c = d)) && glob pat' name'
        end
  end.

Definition fnmatch (name pat : string) : bool :=
  glob (String.list_ascii_of_string pat) (String.list_ascii_of_string name).

(** The patterns the callers give and the flattened values of the two ranks. *)
Definition replicated_of (j : nat) : list string :=
  if bool_decide (j = 0) then ["model/*"; "optim/*"] else ["model/*"].

Definition flattened_of (j : nat) : gmap string value :=
  if bool_decide (j = 0)
  then {[ "model/w" := Tensor 1; "model/s" := ShardedTensor 2; "optim/lr" := Primitive 3 ]}
  else {[ "model/w" := Tensor 1; "model/s" := ShardedTensor 2; "model/b" := Tensor 4 ]}.

Definition pg0 : PGWrapper := {| get_rank := 0; get_world_size := 2 |}.

(** A snapshot with its metadata loaded: a tensor of rank 0, a replicated
    primitive value and a replicated tensor. *)
Definition snapshot : Snapshot :=
  {| s_path := "/tmp/snap"; s_pg := pg0;
     s_metadata := Some {| version := "0.0.1"; world_size := 2;
                           manifest := {[ "0/model" := TensorEntry "0/model" false;
                                          "0/step" := PrimitiveEntry 7%Z true;
                                          "0/foo" := TensorEntry "replicated/foo" true ]} |} |}.
Definition pg1 : PGWrapper := {| get_rank := 1; get_world_size := 2 |}.







End Ex.

(** * More of the module: definitions *)

(** [isinstance(val, DDP)]. *)
Definition is_DDP (o : obj) : bool :=
  match o_kind o with DDP _ _ _ => true | _ => false end.

(** [Snapshot.__init__]. *)
Definition Snapshot_init (path : string) (pg : PGWrapper) : Snapshot :=
  {| s_path := path; s_pg := pg; s_metadata := None |}.

(** [Snapshot.get_manifest]: a deep copy of the manifest of the metadata;
    the snapshot object after the call comes with the result. *)
Definition get_manifest (self : Snapshot) : M (Manifest * Snapshot) :=
  ms <- metadata self ;;
  ret (manifest ms.1, ms.2).

(** The inner loop of [_gather_manifest]:
    [global_manifest[os.path.join(str(rank), logical_path)] = entry] for the
    items of the manifest of one rank. *)
Definition add_rank_entries (rank : nat) (global_manifest : Manifest) (manifest : Manifest)
    : Manifest :=
  foldl (λ gm kv, <[ranked_path rank kv.1 := kv.2]> gm) global_manifest (map_to_list manifest).

(** The outer loop, [for rank, manifest in enumerate(manifests)], from the
    rank [rank] on. *)
Fixpoint global_manifest_from (rank : nat) (manifests : list Manifest)
    (global_manifest : Manifest) : Manifest :=
  match manifests with
  | [] => global_manifest
  | manifest :: rest =>
      global_manifest_from (S rank) rest (add_rank_entries rank global_manifest manifest)
  end.

Section gather_manifest.

(** [partitioner.consolidate_replicated_entries]. *)
Variable consolidate_replicated_entries : list Manifest → list Manifest.

(** [Snapshot._gather_manifest]; [peers j] is the manifest rank [j] passes
    to the all-gather. *)
Definition _gather_manifest (manifest : Manifest) (pg : PGWrapper) (peers : nat → Manifest)
    : Manifest :=
  let manifests := all_gather_object pg peers manifest in
  let manifests := consolidate_replicated_entries manifests in
  global_manifest_from 0 manifests ∅.

End gather_manifest.

(** [raises_only P m]: every exception [m] raises satisfies [P]. *)
Definition raises_only (P : exn → Prop) {A} (m : M A) : Prop :=
  ∀ w e w', m w = (Raise e, w') → P e.

(** The storage back end at [url] holds what it held. *)
Definition same_storage_at (url : string) : relation world :=
  λ w w', w_storage w' !! url = w_storage w !! url.

(** Calls into the stateful objects of the application. *)
Definition is_object_call (ev : event) : bool :=
  match ev with EvStateDict _ | EvLoadStateDict _ _ => true | _ => false end.

(** The storage plugins and the event loops a trace opens, less those it
    closes. *)
Definition storage_delta (ev : event) : Z :=
  match ev with EvOpenStorage _ => 1 | EvSyncClose _ => -1 | _ => 0 end.

Definition loop_delta (ev : event) : Z :=
  match ev with EvNewEventLoop => 1 | EvLoopClose => -1 | _ => 0 end.

Definition net_opened (t : list event) : Z * Z :=
  (foldr (λ ev z, storage_delta ev + z)%Z 0%Z t, foldr (λ ev z, loop_delta ev + z)%Z 0%Z t).

(** Events that neither open nor close a storage plugin or an event loop. *)
Definition is_neutral (ev : event) : bool :=
  bool_decide (storage_delta ev = 0%Z ∧ loop_delta ev = 0%Z).

(** The trace grows by events that open [s] storage plugins and [l] event
    loops more than they close. *)
Definition opens (s l : Z) : relation world :=
  λ w w', ∃ delta, w_trace w' = w_trace w ++ delta ∧ net_opened delta = (s, l).

(** [on_ok R m]: when [m] returns, the states before and after are related
    by [R]. *)
Definition on_ok (R : relation world) {A} (m : M A) : Prop :=
  ∀ w a w', m w = (Ok a, w') → R w w'.

(** The calls through which a rank may talk to the other ranks: the
    collectives of [PGWrapper] ([broadcast_object_list], [all_gather_object],
    [barrier]) and the calls that hand the [PGWrapper] to a function recorded
    as one event ([_calculate_replicated_entries], [partition_write_reqs],
    [_gather_manifest], [get_process_memory_budget_bytes],
    [get_or_create_store]). *)
Definition is_collective (ev : event) : bool :=
  match ev with
  | EvBroadcast | EvAllGather | EvBarrier | EvCalculateReplicated | EvPartitionWriteReqs
  | EvGatherManifest | EvMemoryBudget | EvGetOrCreateStore => true
  | _ => false
  end.

(** ** More sample states *)

Module Ex2.

(** The manifests two ranks pass to the gather: a tensor under a relative
    logical path and an object under a logical path that begins with a
    slash. *)
Definition manifest_of (j : nat) : Manifest :=
  if bool_decide (j = 0)
  then {[ "model/w" := TensorEntry "0/model/w" false; "/abs" := ObjectEntry "0/abs" false ]}
  else {[ "model/w" := TensorEntry "1/model/w" false; "/abs" := ObjectEntry "1/abs" false ]}.

(** A storage that holds the tensor of rank 0 of [Ex.snapshot]. *)
Definition world_stored : world :=
  World {[ 5 := Ex.app_state ]} 42%Z ∅ {[ "/tmp/snap" := {[ "0/model" := BObj 11%Z ]} ]} [].

(** An [app_state] without objects. *)
Definition world_empty : world := World {[ 5 := ∅ ]} 42%Z ∅ ∅ [].

(** The arguments of a background commit on rank 0, and its handle. *)
Definition kw : thread_kwargs :=
  {| t_path := "/tmp/snap"; t_rank := 0; t_world_size := 2;
     t_pending_io_work := {| io_writes := [("0/model", 100%Z)] |};
     t_metadata := {| version := "0.0.1"; world_size := 2; manifest := ∅ |};
     t_storage := "/tmp/snap" |}.

Definition handle : PendingSnapshot :=
  {| ps_path := "/tmp/snap"; ps_pg := Ex.pg0; ps_exc_info := None; ps_done := false;
     ps_thread := Some kw |}.

(** Rank 1 gives no pattern. *)
Definition replicated_of (j : nat) : list string :=
  if bool_decide (j = 1) then [] else ["model/*"].

(** The snapshot [take] returns on [Ex.world0]. *)
Definition taken : Snapshot :=
  {| s_path := "/tmp/snap"; s_pg := Ex.pg0;
     s_metadata := Some {| version := "0.0.1"; world_size := 2;
                           manifest := e_manifest Ex.env |} |}.

End Ex2.

(** * Properties *)

(** ** The order on strings *)

Section str_facts.
Import Str.

Lemma str_ascii_compare_refl c : Ascii.compare c c = Eq.
Proof. unfold Ascii.compare. apply N.compare_refl. Qed.

Lemma str_compare_refl s : String.compare s s = Eq.
Proof. induction s as [|c s IH]; simpl; [done|]. by rewrite str_ascii_compare_refl. Qed.

Lemma str_ascii_compare_trans c1 c2 c3 o :
  Ascii.compare c1 c2 = o → Ascii.compare c2 c3 = o → Ascii.compare c1 c3 = o.
Proof.
  unfold Ascii.compare. destruct o; intros H1 H2.
  - apply N.compare_eq_iff in H1, H2. apply N.compare_eq_iff. congruence.
  - rewrite N.compare_lt_iff in *. lia.
  - rewrite N.compare_gt_iff in *. lia.
Qed.

Lemma str_compare_lt_trans s1 : ∀ s2 s3,
  String.compare s1 s2 = Lt → String.compare s2 s3 = Lt → String.compare s1 s3 = Lt.
Proof.
  induction s1 as [|c1 s1 IH]; intros [|c2 s2] [|c3 s3]; simpl; try done.
  destruct (Ascii.compare c1 c2) eqn:E12; try done;
    destruct (Ascii.compare c2 c3) eqn:E23; try done; intros H1 H2.
  - rewrite (str_ascii_compare_trans _ _ _ _ E12 E23). eauto.
  - apply Ascii.compare_eq_iff in E12 as ->. by rewrite E23.
  - apply Ascii.compare_eq_iff in E23 as <-. by rewrite E12.
  - by rewrite (str_ascii_compare_trans _ _ _ _ E12 E23).
Qed.

Lemma str_le_lt_or_eq a b : le a b ↔ lt a b ∨ a = b.
Proof.
  unfold le, lt, String.leb, String.ltb. split.
  - destruct (String.compare a b) eqn:E; try done; [|by left].
    right. by apply String.compare_eq_iff.
  - intros [H| ->]; [by destruct (String.compare a b)|].
    by rewrite str_compare_refl.
Qed.

Lemma str_lt_irrefl a : ¬ lt a a.
Proof. unfold lt, String.ltb. by rewrite str_compare_refl. Qed.

#[global] Instance str_lt_trans : Transitive lt.
Proof.
  intros a b c. unfold lt, String.ltb.
  destruct (String.compare a b) eqn:E1; try done.
  destruct (String.compare b c) eqn:E2; try done.
  by rewrite (str_compare_lt_trans _ _ _ E1 E2).
Qed.

#[global] Instance str_le_trans : Transitive le.
Proof.
  intros a b c. rewrite !str_le_lt_or_eq.
  intros [H1| ->] [H2| ->]; eauto. left. by etrans.
Qed.

#[global] Instance str_le_total : Total le.
Proof. intros a b. apply String.leb_total. Qed.

#[global] Instance str_le_antisym : AntiSymm (=) le.
Proof. intros a b. apply String.leb_antisym. Qed.

Lemma str_sorted_perm xs : sorted xs ≡ₚ xs.
Proof. apply merge_sort_Permutation. Qed.

Lemma str_sorted_le xs : StronglySorted le (sorted xs).
Proof. apply Sorted_StronglySorted; [apply _|]. apply Sorted_merge_sort, _. Qed.

Lemma str_StronglySorted_lt_of_le xs :
  NoDup xs → StronglySorted le xs → StronglySorted lt xs.
Proof.
  induction 2 as [|x xs Hs IH Hall]; [constructor|].
  apply NoDup_cons in H as [Hx Hnd]. constructor; [by apply IH|].
  apply Forall_forall. intros y Hy.
  rewrite Forall_forall in Hall. specialize (Hall y Hy).
  apply str_le_lt_or_eq in Hall as [?| ->]; done.
Qed.

(** A strictly increasing list is determined by its elements. *)
Lemma str_sorted_of_set_lt (X : gset string) :
  StronglySorted lt (sorted (elements X)).
Proof.
  apply str_StronglySorted_lt_of_le; [|apply str_sorted_le].
  rewrite str_sorted_perm. apply NoDup_elements.
Qed.

End str_facts.

(** ** Collectives *)

(** When every rank passes the object the environment holds for it, every
    rank gathers the same list. *)
Lemma all_gather_object_coherent {A} (pg : PGWrapper) (contrib : nat → A) :
  all_gather_object pg contrib (contrib (get_rank pg)) = contrib <$> seq 0 (get_world_size pg).
Proof.
  unfold all_gather_object. apply list_fmap_ext. intros i j _.
  case_bool_decide; by subst.
Qed.

Lemma all_gather_object_length {A} (pg : PGWrapper) (peers : nat → A) obj :
  length (all_gather_object pg peers obj) = get_world_size pg.
Proof. unfold all_gather_object. by rewrite length_fmap, length_seq. Qed.

Lemma all_gather_object_own {A} (pg : PGWrapper) (peers : nat → A) obj :
  get_rank pg < get_world_size pg →
  all_gather_object pg peers obj !! get_rank pg = Some obj.
Proof.
  intros Hr. unfold all_gather_object. rewrite list_lookup_fmap.
  rewrite lookup_seq_lt by done. simpl. by rewrite bool_decide_true.
Qed.

Lemma elem_of_gathered {A} (contrib : nat → A) ws x :
  x ∈ contrib <$> seq 0 ws ↔ ∃ j, j < ws ∧ x = contrib j.
Proof.
  rewrite list_elem_of_fmap. split.
  - intros (j & -> & Hj). apply elem_of_seq in Hj. exists j. split; [lia|done].
  - intros (j & Hj & ->). exists j. split; [done|]. apply elem_of_seq. lia.
Qed.

(** ** [_gather_keys] *)

Lemma elem_of_concat {A} (ls : list (list A)) x :
  x ∈ concat ls ↔ ∃ l, l ∈ ls ∧ x ∈ l.
Proof.
  induction ls as [|l ls IH]; simpl.
  - split; [by intros ?%elem_of_nil|]. by intros (l & ?%elem_of_nil & _).
  - rewrite elem_of_app, IH. split.
    + intros [H|(l' & H1 & H2)]; [exists l|exists l']; split; try done; [left|by right].
    + intros (l' & [->|H1]%elem_of_cons & H2); [by left|right; eauto].
Qed.

Lemma elem_of_gather_keys keys pg peers k :
  k ∈ _gather_keys keys pg peers ↔ ∃ ks, ks ∈ all_gather_object pg peers keys ∧ k ∈ ks.
Proof.
  unfold _gather_keys. rewrite str_sorted_perm, elem_of_elements, elem_of_list_to_set.
  rewrite elem_of_concat. naive_solver.
Qed.

Lemma gather_keys_sorted keys pg peers :
  StronglySorted Str.lt (_gather_keys keys pg peers).
Proof. apply str_sorted_of_set_lt. Qed.

Lemma gather_keys_own keys pg peers k :
  get_rank pg < get_world_size pg → k ∈ keys → k ∈ _gather_keys keys pg peers.
Proof.
  intros Hr Hk. apply elem_of_gather_keys. exists keys. split; [|done].
  eapply list_elem_of_lookup_2, all_gather_object_own, Hr.
Qed.

(** ** Replication: patterns and paths *)

Lemma elem_of_foldl_intersection (s : gset string) (rest : list (gset string)) x :
  x ∈ foldl (∩) s rest ↔ x ∈ s ∧ ∀ t, t ∈ rest → x ∈ t.
Proof.
  revert s. induction rest as [|t rest IH]; intros s; simpl.
  - split; [|by intros [? _]]. intros ?. split; [done|]. by intros t ?%elem_of_nil.
  - rewrite IH, elem_of_intersection. split.
    + intros [[Hs Ht] Hrest]. split; [done|].
      intros t' [->|?]%elem_of_cons; auto.
    + intros [Hs Hall]. split; [split; [done|]|].
      * apply Hall. by left.
      * intros t' ?. apply Hall. by right.
Qed.

Lemma coalesce_replicated_spec (global_replicated : list (list string)) :
  global_replicated ≠ [] →
  ∃ verified, _coalesce_replicated global_replicated = Ok verified ∧
    ∀ pat, pat ∈ verified ↔ ∀ l, l ∈ global_replicated → pat ∈ l.
Proof.
  destruct global_replicated as [|l ls]; [done|]. intros _.
  unfold _coalesce_replicated. simpl. eexists. split; [done|].
  intros pat. rewrite elem_of_foldl_intersection, elem_of_list_to_set. split.
  - intros [Hl Hls] l' [->|Hl']%elem_of_cons; [done|].
    rewrite <- (elem_of_list_to_set (C:=gset string)). apply Hls.
    apply list_elem_of_fmap. eauto.
  - intros Hall. split; [apply Hall; by left|].
    intros t (l' & -> & Hl')%list_elem_of_fmap.
    apply elem_of_list_to_set, Hall. by right.
Qed.

Lemma infer_replicated_keeps replicated (app_state : AppState) pat :
  pat ∈ replicated → pat ∈ _infer_replicated replicated app_state.
Proof.
  intros H. unfold _infer_replicated. case_bool_decide; [done|].
  apply elem_of_app. by left.
Qed.

Lemma path_count_incr_lookup m q p :
  default 0 (path_count_incr m q !! p) =
  default 0 (m !! p) + (if bool_decide (p = q) then 1 else 0).
Proof.
  unfold path_count_incr. case_bool_decide as E.
  - subst. rewrite lookup_insert_eq. simpl. lia.
  - rewrite lookup_insert_ne by done. lia.
Qed.

Lemma path_count_inner m paths p :
  default 0 (foldl path_count_incr m paths !! p) = default 0 (m !! p) + occurrences p paths.
Proof.
  revert m. induction paths as [|q paths IH]; intros m; simpl.
  - unfold occurrences. simpl. lia.
  - rewrite IH, path_count_incr_lookup. unfold occurrences.
    rewrite filter_cons. case_bool_decide; case_decide; try done; simpl; lia.
Qed.

Lemma path_count_outer m (obj_list : list (list string)) p :
  default 0 (foldl (λ pc paths, foldl path_count_incr pc paths) m obj_list !! p) =
  default 0 (m !! p) + sum_list (occurrences p <$> obj_list).
Proof.
  revert m. induction obj_list as [|l ls IH]; intros m; [simpl; lia|].
  rewrite fmap_cons. cbn [foldl sum_list_with]. rewrite IH, path_count_inner.
  unfold id. lia.
Qed.

Lemma path_count_of_lookup obj_list p :
  default 0 (path_count_of obj_list !! p) = sum_list (occurrences p <$> obj_list).
Proof. unfold path_count_of. by rewrite path_count_outer, lookup_empty. Qed.

Lemma occurrences_NoDup p l :
  NoDup l → occurrences p l = if bool_decide (p ∈ l) then 1 else 0.
Proof.
  unfold occurrences. induction 1 as [|q l Hq Hnd IH]; [done|].
  rewrite filter_cons. destruct (decide (p = q)) as [<-|E].
  - simpl. rewrite IH. rewrite (bool_decide_false (p ∈ l)) by done.
    rewrite bool_decide_true; [done|by left].
  - rewrite IH. case_bool_decide as E1.
    + rewrite bool_decide_true; [done|by right].
    + rewrite bool_decide_false; [done|]. by intros [->|?]%elem_of_cons.
Qed.

(** When no list repeats a path, a path is counted as often as there are
    lists exactly when every list holds it. *)
Lemma sum_occurrences_full p (obj_list : list (list string)) :
  Forall NoDup obj_list →
  sum_list (occurrences p <$> obj_list) ≤ length obj_list ∧
  (sum_list (occurrences p <$> obj_list) = length obj_list ↔ ∀ l, l ∈ obj_list → p ∈ l).
Proof.
  induction 1 as [|l ls Hl Hls [IHle IHeq]].
  - simpl. split; [done|]. split; [|done]. by intros _ l ?%elem_of_nil.
  - change (sum_list (occurrences p <$> l :: ls))
      with (occurrences p l + sum_list (occurrences p <$> ls)).
    cbn [length]. rewrite (occurrences_NoDup p l Hl). case_bool_decide as E.
    + split; [lia|]. split.
      * intros Hs l' [->|?]%elem_of_cons; [done|]. apply IHeq; [lia|done].
      * intros Hall. f_equal. apply IHeq. intros l' ?. apply Hall. by right.
    + split; [lia|]. split; [lia|]. intros Hall. destruct E. apply Hall. by left.
Qed.

Section classification_facts.
Variable fnmatch : string → string → bool.

Lemma elem_of_local_replicated_paths flattened replicated p :
  p ∈ local_replicated_paths fnmatch flattened replicated ↔
  ∃ v, flattened !! p = Some v ∧
       (∃ pat, pat ∈ replicated ∧ fnmatch p pat = true) ∧ is_ShardedTensor v = false.
Proof.
  unfold local_replicated_paths. rewrite list_elem_of_fmap. split.
  - intros ([q v] & -> & [HP Hin]%list_elem_of_filter). simpl in *.
    apply elem_of_map_to_list in Hin. exists v. split; [done|].
    apply andb_true_iff in HP as [Hex Hsh]. split.
    + apply existsb_exists in Hex as (pat & Hpat & Hm). exists pat. split; [|done].
      apply elem_of_elements, list_elem_of_In, Hpat.
    + by apply negb_true_iff.
  - intros (v & Hv & (pat & Hpat & Hm) & Hsh). exists (p, v). split; [done|].
    apply list_elem_of_filter. split; [|by apply elem_of_map_to_list]. simpl.
    apply andb_true_iff. split; [|by apply negb_true_iff].
    apply existsb_exists. exists pat. split; [|done].
    by apply list_elem_of_In, elem_of_elements.
Qed.

Lemma NoDup_local_replicated_paths flattened replicated :
  NoDup (local_replicated_paths fnmatch flattened replicated).
Proof.
  unfold local_replicated_paths.
  apply (sublist_NoDup _ ((map_to_list flattened).*1));
    [apply NoDup_fst_map_to_list | apply fmap_sublist, sublist_filter].
Qed.

(** On rank 0, the list sent to the broadcast holds the paths every rank
    passed to the all-gather. *)
Lemma elem_of_replicated_paths_sent_0 (fl : nat → gmap string value) replicated ws p :
  0 < ws →
  let proposed j := local_replicated_paths fnmatch (fl j) replicated in
  p ∈ replicated_paths_sent fnmatch (fl 0) replicated
        {| get_rank := 0; get_world_size := ws |} proposed ↔
  ∀ j, j < ws → p ∈ proposed j.
Proof.
  intros Hws proposed. unfold replicated_paths_sent. simpl.
  pose proof (all_gather_object_coherent {| get_rank := 0; get_world_size := ws |} proposed) as Hco.
  simpl in Hco. change (local_replicated_paths fnmatch (fl 0) replicated) with (proposed 0).
  rewrite Hco.
  rewrite list_elem_of_filter, path_count_of_lookup.
  assert (Forall NoDup (proposed <$> seq 0 ws)) as Hnd.
  { apply Forall_forall. intros l (j & _ & ->)%elem_of_gathered.
    apply NoDup_local_replicated_paths. }
  destruct (sum_occurrences_full p _ Hnd) as [_ Heq].
  rewrite length_fmap, length_seq in Heq. rewrite Heq. split.
  - intros [Hall _] j Hj. apply Hall. apply elem_of_gathered. eauto.
  - intros Hall. split; [|by apply Hall].
    intros l (j & Hj & ->)%elem_of_gathered. by apply Hall.
Qed.

End classification_facts.

(** ** Frame rules for the monad *)

Section keeps_rules.
Context (I : relation world) `{!PreOrder I}.

Lemma keeps_ret {A} (a : A) : keeps I (ret a).
Proof. intros w. simpl. reflexivity. Qed.

Lemma keeps_raise {A} e : keeps I (@raise A e).
Proof. intros w. simpl. reflexivity. Qed.

Lemma keeps_bind {A B} (m : M A) (k : A → M B) :
  keeps I m → (∀ a, keeps I (k a)) → keeps I (bind m k).
Proof.
  intros Hm Hk w. unfold bind. specialize (Hm w).
  destruct (m w) as [[a|e] w1]; simpl in *; [|done].
  etrans; [exact Hm|apply Hk].
Qed.

Lemma keeps_try_except {A} (body : M A) handler :
  keeps I body → (∀ e, keeps I (handler e)) → keeps I (try_except body handler).
Proof.
  intros Hm Hk w. unfold try_except. specialize (Hm w).
  destruct (body w) as [[a|e] w1]; simpl in *; [done|].
  etrans; [exact Hm|apply Hk].
Qed.

Lemma keeps_try_finally {A} (body : M A) fin :
  keeps I body → keeps I fin → keeps I (try_finally body fin).
Proof.
  intros Hm Hk w. unfold try_finally. specialize (Hm w).
  destruct (body w) as [r w1]. specialize (Hk w1).
  destruct (fin w1) as [[[]|e] w2]; simpl in *; by etrans.
Qed.

Lemma keeps_for_each {A} (xs : list A) body :
  (∀ x, keeps I (body x)) → keeps I (for_each xs body).
Proof.
  intros Hb. induction xs as [|x xs IH]; simpl; [apply keeps_ret|].
  apply keeps_bind; [apply Hb|done].
Qed.

Lemma keeps_external o : keeps I (external o).
Proof. destruct o; [apply keeps_raise|apply keeps_ret]. Qed.

Lemma keeps_dict_items d : keeps I (dict_items d).
Proof. intros w. simpl. reflexivity. Qed.

Lemma keeps_read_locations storage locations :
  (∀ url file, keeps I (sync_read url file)) → keeps I (read_locations storage locations).
Proof.
  intros Hr. induction locations as [|l ls IH]; simpl; [apply keeps_ret|].
  apply keeps_bind; [apply Hr|intros b].
  destruct b; [|apply keeps_raise].
  apply keeps_bind; [exact IH|intros vs]. apply keeps_ret.
Qed.

Lemma keeps_read_entries storage entries :
  (∀ url file, keeps I (sync_read url file)) → keeps I (read_entries storage entries).
Proof.
  intros Hr. induction entries as [|[logical_path entry] rest IH]; simpl; [apply keeps_ret|].
  apply keeps_bind; [|intros obj].
  - destruct entry; first
      [ apply keeps_ret
      | apply keeps_bind; [by apply keeps_read_locations|intros parts; apply keeps_ret] ].
  - apply keeps_bind; [exact IH|intros futs]. apply keeps_ret.
Qed.

End keeps_rules.

#[global] Instance grows_by_preorder p : PreOrder (grows_by p).
Proof.
  split.
  - intros w. exists []. by rewrite app_nil_r.
  - intros w1 w2 w3 (d1 & E1 & F1) (d2 & E2 & F2). exists (d1 ++ d2).
    split; [by rewrite E2, E1, app_assoc|by apply Forall_app].
Qed.

#[global] Instance same_dict_preorder d : PreOrder (same_dict d).
Proof. split; [by intros w items|]. intros w1 w2 w3 H1 H2 items ?. eauto. Qed.

#[global] Instance same_rng_preorder : PreOrder same_rng.
Proof. split; [done|]. unfold same_rng. intros w1 w2 w3 H1 H2. congruence. Qed.

#[global] Instance same_storage_preorder : PreOrder same_storage.
Proof. split; [done|]. unfold same_storage. intros w1 w2 w3 H1 H2. congruence. Qed.

Lemma grows_by_trace_since p w w' :
  grows_by p w w' →
  w_trace w' = w_trace w ++ trace_since w w' ∧ Forall (λ ev, p ev = true) (trace_since w w').
Proof.
  intros (delta & E & F). unfold trace_since. rewrite E, drop_app_length. done.
Qed.

Lemma grows_by_weaken (p q : event → bool) w w' :
  (∀ ev, p ev = true → q ev = true) → grows_by p w w' → grows_by q w w'.
Proof.
  intros Hpq (delta & E & F). exists delta. split; [done|].
  eapply Forall_impl; [exact F|]. done.
Qed.

(** *** The trace *)

Lemma grows_emit p ev : p ev = true → keeps (grows_by p) (emit ev).
Proof. intros Hp w. exists [ev]. simpl. split; [done|]. by constructor. Qed.

Lemma grows_dict_copy p d : keeps (grows_by p) (dict_copy d).
Proof. intros w. exists []. simpl. by rewrite app_nil_r. Qed.

Lemma grows_dict_delitem p d key : keeps (grows_by p) (dict_delitem d key).
Proof. intros w. exists []. simpl. by rewrite app_nil_r. Qed.

Lemma grows_state_dict p key o :
  p (EvStateDict key) = true → keeps (grows_by p) (state_dict key o).
Proof.
  intros Hp w. exists [EvStateDict key]. split; [|by constructor].
  unfold state_dict, bind, emit. simpl. by destruct (o_kind o).
Qed.

Lemma grows_load_state_dict p key o sd :
  p (EvLoadStateDict key sd) = true → keeps (grows_by p) (load_state_dict key o sd).
Proof.
  intros Hp w. exists [EvLoadStateDict key sd]. split; [|by constructor].
  unfold load_state_dict, bind, emit. simpl. by destruct (o_kind o).
Qed.

Lemma grows_sync_complete p pending storage env :
  p EvSyncComplete = true → keeps (grows_by p) (sync_complete pending storage env).
Proof.
  intros Hp w. unfold sync_complete, bind, external.
  destruct (e_sync_complete env); simpl.
  - exists []. by rewrite app_nil_r.
  - exists [EvSyncComplete]. split; [done|by constructor].
Qed.

Lemma grows_sync_write p url file b :
  p (EvSyncWrite url file) = true → keeps (grows_by p) (sync_write url file b).
Proof. intros Hp w. exists [EvSyncWrite url file]. split; [done|by constructor]. Qed.

Lemma grows_sync_read p url file :
  p (EvSyncRead url file) = true → keeps (grows_by p) (sync_read url file).
Proof.
  intros Hp w. unfold sync_read, bind. simpl.
  destruct (w_storage w !! url ≫= _); simpl.
  - exists [EvSyncRead url file]. split; [done|by constructor].
  - exists []. by rewrite app_nil_r.
Qed.

(** ** Running the monad step by step *)

Lemma bind_ok {A B} (m : M A) (k : A → M B) w a w' :
  m w = (Ok a, w') → bind m k w = k a w'.
Proof. intros E. unfold bind. by rewrite E. Qed.

Lemma bind_raise {A B} (m : M A) (k : A → M B) w e w' :
  m w = (Raise e, w') → bind m k w = (Raise e, w').
Proof. intros E. unfold bind. by rewrite E. Qed.

Lemma for_each_emit {A} (xs : list A) (f : A → event) w :
  for_each xs (λ x, emit (f x)) w =
  (Ok tt, World (w_dicts w) (w_rng w) (w_states w) (w_storage w) (w_trace w ++ (f <$> xs))).
Proof.
  revert w. induction xs as [|x xs IH]; intros w; simpl.
  - rewrite app_nil_r. by destruct w.
  - unfold bind. simpl. rewrite IH. simpl. by rewrite <- app_assoc.
Qed.

Lemma for_each_check {A} (xs : list A) (c : A → bool) (e : A → exn) w :
  for_each xs (λ x, if c x then ret tt else raise (e x)) w =
  (match find (λ x, negb (c x)) xs with Some x => Raise (e x) | None => Ok tt end, w).
Proof.
  induction xs as [|x xs IH]; simpl; [done|].
  unfold bind. destruct (c x); simpl; [by rewrite IH|done].
Qed.

(** ** [_validate_app_state] and [_pop_rng_state] *)

Lemma all_Stateful_lookup items :
  all_Stateful items = true ↔ ∀ k o, items !! k = Some o → is_Stateful o = true.
Proof.
  unfold all_Stateful. rewrite forallb_forall. split.
  - intros H k o Hk. apply (H (k, o)). by apply list_elem_of_In, elem_of_map_to_list.
  - intros H [k o] Hin. apply (H k). by apply elem_of_map_to_list, list_elem_of_In.
Qed.

Lemma validate_app_state_run app_state w :
  _validate_app_state app_state w =
  (match find (λ kv : string * obj, negb (is_Stateful kv.2))
               (map_to_list (default ∅ (w_dicts w !! app_state))) with
   | Some kv => Raise (Exn "TypeError" ("Expected Stateful in app_state for key " +:+ kv.1))
   | None => Ok tt
   end, w).
Proof. unfold _validate_app_state. erewrite bind_ok by done. apply for_each_check. Qed.

Lemma validate_app_state_ok app_state w items :
  w_dicts w !! app_state = Some items → all_Stateful items = true →
  _validate_app_state app_state w = (Ok tt, w).
Proof.
  intros Hl Hall. rewrite validate_app_state_run, Hl. simpl.
  destruct (find _ _) as [kv|] eqn:E; [|done].
  apply find_some in E as [Hin Hneg]. unfold all_Stateful in Hall.
  rewrite forallb_forall in Hall. rewrite (Hall kv Hin) in Hneg. done.
Qed.

Lemma validate_app_state_raise app_state w items :
  w_dicts w !! app_state = Some items → all_Stateful items = false →
  ∃ msg, _validate_app_state app_state w = (Raise (Exn "TypeError" msg), w).
Proof.
  intros Hl Hall. rewrite validate_app_state_run, Hl. simpl.
  destruct (find _ _) as [kv|] eqn:E; [eauto|].
  unfold all_Stateful in Hall. apply not_true_iff_false in Hall. destruct Hall.
  apply forallb_forall. intros kv Hin.
  pose proof (find_none _ _ E kv Hin) as Hn. by apply negb_false_iff in Hn.
Qed.

Lemma keeps_validate_app_state I `{!PreOrder I} app_state :
  keeps I (_validate_app_state app_state).
Proof. intros w. rewrite validate_app_state_run. simpl. reflexivity. Qed.

Lemma pop_rng_state_run app_state w items :
  w_dicts w !! app_state = Some items →
  _pop_rng_state app_state w =
  match map_to_list (rng_state_items items) with
  | [] => (Ok None, w)
  | [(key, stateful)] =>
      (Ok (Some (key, stateful)), set_dicts (alter (delete key) app_state) w)
  | _ => (Raise (Exn "RuntimeError" "Multiple RNGState objects in app state"), w)
  end.
Proof.
  intros Hl. unfold _pop_rng_state. erewrite bind_ok by done. rewrite Hl. simpl.
  destruct (map_to_list (rng_state_items items)) as [|[k o] [|kv rest]]; done.
Qed.

Lemma pop_rng_state_ok app_state w items :
  w_dicts w !! app_state = Some items → size (rng_state_items items) ≤ 1 →
  _pop_rng_state app_state w =
  (Ok (popped_item items),
   set_dicts (λ dicts, <[app_state := popped_items items]> dicts) w).
Proof.
  intros Hl Hsz. rewrite (pop_rng_state_run _ _ _ Hl).
  unfold popped_items, popped_item. rewrite <- length_map_to_list in Hsz.
  destruct (map_to_list (rng_state_items items)) as [|[k o] [|kv rest]]; simpl in Hsz; [| |lia].
  - f_equal. destruct w; unfold set_dicts; simpl in *. f_equal. by rewrite insert_id.
  - f_equal. destruct w; unfold set_dicts; simpl in *. f_equal.
    apply map_eq. intros d. destruct (decide (d = app_state)) as [->|Hne].
    + by rewrite lookup_alter_eq, lookup_insert_eq, Hl.
    + by rewrite lookup_alter_ne, lookup_insert_ne.
Qed.

Lemma pop_rng_state_many app_state w items :
  w_dicts w !! app_state = Some items → 1 < size (rng_state_items items) →
  _pop_rng_state app_state w =
  (Raise (Exn "RuntimeError" "Multiple RNGState objects in app state"), w).
Proof.
  intros Hl Hsz. rewrite (pop_rng_state_run _ _ _ Hl).
  rewrite <- length_map_to_list in Hsz.
  destruct (map_to_list (rng_state_items items)) as [|[k o] [|kv rest]]; simpl in Hsz;
    [lia|lia|done].
Qed.

Lemma popped_item_lookup items key o :
  popped_item items = Some (key, o) →
  items !! key = Some o ∧ o_kind o = RNGState ∧ rng_state_items items = {[key := o]}.
Proof.
  unfold popped_item. intros H.
  destruct (map_to_list (rng_state_items items)) as [|kv [|kv' rest]] eqn:E; try done.
  simplify_eq.
  assert (rng_state_items items = {[key := o]}) as Hs.
  { rewrite <- (list_to_map_to_list (rng_state_items items)), E. simpl.
    by rewrite insert_empty. }
  assert (rng_state_items items !! key = Some o) as Hk.
  { rewrite Hs. apply lookup_singleton_eq. }
  apply map_lookup_filter_Some in Hk as [Hk Hr]. simpl in Hr.
  repeat split; try done. unfold is_RNGState in Hr. by destruct (o_kind o).
Qed.

Lemma popped_item_None items :
  size (rng_state_items items) ≤ 1 → popped_item items = None → rng_state_items items = ∅.
Proof.
  unfold popped_item. rewrite <- length_map_to_list. intros Hsz H.
  destruct (map_to_list (rng_state_items items)) as [|kv [|kv' rest]] eqn:E;
    simpl in *; try done; [|lia].
  by apply map_to_list_empty_iff.
Qed.

(** After the pop no [RNGState] is left when there was at most one. *)
Lemma popped_items_no_rng items k o :
  size (rng_state_items items) ≤ 1 →
  popped_items items !! k = Some o → is_RNGState o = false.
Proof.
  intros Hsz Hk. destruct (is_RNGState o) eqn:Hr; [|done]. exfalso.
  unfold popped_items in Hk. destruct (popped_item items) as [[key st]|] eqn:E.
  - apply popped_item_lookup in E as (_ & _ & Hs).
    apply lookup_delete_Some in Hk as [Hne Hk].
    assert (rng_state_items items !! k = Some o) as Hin
      by (by apply map_lookup_filter_Some).
    rewrite Hs in Hin. apply lookup_singleton_Some in Hin as [? _]. done.
  - apply popped_item_None in E; [|done].
    assert (rng_state_items items !! k = Some o) as Hin
      by (by apply map_lookup_filter_Some).
    by rewrite E in Hin.
Qed.

Lemma popped_items_Stateful items :
  all_Stateful items = true → all_Stateful (popped_items items) = true.
Proof.
  rewrite !all_Stateful_lookup. intros H k o Hk. unfold popped_items in Hk.
  destruct (popped_item items) as [[key st]|]; [|eauto].
  apply lookup_delete_Some in Hk as [_ Hk]. eauto.
Qed.

(** ** [state_dict], [load_state_dict] and the loop of [_take_impl] *)

Lemma state_dict_run key o w :
  is_Stateful o = true →
  state_dict key o w =
  (Ok (state_dict_value o (w_states w) (w_rng w)),
   World (w_dicts w) (state_dict_rng o (w_rng w)) (w_states w) (w_storage w)
         (w_trace w ++ [EvStateDict key])).
Proof.
  intros Hs. unfold state_dict, state_dict_value, state_dict_rng, is_Stateful in *.
  unfold bind, emit. simpl. destruct (o_kind o); done.
Qed.

Lemma load_state_dict_rng_run key o sd w :
  o_kind o = RNGState →
  load_state_dict key o sd w =
  (Ok tt, World (w_dicts w) sd (w_states w) (w_storage w)
                (w_trace w ++ [EvLoadStateDict key sd])).
Proof. intros Hk. unfold load_state_dict, bind, emit. simpl. by rewrite Hk. Qed.

Lemma take_loop_run app_state items global_keys : ∀ flattened w,
  w_dicts w !! app_state = Some items → all_Stateful items = true →
  take_loop app_state global_keys flattened w =
  (Ok (take_loop_summary items (w_states w) global_keys flattened (w_rng w)).1,
   World (w_dicts w)
         (take_loop_summary items (w_states w) global_keys flattened (w_rng w)).2
         (w_states w) (w_storage w)
         (w_trace w ++ take_loop_events items global_keys)).
Proof.
  induction global_keys as [|key rest IH]; intros flattened w Hl Hall.
  - simpl. rewrite app_nil_r. by destruct w.
  - simpl. erewrite bind_ok by done. rewrite Hl. simpl.
    destruct (items !! key) as [o|] eqn:Hk.
    + assert (is_Stateful o = true) as Hs by (eapply all_Stateful_lookup; eauto).
      unfold bind at 1. unfold bind at 1. rewrite (state_dict_run _ _ _ Hs). simpl.
      unfold bind at 1. simpl. rewrite IH by done. simpl.
      by rewrite <- !app_assoc.
    + unfold bind at 1. simpl. unfold bind at 1. simpl. rewrite IH by done. simpl.
      by rewrite <- !app_assoc.
Qed.

(** ** A run of [_take_impl] on a validated [app_state] *)

Lemma take_impl_run path app_state replicated pg storage is_async env w items :
  w_dicts w !! app_state = Some items →
  all_Stateful items = true →
  size (rng_state_items items) ≤ 1 →
  _take_impl path app_state replicated pg storage is_async env w =
  (Ok (take_impl_result items (w_states w) pg env (w_rng w)),
   World (<[fresh (dom (w_dicts w)) := popped_items items]> (w_dicts w))
         (take_impl_rng items (w_states w) pg env (w_rng w))
         (w_states w) (w_storage w)
         (w_trace w ++ take_impl_events items (w_states w) pg env (w_rng w))).
Proof.
  intros Hl Hall Hsz. destruct w as [dicts rng states storage0 trace]. simpl in *.
  unfold _take_impl.
  erewrite bind_ok by reflexivity.
  erewrite bind_ok; cycle 1.
  { apply (pop_rng_state_ok _ _ items); [|done]. simpl. rewrite Hl. simpl.
    apply lookup_insert_eq. }
  unfold set_dicts. simpl. rewrite Hl. simpl. rewrite insert_insert_eq.
  pose proof (popped_items_Stateful _ Hall) as Hall'.
  unfold take_impl_result, take_impl_events, take_impl_rng, take_flattened, take_global_keys.
  destruct (popped_item items) as [[key o]|] eqn:Hp.
  - apply popped_item_lookup in Hp as Hp'. destruct Hp' as (Hk & Hkind & _).
    assert (is_Stateful o = true) as Hs by (unfold is_Stateful; by rewrite Hkind).
    erewrite bind_ok; cycle 1.
    { erewrite bind_ok by (by apply state_dict_run). reflexivity. }
    unfold state_dict_value, state_dict_rng. rewrite Hkind. simpl.
    erewrite bind_ok by reflexivity. simpl. rewrite lookup_insert_eq. simpl.
    erewrite bind_ok by reflexivity. simpl.
    erewrite bind_ok; cycle 1.
    { apply (take_loop_run _ (popped_items items)); [|done]. simpl.
      apply lookup_insert_eq. }
    simpl.
    erewrite bind_ok by (by apply load_state_dict_rng_run). simpl.
    erewrite bind_ok by reflexivity. simpl.
    erewrite bind_ok by apply for_each_emit. simpl.
    erewrite bind_ok by reflexivity. simpl.
    unfold take_tail_events.
    destruct (e_batching_disabled env); simpl; unfold bind, emit, ret; simpl;
      rewrite <- !app_assoc; simpl; rewrite <- !list_fmap_compose; reflexivity.
  - assert (popped_items items = items) as Hpi by (unfold popped_items; by rewrite Hp).
    rewrite Hpi in *.
    erewrite bind_ok by reflexivity. simpl.
    erewrite bind_ok by reflexivity. simpl. rewrite lookup_insert_eq. simpl.
    erewrite bind_ok by reflexivity. simpl.
    erewrite bind_ok; cycle 1.
    { apply (take_loop_run _ items); [|done]. simpl. apply lookup_insert_eq. }
    simpl.
    erewrite bind_ok by reflexivity. simpl.
    erewrite bind_ok by reflexivity. simpl.
    erewrite bind_ok by apply for_each_emit. simpl.
    erewrite bind_ok by reflexivity. simpl.
    unfold take_tail_events.
    destruct (e_batching_disabled env); simpl; unfold bind, emit, ret; simpl;
      rewrite <- !app_assoc; simpl; rewrite <- !list_fmap_compose; reflexivity.
Qed.

(** ** What the steps of a run leave alone *)

#[global] Instance only_trace_preorder p : PreOrder (only_trace p).
Proof.
  split.
  - intros w. exists []. rewrite app_nil_r. by destruct w.
  - intros w1 w2 w3 (d1 & -> & F1) (d2 & -> & F2). exists (d1 ++ d2). simpl.
    split; [by rewrite app_assoc|by apply Forall_app].
Qed.

Lemma keeps_weaken (I J : relation world) {A} (m : M A) :
  (∀ w w', I w w' → J w w') → keeps I m → keeps J m.
Proof. intros HIJ Hm w. apply HIJ, Hm. Qed.

Lemma only_trace_grows p w w' : only_trace p w w' → grows_by p w w'.
Proof. intros (delta & -> & F). by exists delta. Qed.

Lemma only_trace_same_dict p d w w' : only_trace p w w' → same_dict d w w'.
Proof. by intros (delta & -> & F) items. Qed.

Lemma only_trace_same_rng p w w' : only_trace p w w' → same_rng w w'.
Proof. by intros (delta & -> & F). Qed.

Lemma only_trace_same_storage p w w' : only_trace p w w' → same_storage w w'.
Proof. by intros (delta & -> & F). Qed.

Lemma only_trace_emit p ev : p ev = true → keeps (only_trace p) (emit ev).
Proof. intros Hp w. exists [ev]. split; [done|by constructor]. Qed.

Create HintDb keeps.

Ltac keeps_auto :=
  repeat first
    [ progress cbv zeta
    | solve [eauto with keeps]
    | apply keeps_ret; apply _
    | apply keeps_raise; apply _
    | apply keeps_external; apply _
    | apply keeps_dict_items; apply _
    | apply keeps_validate_app_state; apply _
    | apply keeps_bind; [apply _ | | intros ?]
    | apply keeps_for_each; [apply _ | intros ?]
    | apply keeps_read_entries; [apply _ | intros ? ?]
    | apply keeps_read_locations; [apply _ | intros ? ?]
    | apply keeps_try_finally; [apply _ | | ]
    | apply keeps_try_except; [apply _ | | intros ?]
    | match goal with |- keeps _ (match ?x with _ => _ end) => destruct x end ].

#[global] Hint Resolve only_trace_emit grows_emit grows_dict_copy grows_dict_delitem
  grows_state_dict grows_load_state_dict grows_sync_complete grows_sync_write
  grows_sync_read : keeps.
#[global] Hint Extern 1 (_ = true) => reflexivity : keeps.

Lemma same_dict_emit d ev : keeps (same_dict d) (emit ev).
Proof. by intros w items. Qed.

Lemma same_dict_dict_copy d d0 : keeps (same_dict d) (dict_copy d0).
Proof.
  intros w items Hd. simpl. rewrite lookup_insert_ne; [done|].
  intros <-. pose proof (is_fresh (dom (w_dicts w))) as Hf.
  apply not_elem_of_dom in Hf. congruence.
Qed.

Lemma same_dict_dict_delitem d d' key : d' ≠ d → keeps (same_dict d) (dict_delitem d' key).
Proof. intros Hne w items Hd. simpl. by rewrite lookup_alter_ne. Qed.

Lemma same_dict_state_dict d key o : keeps (same_dict d) (state_dict key o).
Proof. intros w items Hd. unfold state_dict, bind, emit. simpl. by destruct (o_kind o). Qed.

Lemma same_dict_load_state_dict d key o sd : keeps (same_dict d) (load_state_dict key o sd).
Proof. intros w items Hd. unfold load_state_dict, bind, emit. simpl. by destruct (o_kind o). Qed.

Lemma same_dict_sync_complete d pending storage env :
  keeps (same_dict d) (sync_complete pending storage env).
Proof.
  intros w items Hd. unfold sync_complete, bind, external.
  by destruct (e_sync_complete env).
Qed.

Lemma same_dict_sync_write d url file b : keeps (same_dict d) (sync_write url file b).
Proof. by intros w items Hd. Qed.

Lemma same_dict_sync_read d url file : keeps (same_dict d) (sync_read url file).
Proof.
  intros w items Hd. unfold sync_read, bind. simpl.
  by destruct (w_storage w !! url ≫= _).
Qed.

#[global] Hint Resolve same_dict_emit same_dict_dict_copy same_dict_dict_delitem
  same_dict_state_dict same_dict_load_state_dict same_dict_sync_complete
  same_dict_sync_write same_dict_sync_read : keeps.

Lemma same_rng_emit ev : keeps same_rng (emit ev).
Proof. by intros w. Qed.

Lemma same_rng_sync_complete pending storage env :
  keeps same_rng (sync_complete pending storage env).
Proof. intros w. unfold sync_complete, bind, external. by destruct (e_sync_complete env). Qed.

Lemma same_rng_sync_write url file b : keeps same_rng (sync_write url file b).
Proof. by intros w. Qed.

Lemma same_rng_sync_read url file : keeps same_rng (sync_read url file).
Proof.
  intros w. unfold sync_read, bind. simpl. by destruct (w_storage w !! url ≫= _).
Qed.

Lemma same_rng_dict_copy d : keeps same_rng (dict_copy d).
Proof. by intros w. Qed.

Lemma same_rng_dict_delitem d key : keeps same_rng (dict_delitem d key).
Proof. by intros w. Qed.

#[global] Hint Resolve same_rng_emit same_rng_sync_complete same_rng_sync_write
  same_rng_sync_read same_rng_dict_copy same_rng_dict_delitem : keeps.

Lemma same_storage_emit ev : keeps same_storage (emit ev).
Proof. by intros w. Qed.

Lemma same_storage_sync_read url file : keeps same_storage (sync_read url file).
Proof.
  intros w. unfold sync_read, bind. simpl. by destruct (w_storage w !! url ≫= _).
Qed.

#[global] Hint Resolve same_storage_emit same_storage_sync_read : keeps.

(** ** [_coalesce_path_and_replicated] *)

Lemma coalesce_only_trace path pg app_state replicated env :
  keeps (only_trace is_coalesce_event)
        (_coalesce_path_and_replicated path pg app_state replicated env).
Proof. unfold _coalesce_path_and_replicated, barrier. keeps_auto. Qed.

Lemma coalesce_path_result path pg app_state replicated env w pc w' :
  _coalesce_path_and_replicated path pg app_state replicated env w = (Ok pc, w') →
  pc.1 = coalesced_path path pg env.
Proof.
  unfold _coalesce_path_and_replicated, coalesced_path, bind, emit, ret, raise, dict_items.
  simpl. intros H. repeat case_match; simplify_eq/=; done.
Qed.

Lemma coalesce_ok path pg app_state replicated env w :
  0 < get_world_size pg →
  ∃ coalesced w',
    _coalesce_path_and_replicated path pg app_state replicated env w =
      (Ok (coalesced_path path pg env, coalesced), w') ∧
    _coalesce_replicated
      (all_gather_object pg (e_replicated env)
         (_infer_replicated replicated (default ∅ (w_dicts w !! app_state)))) = Ok coalesced ∧
    trace_since w w' =
      [EvBroadcast] ++
      (if bool_decide (coalesced_path path pg env ≠ path)
       then [EvWarning "Using path specified by rank 0."] else []) ++
      [EvAllGather] ++
      (if bool_decide (list_to_set (_infer_replicated replicated
                                      (default ∅ (w_dicts w !! app_state))) ≠ coalesced)
       then [EvWarning "replicated paths differ from those verified across all ranks"]
       else []).
Proof.
  intros Hws.
  destruct (coalesce_replicated_spec
              (all_gather_object pg (e_replicated env)
                 (_infer_replicated replicated (default ∅ (w_dicts w !! app_state)))))
    as (coalesced & Hco & _).
  { intros E. apply (f_equal length) in E. rewrite all_gather_object_length in E.
    simpl in E. lia. }
  exists coalesced. unfold _coalesce_path_and_replicated, coalesced_path, trace_since.
  unfold bind at 1. simpl. unfold bind at 1.
  destruct w as [dicts rng states storage trace]. simpl in *.
  case_bool_decide; simpl; unfold bind at 1; simpl; unfold bind at 1; simpl;
    rewrite Hco; unfold bind at 1; case_bool_decide; simpl;
    eexists; (split; [reflexivity|]); (split; [done|]); simpl;
    rewrite <- ?app_assoc; by rewrite drop_app_length.
Qed.

(** ** The events of [_take_impl], of [take_prefix] and of the commit *)

Lemma grows_pop_rng_state p app_state : keeps (grows_by p) (_pop_rng_state app_state).
Proof. unfold _pop_rng_state. keeps_auto. Qed.

Lemma grows_take_loop app_state global_keys flattened :
  keeps (grows_by is_take_impl_event) (take_loop app_state global_keys flattened).
Proof.
  revert flattened. induction global_keys as [|key rest IH]; intros flattened; simpl.
  - keeps_auto.
  - unfold barrier. keeps_auto.
Qed.

Lemma grows_take_impl path app_state replicated pg storage is_async env :
  keeps (grows_by is_take_impl_event)
        (_take_impl path app_state replicated pg storage is_async env).
Proof.
  unfold _take_impl. keeps_auto; try apply grows_take_loop; try apply grows_pop_rng_state.
Qed.

Lemma grows_take_prefix path app_state pg replicated is_async env :
  keeps (grows_by (is_prefix_event (coalesced_path path pg env)))
        (take_prefix path app_state pg replicated is_async env).
Proof.
  unfold take_prefix.
  apply keeps_bind; [apply _|keeps_auto|intros _].
  apply keeps_bind; [apply _|keeps_auto|intros _].
  intros w. unfold bind at 1.
  pose proof (coalesce_only_trace path pg app_state (default [] replicated) env w) as Hc.
  destruct (_coalesce_path_and_replicated _ _ _ _ _ w) as [[pc|e] w1] eqn:E; simpl in *.
  - apply coalesce_path_result in E.
    assert (grows_by (is_prefix_event (coalesced_path path pg env)) w w1) as H1.
    { eapply grows_by_weaken; [|by eapply only_trace_grows].
      intros ev Hev. unfold is_prefix_event. destruct ev; try done. }
    etrans; [exact H1|]. rewrite E.
    assert (keeps (grows_by (is_prefix_event (coalesced_path path pg env)))
              (emit (EvOpenStorage (coalesced_path path pg env)) ;;;
               im <- _take_impl (coalesced_path path pg env) app_state pc.2 pg
                       (coalesced_path path pg env) is_async env ;;
               ret (coalesced_path path pg env, im))) as Hk.
    { apply keeps_bind; [apply _| |intros _].
      { apply grows_emit. simpl. by rewrite bool_decide_true. }
      apply keeps_bind; [apply _| |intros im; keeps_auto].
      eapply keeps_weaken; [|apply grows_take_impl].
      intros ?? H. eapply grows_by_weaken; [|exact H].
      intros ev Hev. unfold is_prefix_event. destruct ev; try done. }
    apply Hk.
  - eapply grows_by_weaken; [|by eapply only_trace_grows].
    intros ev Hev. unfold is_prefix_event. destruct ev; try done.
Qed.

Lemma take_split path app_state pg replicated env w :
  take path app_state pg replicated env w =
  bind (take_prefix path app_state pg replicated false env)
       (λ x, take_commit x.1 pg x.2.1 x.2.2 env) w.
Proof.
  unfold take, take_prefix, take_commit, bind.
  repeat (case_match; simplify_eq/=; try done).
Qed.

Lemma PendingSnapshot_init_run path pending_io_work pg metadata storage w :
  PendingSnapshot_init path pending_io_work pg metadata storage w =
  (Ok (new_handle path pending_io_work pg metadata storage), (emit EvGetOrCreateStore w).2).
Proof. done. Qed.

Lemma async_take_split path app_state pg replicated env w :
  async_take path app_state pg replicated env w =
  bind (take_prefix path app_state pg replicated true env)
       (λ x, PendingSnapshot_init x.1 x.2.1 pg x.2.2 x.1) w.
Proof.
  unfold async_take, take_prefix, bind.
  repeat (case_match; simplify_eq/=; try done).
Qed.

Lemma trace_since_app w w' delta :
  w_trace w' = w_trace w ++ delta → trace_since w w' = delta.
Proof. intros E. unfold trace_since. by rewrite E, drop_app_length. Qed.

Lemma take_commit_run path pg pending metadata env w :
  (take_commit path pg pending metadata env w).1 = take_commit_outcome path pg metadata env ∧
  w_trace (take_commit path pg pending metadata env w).2 =
    w_trace w ++ take_commit_events path pg env ∧
  w_dicts (take_commit path pg pending metadata env w).2 = w_dicts w ∧
  w_rng (take_commit path pg pending metadata env w).2 = w_rng w.
Proof.
  destruct w as [dicts rng states storage trace].
  unfold take_commit, take_commit_outcome, take_commit_events, sync_complete,
    _write_snapshot_metadata, sync_write, barrier, external, bind, emit, ret, raise.
  destruct (e_sync_complete env); simpl; [by rewrite app_nil_r|].
  case_bool_decide; simpl; [|by rewrite <- !app_assoc].
  destruct (e_write_metadata env); simpl; by rewrite <- !app_assoc.
Qed.

Lemma take_prefix_path path app_state pg replicated is_async env w x w1 :
  take_prefix path app_state pg replicated is_async env w = (Ok x, w1) →
  x.1 = coalesced_path path pg env.
Proof.
  unfold take_prefix. unfold bind at 1.
  destruct (_validate_app_state app_state w) as [[[]|e] w0]; [|done].
  unfold bind at 1. simpl. unfold bind at 1.
  destruct (_coalesce_path_and_replicated _ _ _ _ _ _) as [[pc|e] w2] eqn:E; [|done].
  apply coalesce_path_result in E. unfold bind at 1. simpl. unfold bind at 1.
  destruct (_take_impl _ _ _ _ _ _ _ _) as [[im|e] w3]; [|done].
  simpl. intros [= <- <-]. done.
Qed.

(** The trace of [take]: the events of the prefix, then those of the commit
    when the prefix did not raise. *)
Lemma take_trace path app_state pg replicated env w :
  ∃ before,
    Forall (λ ev, is_prefix_event (coalesced_path path pg env) ev = true) before ∧
    trace_since w (take path app_state pg replicated env w).2 =
      before ++
      match (take_prefix path app_state pg replicated false env w).1 with
      | Ok _ => take_commit_events (coalesced_path path pg env) pg env
      | Raise _ => []
      end.
Proof.
  rewrite take_split. unfold bind.
  pose proof (grows_take_prefix path app_state pg replicated false env w) as (before & E & F).
  exists before. split; [done|].
  destruct (take_prefix _ _ _ _ _ _ w) as [[x|e] w1] eqn:Ep; simpl in *.
  - apply take_prefix_path in Ep as ->.
    destruct (take_commit_run (coalesced_path path pg env) pg x.2.1 x.2.2 env w1)
      as (_ & Et & _).
    apply trace_since_app. by rewrite Et, E, app_assoc.
  - rewrite app_nil_r. by apply trace_since_app.
Qed.

Lemma not_prefix_event_sync_write path0 ev :
  is_prefix_event path0 ev = true → is_sync_write ev = false.
Proof. by destruct ev. Qed.

(** Splitting a trace at an event that its first part does not hold. *)
Lemma split_after_prefix {A} (before commit pre post : list A) (x : A) (P : A → Prop) :
  Forall P before → ¬ P x →
  before ++ commit = pre ++ x :: post →
  ∃ pre', pre = before ++ pre' ∧ commit = pre' ++ x :: post.
Proof.
  intros F Hx E. apply app_eq_inv in E as [(k & -> & E)|(k & -> & E)].
  - destruct k as [|y k]; simpl in *.
    + exists []. by rewrite !app_nil_r.
    + simplify_eq. apply Forall_app in F as [_ F]. by inversion F.
  - by exists k.
Qed.

(** * The orchestration protocol *)

(** C3.  In [Snapshot.take] the metadata document is written by rank 0 only,
    under the name [.snapshot_metadata] at the root of the snapshot, and only
    after the pending write requests of the rank have completed
    ([sync_complete] returned) and the barrier has been passed: whenever the
    trace of [take] holds a [sync_write], the rank is 0, the write is the one
    of the metadata document at the coalesced path, [sync_complete] did not
    raise, the two events right before it are the completion of the writes and
    the barrier, and no [sync_write] comes earlier. *)
Theorem C3_metadata_written_by_rank_0_after_barrier
    path app_state pg replicated env w pre url file post :
  trace_since w (take path app_state pg replicated env w).2
    = pre ++ EvSyncWrite url file :: post →
  get_rank pg = 0 ∧
  url = coalesced_path path pg env ∧ file = SNAPSHOT_METADATA_FNAME ∧
  e_sync_complete env = None ∧
  (∃ pre', pre = pre' ++ [EvSyncComplete; EvBarrier]) ∧
  Forall (λ ev, is_sync_write ev = false) pre.
Proof.
  intros E.
  destruct (take_trace path app_state pg replicated env w) as (before & F & Et).
  rewrite Et in E. clear Et.
  assert (Forall (λ ev, is_sync_write ev = false) before) as Fw.
  { eapply Forall_impl; [exact F|]. intros ev. apply not_prefix_event_sync_write. }
  apply (split_after_prefix _ _ _ _ _ _ Fw) in E as (pre' & -> & E); [|done].
  destruct (take_prefix _ _ _ _ _ _ w).1; [|by destruct pre'].
  unfold take_commit_events in E.
  destruct (e_sync_complete env); [by destruct pre'|].
  case_bool_decide as Hr.
  - destruct (e_write_metadata env).
    + do 3 (destruct pre' as [|? pre']; simplify_eq/=).
    + do 3 (destruct pre' as [|? pre']; simplify_eq/=);
        try (do 3 (destruct pre' as [|? pre']; simplify_eq/=)).
      repeat split; try done.
      * by exists before.
      * apply Forall_app. split; [done|]. by repeat constructor.
  - do 5 (destruct pre' as [|? pre']; simplify_eq/=).
Qed.

Lemma C3_witness :
  get_rank Ex.pg0 = 0 ∧
  "/tmp/snap" = coalesced_path "/tmp/snap" Ex.pg0 Ex.env ∧
  ".snapshot_metadata" = SNAPSHOT_METADATA_FNAME ∧
  e_sync_complete Ex.env = None ∧
  (∃ pre',
     [EvNewEventLoop; EvBroadcast; EvAllGather; EvOpenStorage "/tmp/snap";
      EvStateDict "rng"; EvAllGather; EvStateDict "model"; EvBarrier;
      EvStateDict "optim"; EvBarrier; EvBarrier; EvLoadStateDict "rng" 42;
      EvCalculateReplicated; EvPrepareWrite "rng"; EvPrepareWrite "model";
      EvPrepareWrite "optim"; EvPartitionWriteReqs; EvBatchWriteRequests;
      EvGatherManifest; EvMemoryBudget; EvExecuteWriteReqs; EvSyncComplete; EvBarrier]
     = pre' ++ [EvSyncComplete; EvBarrier]) ∧
  Forall (λ ev, is_sync_write ev = false)
    [EvNewEventLoop; EvBroadcast; EvAllGather; EvOpenStorage "/tmp/snap";
     EvStateDict "rng"; EvAllGather; EvStateDict "model"; EvBarrier;
     EvStateDict "optim"; EvBarrier; EvBarrier; EvLoadStateDict "rng" 42;
     EvCalculateReplicated; EvPrepareWrite "rng"; EvPrepareWrite "model";
     EvPrepareWrite "optim"; EvPartitionWriteReqs; EvBatchWriteRequests;
     EvGatherManifest; EvMemoryBudget; EvExecuteWriteReqs; EvSyncComplete; EvBarrier].
Proof.
  apply (C3_metadata_written_by_rank_0_after_barrier
           "/tmp/snap" 5 Ex.pg0 None Ex.env Ex.world0 _ "/tmp/snap" ".snapshot_metadata"
           [EvSyncClose "/tmp/snap"; EvLoopClose]).
  vm_compute. reflexivity.
Defined.

Lemma async_take_trace path app_state pg replicated env w :
  Forall (λ ev, is_prefix_event (coalesced_path path pg env) ev = true)
         (trace_since w (async_take path app_state pg replicated env w).2).
Proof.
  rewrite async_take_split. unfold bind.
  pose proof (grows_take_prefix path app_state pg replicated true env w) as (before & E & F).
  destruct (take_prefix _ _ _ _ _ _ w) as [[x|e] w1]; simpl in *.
  - rewrite (trace_since_app _ _ (before ++ [EvGetOrCreateStore])).
    + apply Forall_app. split; [done|by repeat constructor].
    + by rewrite E, app_assoc.
  - by rewrite (trace_since_app _ _ _ E).
Qed.

(** C6.  Whatever destination paths the ranks pass to [take] or
    [async_take], every rank uses the path of rank 0: it is the result of the
    coalescing step, the only URL a storage plugin is opened at, the path of
    the [Snapshot] that [take] returns and the path and storage of the handle
    that [async_take] returns.  A rank whose path differs logs a warning, and
    the coalescing step does not raise. *)
Theorem C6_rank_0_path_wins path app_state pg replicated env w :
  0 < get_world_size pg →
  let path0 := if bool_decide (get_rank pg = 0) then path else e_paths env 0 in
  (∃ coalesced w',
     _coalesce_path_and_replicated path pg app_state (default [] replicated) env w
       = (Ok (path0, coalesced), w') ∧
     (EvWarning "Using path specified by rank 0." ∈ trace_since w w' ↔ path0 ≠ path)) ∧
  (∀ url, EvOpenStorage url ∈ trace_since w (take path app_state pg replicated env w).2 →
          url = path0) ∧
  (∀ s w', take path app_state pg replicated env w = (Ok s, w') → s_path s = path0) ∧
  (∀ url, EvOpenStorage url ∈ trace_since w (async_take path app_state pg replicated env w).2 →
          url = path0) ∧
  (∀ ps w', async_take path app_state pg replicated env w = (Ok ps, w') →
            ps_path ps = path0 ∧
            ∃ kw, ps_thread ps = Some kw ∧ t_path kw = path0 ∧ t_storage kw = path0).
Proof.
  intros Hws path0.
  assert (path0 = coalesced_path path pg env) as -> by done.
  split; [|split; [|split; [|split]]].
  - destruct (coalesce_ok path pg app_state (default [] replicated) env w Hws)
      as (coalesced & w' & E & _ & Et).
    exists coalesced, w'. split; [done|]. rewrite Et.
    case_bool_decide as Hp; case_bool_decide as Hq; split; intros Hin; try done;
      repeat (apply elem_of_cons in Hin as [Hin|Hin]; [by simplify_eq|]);
      try (by apply elem_of_nil in Hin); set_solver.
  - intros url Hin.
    destruct (take_trace path app_state pg replicated env w) as (before & F & Et).
    rewrite Et in Hin. apply elem_of_app in Hin as [Hin|Hin].
    + rewrite Forall_forall in F. specialize (F _ Hin). simpl in F.
      by apply bool_decide_eq_true in F.
    + destruct (take_prefix _ _ _ _ _ _ w).1; [|by apply elem_of_nil in Hin].
      unfold take_commit_events in Hin.
      destruct (e_sync_complete env); [by apply elem_of_nil in Hin|].
      case_bool_decide; [destruct (e_write_metadata env)|];
        repeat (apply elem_of_cons in Hin as [Hin|Hin]; [by simplify_eq|]);
        by apply elem_of_nil in Hin.
  - intros s w'. rewrite take_split. unfold bind.
    destruct (take_prefix _ _ _ _ _ _ w) as [[x|e] w1] eqn:Ep; [|done].
    apply take_prefix_path in Ep. intros E.
    destruct (take_commit_run x.1 pg x.2.1 x.2.2 env w1) as (Eo & _).
    rewrite E in Eo. simpl in Eo. unfold take_commit_outcome in Eo.
    repeat case_match; simplify_eq/=; done.
  - intros url Hin. pose proof (async_take_trace path app_state pg replicated env w) as F.
    rewrite Forall_forall in F. specialize (F _ Hin). simpl in F.
    by apply bool_decide_eq_true in F.
  - intros ps w'. rewrite async_take_split. unfold bind.
    destruct (take_prefix _ _ _ _ _ _ w) as [[x|e] w1] eqn:Ep; [|done].
    apply take_prefix_path in Ep. simpl. intros [= <- <-]. simpl.
    split; [done|]. eexists. split; [done|]. done.
Qed.

Lemma C6_witness :
  let path0 := if bool_decide (get_rank Ex.pg1 = 0) then "/tmp/other" else e_paths Ex.env 0 in
  (∃ coalesced w',
     _coalesce_path_and_replicated "/tmp/other" Ex.pg1 5 (default [] None) Ex.env Ex.world0
       = (Ok (path0, coalesced), w') ∧
     (EvWarning "Using path specified by rank 0." ∈ trace_since Ex.world0 w' ↔
      path0 ≠ "/tmp/other")) ∧
  (∀ url, EvOpenStorage url
            ∈ trace_since Ex.world0 (take "/tmp/other" 5 Ex.pg1 None Ex.env Ex.world0).2 →
          url = path0) ∧
  (∀ s w', take "/tmp/other" 5 Ex.pg1 None Ex.env Ex.world0 = (Ok s, w') → s_path s = path0) ∧
  (∀ url, EvOpenStorage url
            ∈ trace_since Ex.world0 (async_take "/tmp/other" 5 Ex.pg1 None Ex.env Ex.world0).2 →
          url = path0) ∧
  (∀ ps w', async_take "/tmp/other" 5 Ex.pg1 None Ex.env Ex.world0 = (Ok ps, w') →
            ps_path ps = path0 ∧
            ∃ kw, ps_thread ps = Some kw ∧ t_path kw = path0 ∧ t_storage kw = path0).
Proof.
  apply (C6_rank_0_path_wins "/tmp/other" 5 Ex.pg1 None Ex.env Ex.world0).
  simpl. lia.
Defined.

(** ** More than one [RNGState] *)

Lemma take_impl_many_rng path app_state replicated pg storage is_async env w items :
  w_dicts w !! app_state = Some items → 1 < size (rng_state_items items) →
  _take_impl path app_state replicated pg storage is_async env w =
  (Raise (Exn "RuntimeError" "Multiple RNGState objects in app state"),
   set_dicts (insert (fresh (dom (w_dicts w))) items) w).
Proof.
  intros Hl Hsz. unfold _take_impl.
  erewrite bind_ok by reflexivity. rewrite Hl. simpl.
  erewrite bind_raise; [done|].
  apply (pop_rng_state_many _ _ items); [|done]. simpl. apply lookup_insert_eq.
Qed.

Lemma take_prefix_many_rng path app_state pg replicated is_async env w items :
  w_dicts w !! app_state = Some items → 0 < get_world_size pg →
  all_Stateful items = true → 1 < size (rng_state_items items) →
  ∃ w', take_prefix path app_state pg replicated is_async env w =
          (Raise (Exn "RuntimeError" "Multiple RNGState objects in app state"), w') ∧
        Forall (λ ev, is_storage_io ev = false) (trace_since w w').
Proof.
  intros Hl Hws Hall Hsz. unfold take_prefix.
  erewrite bind_ok by (by eapply validate_app_state_ok).
  erewrite bind_ok by reflexivity.
  set (w0 := (emit EvNewEventLoop w).2).
  destruct (coalesce_ok path pg app_state (default [] replicated) env w0 Hws)
    as (coalesced & w1 & E & _ & _).
  pose proof (coalesce_only_trace path pg app_state (default [] replicated) env w0) as Hc.
  rewrite E in Hc. simpl in Hc. destruct Hc as (delta & Hw1 & F). subst w1.
  erewrite bind_ok by exact E. simpl.
  erewrite bind_ok by reflexivity.
  erewrite bind_raise; cycle 1.
  { apply (take_impl_many_rng _ _ _ _ _ _ _ _ items); [|done]. done. }
  eexists. split; [done|]. simpl.
  rewrite <- !app_assoc. unfold trace_since. simpl. rewrite drop_app_length.
  constructor; [done|]. apply Forall_app. split; [|by repeat constructor].
  eapply Forall_impl; [exact F|]. by intros [].
Qed.

(** C7.  [take], [async_take] and [restore] raise before any read or write
    of the storage back end when a value of [app_state] is not Stateful (a
    [TypeError], raised before anything else happens) or when [app_state]
    holds more than one [RNGState] (a [RuntimeError], raised after the
    collectives of the coalescing step and the opening of the storage plugin,
    none of which reads or writes).  When every value is Stateful and at most
    one is an [RNGState], neither check raises. *)
Theorem C7_validation_errors_before_io path app_state pg replicated env self w items :
  w_dicts w !! app_state = Some items →
  0 < get_world_size pg →
  (all_Stateful items = false →
     (∃ msg, take path app_state pg replicated env w = (Raise (Exn "TypeError" msg), w)) ∧
     (∃ msg, async_take path app_state pg replicated env w = (Raise (Exn "TypeError" msg), w)) ∧
     (∃ msg, restore self app_state env w = (Raise (Exn "TypeError" msg), w))) ∧
  (all_Stateful items = true → 1 < size (rng_state_items items) →
     let many := Exn "RuntimeError" "Multiple RNGState objects in app state" in
     (∃ w', take path app_state pg replicated env w = (Raise many, w') ∧
            Forall (λ ev, is_storage_io ev = false) (trace_since w w')) ∧
     (∃ w', async_take path app_state pg replicated env w = (Raise many, w') ∧
            Forall (λ ev, is_storage_io ev = false) (trace_since w w')) ∧
     (∃ w', restore self app_state env w = (Raise many, w') ∧
            Forall (λ ev, is_storage_io ev = false) (trace_since w w'))) ∧
  (all_Stateful items = true → size (rng_state_items items) ≤ 1 →
     _validate_app_state app_state w = (Ok tt, w) ∧
     ∃ w', _pop_rng_state app_state w = (Ok (popped_item items), w')).
Proof.
  intros Hl Hws. split; [|split].
  - intros Hbad.
    destruct (validate_app_state_raise _ _ _ Hl Hbad) as (msg & E).
    assert (∀ is_async, take_prefix path app_state pg replicated is_async env w =
                        (Raise (Exn "TypeError" msg), w)) as Ep.
    { intros is_async. unfold take_prefix. by erewrite bind_raise by exact E. }
    repeat split; exists msg.
    + rewrite take_split. by erewrite bind_raise by apply Ep.
    + rewrite async_take_split. by erewrite bind_raise by apply Ep.
    + unfold restore. by erewrite bind_raise by exact E.
  - intros Hall Hsz many. repeat split.
    + destruct (take_prefix_many_rng path app_state pg replicated false env w items)
        as (w' & E & F); try done.
      exists w'. rewrite take_split. by erewrite bind_raise by exact E.
    + destruct (take_prefix_many_rng path app_state pg replicated true env w items)
        as (w' & E & F); try done.
      exists w'. rewrite async_take_split. by erewrite bind_raise by exact E.
    + unfold restore.
      erewrite bind_ok by (by eapply validate_app_state_ok).
      do 3 erewrite bind_ok by reflexivity. simpl. rewrite Hl. simpl.
      erewrite bind_raise; cycle 1.
      { apply (pop_rng_state_many _ _ items); [|done]. simpl. apply lookup_insert_eq. }
      eexists. split; [done|]. unfold trace_since. simpl.
      rewrite <- !app_assoc, drop_app_length. by repeat constructor.
  - intros Hall Hsz. split; [by eapply validate_app_state_ok|].
    eexists. by apply pop_rng_state_ok.
Qed.

Lemma C7_witness :
  (∃ msg, take "/tmp/snap" 5 Ex.pg0 None Ex.env Ex.world_bad
          = (Raise (Exn "TypeError" msg), Ex.world_bad)) ∧
  (∃ w', restore {| s_path := "/tmp/snap"; s_pg := Ex.pg0; s_metadata := None |} 5 Ex.env
           Ex.world_2rng
         = (Raise (Exn "RuntimeError" "Multiple RNGState objects in app state"), w') ∧
         Forall (λ ev, is_storage_io ev = false) (trace_since Ex.world_2rng w')) ∧
  _validate_app_state 5 Ex.world0 = (Ok tt, Ex.world0).
Proof.
  split; [|split].
  - destruct (C7_validation_errors_before_io "/tmp/snap" 5 Ex.pg0 None Ex.env
                {| s_path := "/tmp/snap"; s_pg := Ex.pg0; s_metadata := None |}
                Ex.world_bad Ex.app_state_bad) as (H & _ & _).
    + reflexivity.
    + simpl. lia.
    + apply H. vm_compute. reflexivity.
  - destruct (C7_validation_errors_before_io "/tmp/snap" 5 Ex.pg0 None Ex.env
                {| s_path := "/tmp/snap"; s_pg := Ex.pg0; s_metadata := None |}
                Ex.world_2rng Ex.app_state_2rng) as (_ & H & _).
    + reflexivity.
    + simpl. lia.
    + apply H; vm_compute; [reflexivity|lia].
  - destruct (C7_validation_errors_before_io "/tmp/snap" 5 Ex.pg0 None Ex.env
                {| s_path := "/tmp/snap"; s_pg := Ex.pg0; s_metadata := None |}
                Ex.world0 Ex.app_state) as (_ & _ & H).
    + reflexivity.
    + simpl. lia.
    + apply H; vm_compute; [reflexivity|lia].
Defined.

(** ** The dictionary of the caller *)

Lemma same_dict_after_copy d d0 {B} (k : nat → M B) :
  (∀ d', d' ≠ d → keeps (same_dict d) (k d')) →
  keeps (same_dict d) (bind (dict_copy d0) k).
Proof.
  intros Hk w items Hd. unfold bind. simpl.
  assert (fresh (dom (w_dicts w)) ≠ d) as Hne.
  { intros <-. pose proof (is_fresh (dom (w_dicts w))) as Hf.
    apply not_elem_of_dom in Hf. congruence. }
  apply (Hk _ Hne). simpl. by rewrite lookup_insert_ne.
Qed.

Lemma same_dict_pop_rng_state d d' : d' ≠ d → keeps (same_dict d) (_pop_rng_state d').
Proof. intros Hne. unfold _pop_rng_state. keeps_auto. Qed.

Lemma same_dict_take_loop d d' global_keys flattened :
  keeps (same_dict d) (take_loop d' global_keys flattened).
Proof.
  revert flattened. induction global_keys as [|key rest IH]; intros flattened; simpl.
  - keeps_auto.
  - unfold barrier. keeps_auto.
Qed.

Lemma same_dict_take_impl d path replicated pg storage is_async env :
  keeps (same_dict d) (_take_impl path d replicated pg storage is_async env).
Proof.
  unfold _take_impl. apply same_dict_after_copy. intros d' Hne.
  apply keeps_bind; [apply _|by apply same_dict_pop_rng_state|intros item].
  keeps_auto; apply same_dict_take_loop.
Qed.

Lemma same_dict_coalesce d path pg app_state replicated env :
  keeps (same_dict d) (_coalesce_path_and_replicated path pg app_state replicated env).
Proof.
  eapply keeps_weaken; [|apply coalesce_only_trace].
  intros ??. apply only_trace_same_dict.
Qed.

Lemma same_dict_take_prefix d path pg replicated is_async env :
  keeps (same_dict d) (take_prefix path d pg replicated is_async env).
Proof.
  unfold take_prefix.
  apply keeps_bind; [apply _|keeps_auto|intros _].
  apply keeps_bind; [apply _|keeps_auto|intros _].
  apply keeps_bind; [apply _|apply same_dict_coalesce|intros pc].
  apply keeps_bind; [apply _|keeps_auto|intros _].
  apply keeps_bind; [apply _|apply same_dict_take_impl|intros im].
  keeps_auto.
Qed.

Lemma same_dict_metadata d self : keeps (same_dict d) (metadata self).
Proof. unfold metadata, _read_snapshot_metadata. keeps_auto. Qed.

Lemma same_dict_load_stateful d self key stateful storage pg env :
  keeps (same_dict d) (_load_stateful self key stateful storage pg env).
Proof.
  unfold _load_stateful. destruct stateful; [|keeps_auto].
  apply keeps_bind; [apply _|apply same_dict_metadata|intros ms].
  keeps_auto.
Qed.

Lemma same_dict_restore_loop d d' global_keys storage pg env : ∀ self,
  keeps (same_dict d) (restore_loop self d' global_keys storage pg env).
Proof.
  induction global_keys as [|key rest IH]; intros self; simpl; [keeps_auto|].
  apply keeps_bind; [apply _|keeps_auto|intros items].
  apply keeps_bind; [apply _|apply same_dict_load_stateful|intros self'].
  unfold barrier. keeps_auto.
Qed.

Lemma same_dict_restore d self env : keeps (same_dict d) (restore self d env).
Proof.
  unfold restore.
  apply keeps_bind; [apply _|keeps_auto|intros _].
  apply keeps_bind; [apply _|keeps_auto|intros _].
  apply keeps_bind; [apply _|keeps_auto|intros _].
  apply same_dict_after_copy. intros d' Hne.
  apply keeps_bind; [apply _|by apply same_dict_pop_rng_state|intros item].
  apply keeps_bind; [apply _|keeps_auto|intros items].
  apply keeps_bind; [apply _|keeps_auto|intros _].
  apply keeps_bind; [apply _|apply same_dict_restore_loop|intros self'].
  apply keeps_bind; [apply _| |intros self''; keeps_auto].
  destruct item as [[key stateful]|]; [apply same_dict_load_stateful|keeps_auto].
Qed.

(** [_pop_rng_state] does change the dictionary it is given: applied to the
    dictionary of the caller itself it would remove the key. *)
Example pop_rng_state_mutates :
  w_dicts (_pop_rng_state 5 Ex.world0).2 !! 5 = Some (delete "rng" Ex.app_state).
Proof. vm_compute. reflexivity. Qed.

(** C10.  [take], [async_take] and [restore] leave the dictionary of the
    caller as it is, whether they return or raise: they work on a copy, a new
    dictionary object, and [_pop_rng_state] removes the [RNGState] item from
    that copy only. *)
Theorem C10_app_state_of_caller_unchanged path app_state pg replicated env self w items :
  w_dicts w !! app_state = Some items →
  w_dicts (take path app_state pg replicated env w).2 !! app_state = Some items ∧
  w_dicts (async_take path app_state pg replicated env w).2 !! app_state = Some items ∧
  w_dicts (restore self app_state env w).2 !! app_state = Some items ∧
  (all_Stateful items = true → size (rng_state_items items) ≤ 1 →
   ∀ w1, w_dicts w1 = w_dicts w →
     w_dicts (_take_impl path app_state ∅ pg path false env w1).2
       !! fresh (dom (w_dicts w)) = Some (popped_items items)).
Proof.
  intros Hl. repeat split.
  - rewrite take_split. unfold bind.
    pose proof (same_dict_take_prefix app_state path pg replicated false env w _ Hl) as H.
    destruct (take_prefix _ _ _ _ _ _ w) as [[x|e] w1]; simpl in *; [|done].
    destruct (take_commit_run x.1 pg x.2.1 x.2.2 env w1) as (_ & _ & Ed & _).
    by rewrite Ed.
  - rewrite async_take_split. unfold bind.
    pose proof (same_dict_take_prefix app_state path pg replicated true env w _ Hl) as H.
    by destruct (take_prefix _ _ _ _ _ _ w) as [[x|e] w1].
  - by apply same_dict_restore.
  - intros Hall Hsz w1 Hw1. rewrite <- Hw1 in Hl.
    rewrite (take_impl_run _ _ _ _ _ _ _ _ items) by done. simpl.
    rewrite Hw1. apply lookup_insert_eq.
Qed.

Lemma C10_witness :
  w_dicts (take "/tmp/snap" 5 Ex.pg0 None Ex.env Ex.world0).2 !! 5 = Some Ex.app_state ∧
  w_dicts (async_take "/tmp/snap" 5 Ex.pg0 None Ex.env Ex.world0).2 !! 5 = Some Ex.app_state ∧
  w_dicts (restore {| s_path := "/tmp/snap"; s_pg := Ex.pg0; s_metadata := None |} 5 Ex.env
             Ex.world0).2 !! 5 = Some Ex.app_state ∧
  w_dicts (_take_impl "/tmp/snap" 5 ∅ Ex.pg0 "/tmp/snap" false Ex.env Ex.world0).2
    !! fresh (dom (w_dicts Ex.world0)) = Some (popped_items Ex.app_state).
Proof.
  destruct (C10_app_state_of_caller_unchanged "/tmp/snap" 5 Ex.pg0 None Ex.env
              {| s_path := "/tmp/snap"; s_pg := Ex.pg0; s_metadata := None |}
              Ex.world0 Ex.app_state) as (H1 & H2 & H3 & H4).
  - reflexivity.
  - split; [exact H1|split; [exact H2|split; [exact H3|]]].
    apply H4; [vm_compute; reflexivity|vm_compute; lia|reflexivity].
Defined.

(** ** The background commit *)

Lemma complete_snapshot_run self kw env w :
  ∃ w',
    _complete_snapshot self kw env w =
      (Ok (set_done (match commit_failure (t_rank kw) env with
                     | Some msg => set_exc_info (Exn "Exception" msg) self
                     | None => self
                     end)), w') ∧
    trace_since w w' =
      commit_steps (t_rank kw) (t_storage kw) env ++
      match commit_failure (t_rank kw) env with
      | Some msg =>
          [EvReportError msg;
           EvWarning "Encountered exception while taking snapshot asynchronously"]
      | None => []
      end ++
      [EvSyncClose (t_storage kw); EvLoopClose].
Proof.
  destruct w as [dicts rng states storage trace].
  unfold _complete_snapshot, commit_failure, commit_steps, try_finally, try_except,
    sync_complete, arrive, depart, report_error, _write_snapshot_metadata, sync_write,
    external, trace_since.
  destruct (e_sync_complete env) as [m1|]; simpl.
  { eexists. split; [reflexivity|]. simpl. by rewrite <- !app_assoc, drop_app_length. }
  destruct (e_arrive env) as [m2|]; simpl.
  { eexists. split; [reflexivity|]. simpl. by rewrite <- !app_assoc, drop_app_length. }
  case_bool_decide as Hr; simpl.
  - destruct (e_write_metadata env) as [m3|]; simpl.
    { eexists. split; [reflexivity|]. simpl. by rewrite <- !app_assoc, drop_app_length. }
    destruct (e_depart env) as [m4|]; simpl;
      (eexists; split; [reflexivity|]; simpl; by rewrite <- !app_assoc, drop_app_length).
  - destruct (e_depart env) as [m4|]; simpl;
      (eexists; split; [reflexivity|]; simpl; by rewrite <- !app_assoc, drop_app_length).
Qed.

Lemma report_error_not_in_steps rank storage env msg :
  EvReportError msg ∉ commit_steps rank storage env.
Proof.
  unfold commit_steps. intros Hin.
  destruct (e_sync_complete env); [by apply elem_of_nil in Hin|].
  apply elem_of_cons in Hin as [?|Hin]; [done|].
  destruct (e_arrive env); [by apply elem_of_nil in Hin|].
  apply elem_of_cons in Hin as [?|Hin]; [done|].
  case_bool_decide; [destruct (e_write_metadata env)|]; destruct (e_depart env);
    repeat (apply elem_of_cons in Hin as [?|Hin]; [done|]); by apply elem_of_nil in Hin.
Qed.

(** C5.  For the handle [self] that [async_take] returns: the thread always
    runs to its end and sets [_done].  If a step of the commit raises (the
    completion of the writes, the arrival at the barrier, the write of the
    metadata document by rank 0, the departure), [report_error] is called with
    the message of the exception, the exception is kept on the handle, and
    [wait] raises a [RuntimeError] that carries it.  If no step raises,
    [wait] returns a [Snapshot] for the coalesced path.  [done] reads a field:
    it is [False] on the new handle and [True] once the thread has run. *)
Theorem C5_async_commit_errors_reach_wait
    path app_state pg replicated env0 w0 self w env :
  async_take path app_state pg replicated env0 w0 = (Ok self, w) →
  done_ self = false ∧
  ps_path self = coalesced_path path pg env0 ∧
  ∃ kw self' w',
    ps_thread self = Some kw ∧ t_rank kw = get_rank pg ∧
    thread_join self env w = (Ok self', w') ∧
    done_ self' = true ∧
    match commit_failure (get_rank pg) env with
    | Some msg =>
        let e := Exn "Exception" msg in
        EvReportError msg ∈ trace_since w w' ∧
        ps_exc_info self' = Some e ∧
        wait self env w = (Raise (wait_error e), w') ∧
        wait self' env w' = (Raise (wait_error e), w')
    | None =>
        (∀ msg, EvReportError msg ∉ trace_since w w') ∧
        ps_exc_info self' = None ∧
        wait self env w =
          (Ok ({| s_path := coalesced_path path pg env0; s_pg := pg; s_metadata := None |},
               self'), w')
    end.
Proof.
  rewrite async_take_split. unfold bind.
  destruct (take_prefix _ _ _ _ _ _ w0) as [[x|e] w1] eqn:Ep; [|done].
  apply take_prefix_path in Ep. rewrite PendingSnapshot_init_run. intros [= <- <-]. rewrite Ep.
  split; [done|]. split; [done|].
  set (self := new_handle _ _ _ _ _).
  set (w2 := (emit EvGetOrCreateStore w1).2).
  set (kw := {| t_path := coalesced_path path pg env0; t_rank := get_rank pg;
                t_world_size := get_world_size pg; t_pending_io_work := x.2.1;
                t_metadata := x.2.2; t_storage := coalesced_path path pg env0 |}).
  destruct (complete_snapshot_run self kw env w2) as (w' & Ec & Et).
  eexists kw, _, w'. split; [done|]. split; [done|].
  assert (thread_join self env w2 = (Ok (set_joined (set_done
            (match commit_failure (get_rank pg) env with
             | Some msg => set_exc_info (Exn "Exception" msg) self
             | None => self
             end))), w')) as Ej.
  { unfold thread_join. simpl. fold kw. by erewrite bind_ok by exact Ec. }
  split; [exact Ej|]. split; [done|].
  unfold w2 in *. simpl in Et. destruct (commit_failure (get_rank pg) env) as [msg|] eqn:Ef.
  - repeat split.
    + rewrite Et. apply elem_of_app. right. by left.
    + unfold wait. by erewrite bind_ok by exact Ej.
  - repeat split.
    + intros msg. rewrite Et. intros [Hin|Hin]%elem_of_app.
      * by apply report_error_not_in_steps in Hin.
      * repeat (apply elem_of_cons in Hin as [?|Hin]; [done|]). by apply elem_of_nil in Hin.
    + unfold wait. by erewrite bind_ok by exact Ej.
Qed.

Lemma C5_witness :
  ∃ self w,
    async_take "/tmp/other" 5 Ex.pg0 None Ex.env Ex.world0 = (Ok self, w) ∧
    done_ self = false ∧
    ps_path self = coalesced_path "/tmp/other" Ex.pg0 Ex.env ∧
    ∃ kw self' w',
      ps_thread self = Some kw ∧ t_rank kw = get_rank Ex.pg0 ∧
      thread_join self Ex.env_metadata_fails w = (Ok self', w') ∧
      done_ self' = true ∧
      match commit_failure (get_rank Ex.pg0) Ex.env_metadata_fails with
      | Some msg =>
          let e := Exn "Exception" msg in
          EvReportError msg ∈ trace_since w w' ∧
          ps_exc_info self' = Some e ∧
          wait self Ex.env_metadata_fails w = (Raise (wait_error e), w') ∧
          wait self' Ex.env_metadata_fails w' = (Raise (wait_error e), w')
      | None =>
          (∀ msg, EvReportError msg ∉ trace_since w w') ∧
          ps_exc_info self' = None ∧
          wait self Ex.env_metadata_fails w =
            (Ok ({| s_path := coalesced_path "/tmp/other" Ex.pg0 Ex.env; s_pg := Ex.pg0;
                    s_metadata := None |}, self'), w')
      end.
Proof.
  eexists _, _. split; [vm_compute; reflexivity|].
  apply (C5_async_commit_errors_reach_wait "/tmp/other" 5 Ex.pg0 None Ex.env Ex.world0).
  vm_compute. reflexivity.
Defined.

(** ** Reading one object *)

Lemma metadata_result self w md self1 w1 :
  metadata self w = (Ok (md, self1), w1) →
  s_path self1 = s_path self ∧ s_pg self1 = s_pg self ∧ s_metadata self1 = Some md ∧
  (∀ m, s_metadata self = Some m → self1 = self ∧ w1 = w) ∧
  (∀ w2, metadata self1 w2 = (Ok (md, self1), w2)).
Proof.
  unfold metadata. destruct (s_metadata self) as [m|] eqn:Em.
  - intros [= <- <- <-]. repeat split; try done.
    intros w2. by rewrite Em.
  - unfold bind at 1. simpl. unfold bind at 1. simpl. unfold bind at 1.
    destruct (_read_snapshot_metadata _ _) as [[m|e] w2]; [|done].
    unfold bind, emit, ret. simpl. intros [= <- <- <-]. simpl. done.
Qed.

Lemma same_storage_metadata self : keeps same_storage (metadata self).
Proof. unfold metadata, _read_snapshot_metadata. keeps_auto. Qed.

Lemma read_locations_raises storage locations w e w' :
  read_locations storage locations w = (Raise e, w') →
  exn_class e = "FileNotFoundError" ∨ exn_class e = "UnpicklingError".
Proof.
  revert w. induction locations as [|l ls IH]; intros w; simpl; [done|].
  unfold bind at 1. unfold sync_read, bind at 1.
  destruct (w_storage w !! storage ≫= _) as [b|]; simpl; [|intros [= <- <-]; by left].
  destruct b as [v|m]; [|intros [= <- <-]; by right].
  unfold bind at 1. destruct (read_locations storage ls _) as [[vs|e'] w2] eqn:E; [done|].
  intros [= <- <-]. eauto.
Qed.

(** A path without a slash or with a rank that is not an integer raises a
    [ValueError] before the manifest is consulted. *)
Lemma read_object_malformed gm self path obj_out budget env w :
  (split_once path = None ∨
   ∃ rank_str unranked, split_once path = Some (rank_str, unranked) ∧ int rank_str = None) →
  ∃ msg, read_object gm self path obj_out budget env w = (Raise (Exn "ValueError" msg), w).
Proof.
  unfold read_object. intros [->|(rs & u & -> & ->)]; eauto.
Qed.

#[local] Arguments read_locations : simpl never.

Lemma avoids_ret e0 {A} (a : A) : avoids e0 (ret a).
Proof. by intros w e w'. Qed.

Lemma avoids_emit e0 ev : avoids e0 (emit ev).
Proof. by intros w e w'. Qed.

Lemma avoids_raise e0 {A} e : e ≠ e0 → avoids e0 (@raise A e).
Proof. intros Hne w e' w' [= <- <-]. done. Qed.

Lemma avoids_bind e0 {A B} (m : M A) (k : A → M B) :
  avoids e0 m → (∀ a, avoids e0 (k a)) → avoids e0 (bind m k).
Proof.
  intros Hm Hk w e w'. unfold bind.
  destruct (m w) as [[a|e1] w1] eqn:E.
  - apply Hk.
  - intros [= <- <-]. by eapply Hm.
Qed.

Lemma avoids_external e0 o : exn_class e0 ≠ "Exception" → avoids e0 (external o).
Proof.
  intros Hc. destruct o; [|apply avoids_ret]. apply avoids_raise. by intros <-.
Qed.

Lemma avoids_read_locations e0 storage locations :
  exn_class e0 = "RuntimeError" → avoids e0 (read_locations storage locations).
Proof.
  intros Hc w e w' E <-. apply read_locations_raises in E. rewrite Hc in E.
  by destruct E.
Qed.

(** C8, as amended.  For a path [<rank>/<unranked>] whose rank is accepted by
    [int] and a snapshot whose metadata is at hand or can be read,
    [read_object] raises its manifest lookup error exactly when the unranked
    path is absent from both the manifest projected to the rank and the merged
    sharded tensor entries.  That failure opens no storage and changes
    nothing: the storage holds what it held, the snapshot object has its path
    and process group, and reading its metadata again gives the same document.
    When the path resolves to a [PrimitiveEntry], its value is returned and no
    read request is prepared or executed. *)
Theorem C8_read_object_lookup
    gm self path obj_out budget env w rank_str unranked rank md self1 w1 :
  split_once path = Some (rank_str, unranked) →
  int rank_str = Some rank →
  metadata self w = (Ok (md, self1), w1) →
  let manifest := (gm md rank).1 in
  let merged_sd_entries := (gm md rank).2 in
  let r := read_object gm self path obj_out budget env w in
  (r.1 = Raise (lookup_error path) ↔
     merged_sd_entries !! unranked = None ∧ manifest !! unranked = None) ∧
  (r.1 = Raise (lookup_error path) →
     r.2 = w1 ∧ w_storage r.2 = w_storage w ∧
     s_path self1 = s_path self ∧ s_pg self1 = s_pg self ∧
     metadata self1 r.2 = (Ok (md, self1), r.2)) ∧
  (∀ v repl,
     from_option Some (manifest !! unranked) (merged_sd_entries !! unranked)
       = Some (PrimitiveEntry v repl) →
     r.1 = Ok (ReadPrimitive v, self1) ∧
     Forall (λ ev, is_read_request ev = false) (trace_since w1 r.2)).
Proof.
  intros Hsplit Hint Hmd manifest merged r.
  pose proof (metadata_result _ _ _ _ _ Hmd) as (Hp & Hpg & _ & _ & Hagain).
  pose proof (same_storage_metadata self w) as Hst. rewrite Hmd in Hst. simpl in Hst.
  subst r. unfold read_object. rewrite Hsplit, Hint.
  erewrite bind_ok by exact Hmd. simpl. fold manifest merged.
  case_bool_decide as Habs.
  - simpl. split; [done|]. split; [done|].
    intros v repl. destruct Habs as [-> ->]. done.
  - set (warn := if from_option is_Tensor false obj_out then ret tt
                 else emit (EvWarning "obj_out does not support in-place load")).
    assert (∃ delta, warn w1 = (Ok tt, World (w_dicts w1) (w_rng w1) (w_states w1)
                                        (w_storage w1) (w_trace w1 ++ delta)) ∧
                     Forall (λ ev, is_read_request ev = false) delta) as (delta & Ew & Fd).
    { unfold warn. destruct (from_option is_Tensor false obj_out).
      - exists []. rewrite app_nil_r. by destruct w1.
      - exists [EvWarning "obj_out does not support in-place load"].
        split; [done|]. by repeat constructor. }
    erewrite bind_ok by exact Ew.
    erewrite bind_ok by reflexivity. simpl.
    erewrite bind_ok by reflexivity. simpl.
    destruct (from_option Some (manifest !! unranked) (merged !! unranked))
      as [entry|] eqn:Ee.
    + assert (∀ entry w2 (r : result (read_result * Snapshot) * world),
                match entry with
                | PrimitiveEntry v _ => ret (ReadPrimitive v, self1)
                | _ =>
                    emit (EvPrepareRead unranked) ;;;
                    (if e_batching_disabled env then ret tt else emit EvBatchReadRequests) ;;;
                    external (e_execute_reads env) ;;;
                    parts <- read_locations (s_path self1) (entry_locations entry) ;;
                    emit EvExecuteReadReqs ;;;
                    emit (EvSyncClose (s_path self1)) ;;;
                    emit EvLoopClose ;;;
                    ret (ReadLoaded parts, self1)
                end w2 = r → r.1 ≠ Raise (lookup_error path)) as Hav.
      { intros entry0 w2 r Er Hr. destruct r as [[x|e] w3]; simpl in Hr; [done|].
        simplify_eq.
        assert (avoids (lookup_error path)
                  (emit (EvPrepareRead unranked) ;;;
                   (if e_batching_disabled env then ret tt else emit EvBatchReadRequests) ;;;
                   external (e_execute_reads env) ;;;
                   parts <- read_locations (s_path self1) (entry_locations entry0) ;;
                   emit EvExecuteReadReqs ;;;
                   emit (EvSyncClose (s_path self1)) ;;;
                   emit EvLoopClose ;;;
                   ret (ReadLoaded parts, self1))) as Ha.
        { repeat first [ apply avoids_bind; [|intros ?] | apply avoids_emit | apply avoids_ret
                       | by apply avoids_external | by apply avoids_read_locations
                       | destruct (e_batching_disabled env) ]. }
        destruct entry0; first [done | exact (Ha _ _ _ Er eq_refl)]. }
      split; [|split].
      * split; [|done]. intros Hr. exfalso.
        exact (Hav entry _ _ eq_refl Hr).
      * intros Hr. exfalso.
        exact (Hav entry _ _ eq_refl Hr).
      * intros v repl [= ->]. simpl. split; [reflexivity|].
        unfold trace_since. simpl. rewrite <- !app_assoc, drop_app_length.
        apply Forall_app. split; [done|]. by repeat constructor.
    + exfalso. apply Habs.
      destruct (merged !! unranked); [done|]. by destruct (manifest !! unranked).
Qed.

Lemma C8_witness :
  let md := {| version := "0.0.1"; world_size := 2;
               manifest := {[ "0/model" := TensorEntry "0/model" false;
                              "0/step" := PrimitiveEntry 7%Z true;
                              "0/foo" := TensorEntry "replicated/foo" true ]} |} in
  let manifest := (get_manifest_for_rank_model md 1).1 in
  let merged_sd_entries := (get_manifest_for_rank_model md 1).2 in
  let r := read_object get_manifest_for_rank_model Ex.snapshot "1/model" None None Ex.env
             Ex.world0 in
  (r.1 = Raise (lookup_error "1/model") ↔
     merged_sd_entries !! "model" = None ∧ manifest !! "model" = None) ∧
  (r.1 = Raise (lookup_error "1/model") →
     r.2 = Ex.world0 ∧ w_storage r.2 = w_storage Ex.world0 ∧
     s_path Ex.snapshot = s_path Ex.snapshot ∧ s_pg Ex.snapshot = s_pg Ex.snapshot ∧
     metadata Ex.snapshot r.2 = (Ok (md, Ex.snapshot), r.2)) ∧
  (∀ v repl,
     from_option Some (manifest !! "model") (merged_sd_entries !! "model")
       = Some (PrimitiveEntry v repl) →
     r.1 = Ok (ReadPrimitive v, Ex.snapshot) ∧
     Forall (λ ev, is_read_request ev = false) (trace_since Ex.world0 r.2)).
Proof.
  apply (C8_read_object_lookup get_manifest_for_rank_model Ex.snapshot "1/model" None None
           Ex.env Ex.world0 "1" "model" 1%Z); reflexivity.
Defined.

(** C8 as stated fails: [read_object] also raises when the unranked part of
    the path is present.  The path ["x/foo"] raises a [ValueError] from
    [int("x")] although ["foo"] is a replicated entry that every rank sees;
    the path ["0/model"] is in the manifest of rank 0 and the read raises a
    [FileNotFoundError] because the storage does not hold the object. *)
Lemma C8_counterexample :
  let md := {| version := "0.0.1"; world_size := 2;
               manifest := {[ "0/step" := PrimitiveEntry 7%Z true;
                              "0/foo" := TensorEntry "replicated/foo" true ]} |} in
  let md' := {| version := "0.0.1"; world_size := 2;
                manifest := {[ "0/model" := TensorEntry "0/model" false;
                               "0/step" := PrimitiveEntry 7%Z true;
                               "0/foo" := TensorEntry "replicated/foo" true ]} |} in
  s_metadata Ex.snapshot_replicated = Some md ∧
  s_metadata Ex.snapshot = Some md' ∧
  (∀ rank,
     ¬ ((∃ e, (read_object get_manifest_for_rank_model Ex.snapshot_replicated "x/foo"
                 None None Ex.env Ex.world0).1 = Raise e) ↔
        (get_manifest_for_rank_model md rank).2 !! "foo" = None ∧
        (get_manifest_for_rank_model md rank).1 !! "foo" = None)) ∧
  ¬ ((∃ e, (read_object get_manifest_for_rank_model Ex.snapshot "0/model"
              None None Ex.env Ex.world0).1 = Raise e) ↔
     (get_manifest_for_rank_model md' 0).2 !! "model" = None ∧
     (get_manifest_for_rank_model md' 0).1 !! "model" = None).
Proof.
  intros md md'. split; [reflexivity|]. split; [reflexivity|]. split.
  - intros rank [H _].
    assert (∃ e, (read_object get_manifest_for_rank_model Ex.snapshot_replicated "x/foo"
                    None None Ex.env Ex.world0).1 = Raise e) as Hr
      by (eexists; vm_compute; reflexivity).
    destruct (H Hr) as [_ Hm]. vm_compute in Hm. done.
  - intros [H _].
    assert (∃ e, (read_object get_manifest_for_rank_model Ex.snapshot "0/model"
                    None None Ex.env Ex.world0).1 = Raise e) as Hr
      by (eexists; vm_compute; reflexivity).
    destruct (H Hr) as [_ Hm]. vm_compute in Hm. done.
Qed.

(** C9.  The storage plugin and the event loop are not closed on every
    exit path.  [read_object] returns the
    value of a primitive entry after it has created the event loop and opened
    the storage plugin, without closing either; [take] has no [finally], so
    when [sync_complete] raises the storage plugin and the event loop stay
    open.  Only [_complete_snapshot], which closes both in a [finally], ends
    every run with the two closing calls. *)
Theorem C9_storage_and_event_loop_left_open :
  (let r := read_object get_manifest_for_rank_model Ex.snapshot "0/step" None None Ex.env
              Ex.world0 in
   r.1 = Ok (ReadPrimitive 7, Ex.snapshot) ∧
   trace_since Ex.world0 r.2 =
     [EvWarning "obj_out does not support in-place load"; EvNewEventLoop;
      EvOpenStorage "/tmp/snap"] ∧
   storages_left_open (trace_since Ex.world0 r.2) = 1 ∧
   event_loops_left_open (trace_since Ex.world0 r.2) = 1) ∧
  (let r := take "/tmp/snap" 5 Ex.pg0 None Ex.env_write_fails Ex.world0 in
   r.1 = Raise (Exn "Exception" "disk full") ∧
   storages_left_open (trace_since Ex.world0 r.2) = 1 ∧
   event_loops_left_open (trace_since Ex.world0 r.2) = 1) ∧
  (∀ self kw env w,
     ∃ steps, trace_since w (_complete_snapshot self kw env w).2 =
                steps ++ [EvSyncClose (t_storage kw); EvLoopClose]).
Proof.
  split; [|split].
  - vm_compute. done.
  - vm_compute. done.
  - intros self kw env w.
    destruct (complete_snapshot_run self kw env w) as (w' & E & Et).
    rewrite E. simpl. rewrite Et. eexists. by rewrite app_assoc.
Qed.

(** ** The order of the keys *)

Lemma omap_take_loop_events items global_keys :
  omap capture_marker (take_loop_events items global_keys) = key_schedule items global_keys.
Proof.
  unfold take_loop_events, key_schedule.
  induction global_keys as [|key rest IH]; simpl; [done|].
  rewrite !omap_app, IH. by destruct (items !! key).
Qed.

Lemma omap_take_tail_events f flattened env :
  (∀ ev, is_take_impl_event ev = true →
         (∀ k, ev ≠ EvStateDict k) → (∀ k sd, ev ≠ EvLoadStateDict k sd) → ev ≠ EvBarrier →
         f ev = None) →
  omap (M:=list) (B:=string + unit) f (take_tail_events flattened env) = [].
Proof.
  intros Hf. unfold take_tail_events. rewrite !omap_app.
  assert (omap f (EvPrepareWrite <$> flattened.*1) = []) as ->.
  { induction (flattened.*1) as [|p ps IH]; simpl; [done|]. by rewrite Hf. }
  destruct (e_batching_disabled env); simpl; by rewrite !Hf.
Qed.

Lemma load_stateful_split self key o storage pg env w :
  _load_stateful self key (Some o) storage pg env w =
  bind (load_stateful_reads self key o storage pg env)
       (λ x, load_state_dict key o x.2 ;;; ret x.1) w.
Proof.
  unfold _load_stateful, load_stateful_reads, bind.
  repeat (case_match; simplify_eq/=; try done).
Qed.

Lemma grows_metadata p self :
  p EvNewEventLoop = true → p EvLoopClose = true →
  p (EvOpenStorage (s_path self)) = true → p (EvSyncClose (s_path self)) = true →
  p (EvSyncRead (s_path self) SNAPSHOT_METADATA_FNAME) = true →
  keeps (grows_by p) (metadata self).
Proof. intros. unfold metadata, _read_snapshot_metadata. keeps_auto. Qed.

Lemma grows_load_stateful_reads p self key o storage pg env :
  (∀ ev, no_load_marker ev = true → p ev = true) →
  keeps (grows_by p) (load_stateful_reads self key o storage pg env).
Proof.
  intros Hp. unfold load_stateful_reads.
  apply keeps_bind; [apply _|apply grows_metadata; by apply Hp|intros ms].
  apply keeps_bind; [apply _|apply grows_state_dict; by apply Hp|intros sd].
  cbv zeta.
  apply keeps_bind; [apply _| |intros _].
  { apply keeps_for_each; [apply _|intros kv]. apply grows_emit. by apply Hp. }
  apply keeps_bind; [apply _| |intros _].
  { destruct (e_batching_disabled env); [apply keeps_ret; apply _|].
    apply grows_emit. by apply Hp. }
  apply keeps_bind; [apply _|apply grows_emit; by apply Hp|intros _].
  apply keeps_bind; [apply _|apply keeps_external; apply _|intros _].
  apply keeps_bind; [apply _| |intros futs].
  { apply keeps_read_entries; [apply _|intros url file]. apply grows_sync_read. by apply Hp. }
  apply keeps_bind; [apply _|apply grows_emit; by apply Hp|intros _].
  destruct (e_inflate env _ _ _); [apply keeps_ret|apply keeps_raise]; apply _.
Qed.

(** [load_state_dict] is reached only after [state_dict] has returned. *)
Lemma load_stateful_reads_Stateful self key o storage pg env w x w1 :
  load_stateful_reads self key o storage pg env w = (Ok x, w1) → is_Stateful o = true.
Proof.
  unfold load_stateful_reads. unfold bind at 1.
  destruct (metadata self w) as [[ms|e] w0]; [|done].
  unfold bind at 1. unfold is_Stateful.
  destruct (o_kind o) eqn:Hk; try done.
  unfold state_dict, bind, emit, raise. rewrite Hk. done.
Qed.

Lemma load_state_dict_run key o sd w :
  is_Stateful o = true →
  ∃ rng states,
    load_state_dict key o sd w =
    (Ok tt, World (w_dicts w) rng states (w_storage w) (w_trace w ++ [EvLoadStateDict key sd])) ∧
    (o_kind o = RNGState → rng = sd).
Proof.
  unfold is_Stateful, load_state_dict, bind, emit. simpl.
  destruct (o_kind o); try done; intros _; eexists _, _; (split; [reflexivity|done]).
Qed.

(** A run of [_load_stateful] for an object that returns: the events before
    the call of [load_state_dict] hold no other such call and no barrier, the
    call is the last event, and an [RNGState] object leaves the generator in
    the state it was given. *)
Lemma load_stateful_returns self key o storage pg env w self' w' :
  _load_stateful self key (Some o) storage pg env w = (Ok self', w') →
  ∃ before sd,
    w_trace w' = w_trace w ++ before ++ [EvLoadStateDict key sd] ∧
    Forall (λ ev, no_load_marker ev = true) before ∧
    (o_kind o = RNGState → w_rng w' = sd).
Proof.
  rewrite load_stateful_split. unfold bind at 1.
  pose proof (grows_load_stateful_reads no_load_marker self key o storage pg env
                (λ ev H, H) w) as (before & Et & F).
  destruct (load_stateful_reads self key o storage pg env w) as [[x|e] w1] eqn:E; [|done].
  apply load_stateful_reads_Stateful in E.
  destruct (load_state_dict_run key o x.2 w1 E) as (rng & states & El & Hrng).
  simpl in Et. erewrite bind_ok by exact El. unfold ret. intros [= <- <-].
  exists before, x.2. simpl. rewrite Et, <- app_assoc. done.
Qed.

Lemma omap_no_load_marker (t : list event) :
  Forall (λ ev, no_load_marker ev = true) t → omap load_marker t = [].
Proof.
  induction t as [|ev t IH]; intros F; [done|].
  apply Forall_cons in F as [Hev F]. unfold no_load_marker in Hev.
  change (omap load_marker (ev :: t))
    with (match load_marker ev with
          | Some y => y :: omap load_marker t
          | None => omap load_marker t
          end).
  rewrite (IH F). by destruct (load_marker ev).
Qed.

Lemma load_stateful_marks self key stateful storage pg env w :
  ∃ delta,
    w_trace (_load_stateful self key stateful storage pg env w).2 = w_trace w ++ delta ∧
    omap load_marker delta =
      (if from_option (λ _, true) false stateful &&
          is_ok (_load_stateful self key stateful storage pg env w).1
       then [inl key] else []) ∧
    (stateful = None → is_ok (_load_stateful self key stateful storage pg env w).1 = true).
Proof.
  destruct stateful as [o|]; [|exists []; simpl; by rewrite app_nil_r].
  destruct (_load_stateful self key (Some o) storage pg env w) as [[self'|e] w'] eqn:E.
  - apply load_stateful_returns in E as (before & sd & Et & F & _).
    exists (before ++ [EvLoadStateDict key sd]). split; [done|]. split; [|done].
    simpl. by rewrite omap_app, omap_no_load_marker.
  - rewrite load_stateful_split in E. unfold bind at 1 in E.
    pose proof (grows_load_stateful_reads no_load_marker self key o storage pg env
                  (λ ev H, H) w) as (before & Et & F).
    destruct (load_stateful_reads self key o storage pg env w) as [[x|e0] w1] eqn:Er.
    + apply load_stateful_reads_Stateful in Er.
      destruct (load_state_dict_run key o x.2 w1 Er) as (rng & states & El & _).
      erewrite bind_ok in E by exact El. done.
    + simplify_eq. exists before. split; [done|]. split; [|done].
      simpl. by apply omap_no_load_marker.
Qed.

#[local] Arguments _load_stateful : simpl never.

Lemma restore_loop_marks app_state items storage pg env global_keys : ∀ self w r w',
  w_dicts w !! app_state = Some items →
  restore_loop self app_state global_keys storage pg env w = (r, w') →
  ∃ delta,
    w_trace w' = w_trace w ++ delta ∧
    omap load_marker delta `prefix_of` key_schedule items global_keys ∧
    (is_ok r = true → omap load_marker delta = key_schedule items global_keys).
Proof.
  induction global_keys as [|key rest IH]; intros self w r w' Hl Hrun.
  - simpl in Hrun. unfold ret in Hrun. simplify_eq. exists []. simpl. by rewrite app_nil_r.
  - simpl in Hrun. erewrite bind_ok in Hrun by reflexivity. rewrite Hl in Hrun.
    simpl in Hrun.
    destruct (load_stateful_marks self key (items !! key) storage pg env w)
      as (d1 & Et1 & Em1 & Hnone).
    pose proof (same_dict_load_stateful app_state self key (items !! key) storage pg env
                  w _ Hl) as Hl1.
    unfold bind at 1 in Hrun.
    destruct (_load_stateful self key (items !! key) storage pg env w) as [[self1|e] w1]
      eqn:El; simpl in Et1, Em1, Hnone, Hl1.
    + unfold bind at 1 in Hrun. simpl in Hrun.
      apply IH in Hrun as (d2 & Et2 & Ep2 & Eo2); [|exact Hl1].
      exists (d1 ++ [EvBarrier] ++ d2). simpl in Et2. rewrite Et2, Et1.
      split; [by rewrite <- !app_assoc|].
      rewrite !omap_app, Em1. simpl. unfold key_schedule. simpl.
      fold (key_schedule items rest). rewrite andb_true_r.
      destruct (items !! key); simpl.
      * split; [by do 2 apply prefix_cons|]. intros Hok. by rewrite Eo2.
      * split; [by apply prefix_cons|]. intros Hok. by rewrite Eo2.
    + simplify_eq. exists d1. split; [done|]. split; [|done].
      rewrite Em1, andb_false_r. apply prefix_nil.
Qed.

Lemma restore_marks self app_state env w items r w' :
  w_dicts w !! app_state = Some items →
  all_Stateful items = true → size (rng_state_items items) ≤ 1 →
  restore self app_state env w = (r, w') →
  let global_keys :=
    _gather_keys (map_to_list (popped_items items)).*1 (s_pg self) (e_keys env) in
  let full :=
    key_schedule (popped_items items) global_keys ++
    match popped_item items with Some (key, _) => [inl key] | None => [] end in
  omap load_marker (trace_since w w') `prefix_of` full ∧
  (is_ok r = true → omap load_marker (trace_since w w') = full).
Proof.
  intros Hl Hall Hsz Hrun global_keys full. unfold restore in Hrun.
  erewrite bind_ok in Hrun by (by eapply validate_app_state_ok).
  do 3 erewrite bind_ok in Hrun by reflexivity. simpl in Hrun. rewrite Hl in Hrun.
  simpl in Hrun.
  erewrite bind_ok in Hrun; cycle 1.
  { apply (pop_rng_state_ok _ _ items); [|done]. simpl. apply lookup_insert_eq. }
  unfold set_dicts in Hrun. simpl in Hrun. rewrite insert_insert_eq in Hrun.
  erewrite bind_ok in Hrun by reflexivity. simpl in Hrun.
  rewrite lookup_insert_eq in Hrun. simpl in Hrun.
  erewrite bind_ok in Hrun by reflexivity. simpl in Hrun. fold global_keys in Hrun.
  set (d' := fresh (dom (w_dicts w))) in *.
  unfold bind at 1 in Hrun.
  match type of Hrun with
  | context [restore_loop self d' global_keys (s_path self) (s_pg self) env ?w0] =>
      set (w5 := w0) in *
  end.
  destruct (restore_loop self d' global_keys (s_path self) (s_pg self) env w5)
    as [r6 w6] eqn:El.
  destruct (restore_loop_marks d' (popped_items items) (s_path self) (s_pg self) env
              global_keys self w5 r6 w6) as (d1 & Et1 & Ep1 & Eo1); [|exact El|].
  { simpl. apply lookup_insert_eq. }
  assert (w_trace w5 = w_trace w ++ [EvNewEventLoop; EvOpenStorage (s_path self); EvAllGather])
    as Et5 by (unfold w5; simpl; by rewrite <- !app_assoc).
  destruct r6 as [self1|e]; simpl in Eo1.
  - unfold full. destruct (popped_item items) as [[key stateful]|].
    + destruct (load_stateful_marks self1 key (Some stateful) (s_path self) (s_pg self) env w6)
        as (d2 & Et2 & Em2 & _).
      unfold bind at 1 in Hrun.
      destruct (_load_stateful self1 key (Some stateful) (s_path self) (s_pg self) env w6)
        as [[self2|e] w7] eqn:El2; simpl in Et2, Em2.
      * unfold bind, emit, ret in Hrun. simpl in Hrun. simplify_eq.
        rewrite (trace_since_app w _ ([EvNewEventLoop; EvOpenStorage (s_path self); EvAllGather]
                   ++ d1 ++ d2 ++ [EvSyncClose (s_path self); EvLoopClose])).
        2:{ simpl. rewrite Et2, Et1, Et5. by rewrite <- !app_assoc. }
        rewrite !omap_app, Em2. simpl. rewrite ?app_nil_r, (Eo1 eq_refl). done.
      * simplify_eq.
        rewrite (trace_since_app w _ ([EvNewEventLoop; EvOpenStorage (s_path self); EvAllGather]
                   ++ d1 ++ d2)).
        2:{ rewrite Et2, Et1, Et5. by rewrite <- !app_assoc. }
        rewrite !omap_app, Em2. simpl. rewrite ?app_nil_r, (Eo1 eq_refl).
        split; [by apply prefix_app_r|done].
    + unfold bind, emit, ret in Hrun. simpl in Hrun. simplify_eq.
      rewrite (trace_since_app w _ ([EvNewEventLoop; EvOpenStorage (s_path self); EvAllGather]
                 ++ d1 ++ [EvSyncClose (s_path self); EvLoopClose])).
      2:{ simpl. rewrite Et1, Et5. by rewrite <- !app_assoc. }
      rewrite !omap_app. simpl. rewrite ?app_nil_r, (Eo1 eq_refl). done.
  - simplify_eq.
    rewrite (trace_since_app w _ ([EvNewEventLoop; EvOpenStorage (s_path self); EvAllGather]
               ++ d1)).
    2:{ rewrite Et1, Et5. by rewrite <- !app_assoc. }
    rewrite !omap_app. simpl. split; [|done]. unfold full. by apply prefix_app_r.
Qed.

Lemma gather_keys_coherent (keys_of peers : nat → list string) pg keys :
  (∀ j key, key ∈ peers j ↔ key ∈ keys_of j) →
  (∀ key, key ∈ keys ↔ key ∈ keys_of (get_rank pg)) →
  _gather_keys keys pg peers =
  Str.sorted (elements (list_to_set (C:=gset string)
                          (concat (keys_of <$> seq 0 (get_world_size pg))))).
Proof.
  intros Hp Hk. unfold _gather_keys. do 2 f_equal. apply set_eq. intros key.
  rewrite !elem_of_list_to_set, !elem_of_concat. unfold all_gather_object. split.
  - intros (l & (j & -> & Hj)%list_elem_of_fmap & Hin). exists (keys_of j).
    split; [apply list_elem_of_fmap; eauto|].
    case_bool_decide; [subst; by apply Hk|by apply Hp].
  - intros (l & (j & -> & Hj)%list_elem_of_fmap & Hin).
    eexists. split; [apply list_elem_of_fmap; eauto|]. simpl.
    case_bool_decide; [subst; by apply Hk|by apply Hp].
Qed.

(** C1.  Let rank [j] hold the stateful objects [items_of j], of which
    [_pop_rng_state] leaves [popped_items (items_of j)], and let every rank
    pass the keys it is left with to the all-gather, in any order.  Then
    every rank computes
    the same list of global keys, the strictly increasing list of the keys of
    all ranks.  On rank [r], [_take_impl] calls [state_dict] and the barrier
    in the order of that list, the object of a key right before the barrier
    of the key, skipping the call for a key the rank does not have (the
    [RNGState] object, if any, comes before the loop).  [restore] calls
    [load_state_dict] and the barrier in the same order and loads the
    [RNGState] object last; a run of [restore] that raises has done a prefix
    of this. *)
Theorem C1_global_key_order
    (ws : nat) (items_of : nat → AppState) (r : nat)
    env path app_state replicated storage is_async self w :
  let keys_of j := (map_to_list (popped_items (items_of j))).*1 in
  let global_keys :=
    Str.sorted (elements (list_to_set (C:=gset string) (concat (keys_of <$> seq 0 ws)))) in
  let pg := {| get_rank := r; get_world_size := ws |} in
  let rng_key :=
    match popped_item (items_of r) with Some (key, _) => [inl key] | None => [] end in
  (∀ j key, key ∈ e_keys env j ↔ key ∈ keys_of j) →
  s_pg self = pg →
  w_dicts w !! app_state = Some (items_of r) →
  all_Stateful (items_of r) = true →
  size (rng_state_items (items_of r)) ≤ 1 →
  StronglySorted Str.lt global_keys ∧
  (∀ key, key ∈ global_keys ↔ ∃ j, j < ws ∧ key ∈ keys_of j) ∧
  (∀ j, _gather_keys (keys_of j) {| get_rank := j; get_world_size := ws |} (e_keys env)
        = global_keys) ∧
  (∃ res w',
     _take_impl path app_state replicated pg storage is_async env w = (Ok res, w') ∧
     omap capture_marker (trace_since w w') =
       rng_key ++ key_schedule (popped_items (items_of r)) global_keys) ∧
  (∀ res w', restore self app_state env w = (res, w') →
     omap load_marker (trace_since w w')
       `prefix_of` key_schedule (popped_items (items_of r)) global_keys ++ rng_key ∧
     (is_ok res = true →
      omap load_marker (trace_since w w') =
        key_schedule (popped_items (items_of r)) global_keys ++ rng_key)).
Proof.
  intros keys_of global_keys pg rng_key Henv Hpg Hl Hall Hsz.
  assert (∀ j, _gather_keys (keys_of j) {| get_rank := j; get_world_size := ws |} (e_keys env)
               = global_keys) as Hgk.
  { intros j. by apply (gather_keys_coherent keys_of (e_keys env)
                          {| get_rank := j; get_world_size := ws |}). }
  split; [|split; [|split; [exact Hgk|split]]].
  - apply str_sorted_of_set_lt.
  - intros key. unfold global_keys.
    rewrite str_sorted_perm, elem_of_elements, elem_of_list_to_set, elem_of_concat.
    split.
    + intros (l & (j & Hj & ->)%elem_of_gathered & Hk). eauto.
    + intros (j & Hj & Hk). exists (keys_of j). split; [|done].
      apply elem_of_gathered. eauto.
  - eexists _, _. split; [by apply take_impl_run|].
    rewrite (trace_since_app _ _ (take_impl_events (items_of r) (w_states w) pg env (w_rng w)))
      by done.
    assert (take_global_keys (items_of r) pg env = global_keys) as Hgk' by apply (Hgk r).
    unfold take_impl_events. rewrite Hgk'. rewrite !omap_app, omap_take_loop_events.
    rewrite omap_take_tail_events; cycle 1.
    { intros ev _ H1 _ H3. destruct ev; try done; first [by destruct H3|by edestruct H1]. }
    unfold rng_key. destruct (popped_item (items_of r)) as [[key o]|]; simpl;
      by rewrite app_nil_r.
  - intros res w' Hrun.
    pose proof (restore_marks self app_state env w (items_of r) res w' Hl Hall Hsz Hrun) as H.
    assert (_gather_keys (map_to_list (popped_items (items_of r))).*1 (s_pg self) (e_keys env)
            = global_keys) as Hgk' by (rewrite Hpg; apply (Hgk r)).
    simpl in H. by rewrite Hgk' in H.
Qed.

Lemma C1_witness :
  let keys_of j := (map_to_list (popped_items (Ex.items_of j))).*1 in
  let global_keys :=
    Str.sorted (elements (list_to_set (C:=gset string) (concat (keys_of <$> seq 0 2)))) in
  let rng_key :=
    match popped_item (Ex.items_of 0) with Some (key, _) => [inl key] | None => [] end in
  global_keys = ["model"; "optim"; "zebra"] ∧
  StronglySorted Str.lt global_keys ∧
  (∀ key, key ∈ global_keys ↔ ∃ j, j < 2 ∧ key ∈ keys_of j) ∧
  (∀ j, _gather_keys (keys_of j) {| get_rank := j; get_world_size := 2 |} (e_keys Ex.env)
        = global_keys) ∧
  (∃ res w',
     _take_impl "/tmp/snap" 5 ∅ Ex.pg0 "/tmp/snap" false Ex.env Ex.world0 = (Ok res, w') ∧
     omap capture_marker (trace_since Ex.world0 w') =
       rng_key ++ key_schedule (popped_items (Ex.items_of 0)) global_keys) ∧
  (∀ res w', restore Ex.snapshot 5 Ex.env Ex.world0 = (res, w') →
     omap load_marker (trace_since Ex.world0 w')
       `prefix_of` key_schedule (popped_items (Ex.items_of 0)) global_keys ++ rng_key ∧
     (is_ok res = true →
      omap load_marker (trace_since Ex.world0 w') =
        key_schedule (popped_items (Ex.items_of 0)) global_keys ++ rng_key)).
Proof.
  split; [vm_compute; reflexivity|].
  apply (C1_global_key_order 2 Ex.items_of 0 Ex.env "/tmp/snap" 5 ∅ "/tmp/snap" false
           Ex.snapshot Ex.world0).
  - intros j key. unfold Ex.items_of. simpl. case_bool_decide.
    + vm_compute (map_to_list _).*1. rewrite !elem_of_cons, !elem_of_nil. tauto.
    + vm_compute (map_to_list _).*1. rewrite !elem_of_cons, !elem_of_nil. tauto.
  - reflexivity.
  - reflexivity.
  - vm_compute. reflexivity.
  - vm_compute. lia.
Defined.

(** C2.  Let rank [j] pass to the all-gather the patterns [patterns j] (the
    patterns its caller gave and those inferred from its
    [DistributedDataParallel] modules), and let it hold the flattened values
    [fl j].  Every rank obtains the same set of honored patterns, the patterns
    that all ranks passed.  A path of the flattened values of rank [r] is in
    the final set of replicated paths exactly when it matches an honored
    pattern, its value is not a [ShardedTensor], and every rank of the
    process group holds at the path a value that is not a [ShardedTensor]
    (which is when every rank proposes the path); the final set is the list
    rank 0 computes and broadcasts, the same on every rank. *)
Theorem C2_replication_agreement
    (fnmatch : string → string → bool) (ws : nat)
    (replicated_of : nat → list string) (items_of : nat → AppState)
    (fl : nat → gmap string value) (r : nat) :
  r < ws →
  let pg j := {| get_rank := j; get_world_size := ws |} in
  let patterns j := _infer_replicated (replicated_of j) (items_of j) in
  ∃ honored : gset string,
    (∀ j, _coalesce_replicated (all_gather_object (pg j) patterns (patterns j)) = Ok honored) ∧
    (∀ pat, pat ∈ honored ↔ ∀ j, j < ws → pat ∈ patterns j) ∧
    (∀ pat, (∀ j, j < ws → pat ∈ replicated_of j) → pat ∈ honored) ∧
    (∀ path app_state env w,
       (∀ j, e_replicated env j = patterns j) →
       w_dicts w !! app_state = Some (items_of r) →
       ∃ w', _coalesce_path_and_replicated path (pg r) app_state (replicated_of r) env w
             = (Ok (coalesced_path path (pg r) env, honored), w')) ∧
    let proposed j := local_replicated_paths fnmatch (fl j) honored in
    let sent j := replicated_paths_sent fnmatch (fl j) honored (pg j) proposed in
    let final j := _calculate_replicated_entries fnmatch (fl j) honored (pg j) proposed sent in
    (∀ p v, fl r !! p = Some v →
       (p ∈ final r ↔
        (∃ pat, pat ∈ honored ∧ fnmatch p pat = true) ∧
        is_ShardedTensor v = false ∧
        ∀ j, j < ws → ∃ vj, fl j !! p = Some vj ∧ is_ShardedTensor vj = false)) ∧
    (∀ j, final j = list_to_set (sent 0)).
Proof.
  intros Hr pg patterns.
  destruct (coalesce_replicated_spec (patterns <$> seq 0 ws)) as (honored & Hco & Hmem).
  { intros E. apply (f_equal length) in E. rewrite length_fmap, length_seq in E.
    simpl in E. lia. }
  assert (∀ pat, pat ∈ honored ↔ ∀ j, j < ws → pat ∈ patterns j) as Hhon.
  { intros pat. rewrite Hmem. split.
    - intros H j Hj. apply H. apply elem_of_gathered. eauto.
    - intros H l (j & Hj & ->)%elem_of_gathered. by apply H. }
  exists honored. split; [|split; [exact Hhon|split; [|split]]].
  - intros j. change (patterns j) with (patterns (get_rank (pg j))).
    by rewrite (all_gather_object_coherent (pg j) patterns).
  - intros pat Hall. apply Hhon. intros j Hj. by apply infer_replicated_keeps, Hall.
  - intros path app_state env w Henv Hl.
    destruct (coalesce_ok path (pg r) app_state (replicated_of r) env w) as
      (coalesced & w' & E & Ec & _); [simpl; lia|].
    rewrite Hl in Ec. simpl in Ec.
    assert (all_gather_object (pg r) (e_replicated env)
              (_infer_replicated (replicated_of r) (items_of r)) = patterns <$> seq 0 ws) as Eg.
    { change ws with (get_world_size (pg r)).
      rewrite <- (all_gather_object_coherent (pg r) patterns). unfold all_gather_object.
      apply list_fmap_ext. intros i j _. by rewrite Henv. }
    rewrite Eg, Hco in Ec. simplify_eq. eauto.
  - intros proposed sent final.
    assert (∀ j, final j = list_to_set (sent 0)) as Hfinal.
    { intros j. unfold final, _calculate_replicated_entries, broadcast_object_list. simpl.
      case_bool_decide; by subst. }
    split; [|exact Hfinal].
    intros p v Hv. rewrite Hfinal, elem_of_list_to_set.
    etrans; [apply (elem_of_replicated_paths_sent_0 fnmatch fl honored ws p); lia|].
    split.
    + intros Hall. pose proof (Hall r Hr) as Hp. unfold proposed in Hp.
      apply elem_of_local_replicated_paths in Hp as (v' & Hv' & Hm & Hs).
      simplify_eq. split; [done|]. split; [done|].
      intros j Hj. specialize (Hall j Hj). unfold proposed in Hall.
      apply elem_of_local_replicated_paths in Hall as (vj & Hvj & _ & Hsj). eauto.
    + intros (Hm & _ & Hall) j Hj. destruct (Hall j Hj) as (vj & Hvj & Hsj).
      unfold proposed. apply elem_of_local_replicated_paths. eauto.
Qed.

Example replicated_paths_ex :
  let honored : gset string := {[ "model/*" ]} in
  let proposed j := local_replicated_paths Ex.fnmatch (Ex.flattened_of j) honored in
  let sent j := replicated_paths_sent Ex.fnmatch (Ex.flattened_of j) honored
                  {| get_rank := j; get_world_size := 2 |} proposed in
  _coalesce_replicated [Ex.replicated_of 0; Ex.replicated_of 1] = Ok honored ∧
  elements (_calculate_replicated_entries Ex.fnmatch (Ex.flattened_of 1) honored Ex.pg1
              proposed sent) = ["model/w"].
Proof. vm_compute. done. Qed.

Lemma C2_witness :
  let pg j := {| get_rank := j; get_world_size := 2 |} in
  let patterns j := _infer_replicated (Ex.replicated_of j) (Ex.items_of j) in
  ∃ honored : gset string,
    (∀ j, _coalesce_replicated (all_gather_object (pg j) patterns (patterns j)) = Ok honored) ∧
    (∀ pat, pat ∈ honored ↔ ∀ j, j < 2 → pat ∈ patterns j) ∧
    (∀ pat, (∀ j, j < 2 → pat ∈ Ex.replicated_of j) → pat ∈ honored) ∧
    (∀ path app_state env w,
       (∀ j, e_replicated env j = patterns j) →
       w_dicts w !! app_state = Some (Ex.items_of 1) →
       ∃ w', _coalesce_path_and_replicated path (pg 1) app_state (Ex.replicated_of 1) env w
             = (Ok (coalesced_path path (pg 1) env, honored), w')) ∧
    let proposed j := local_replicated_paths Ex.fnmatch (Ex.flattened_of j) honored in
    let sent j := replicated_paths_sent Ex.fnmatch (Ex.flattened_of j) honored (pg j) proposed in
    let final j :=
      _calculate_replicated_entries Ex.fnmatch (Ex.flattened_of j) honored (pg j) proposed sent in
    (∀ p v, Ex.flattened_of 1 !! p = Some v →
       (p ∈ final 1 ↔
        (∃ pat, pat ∈ honored ∧ Ex.fnmatch p pat = true) ∧
        is_ShardedTensor v = false ∧
        ∀ j, j < 2 → ∃ vj, Ex.flattened_of j !! p = Some vj ∧ is_ShardedTensor vj = false)) ∧
    (∀ j, final j = list_to_set (sent 0)).
Proof.
  apply (C2_replication_agreement Ex.fnmatch 2 Ex.replicated_of Ex.items_of Ex.flattened_of 1).
  lia.
Defined.

(** ** A run of [take] on a validated [app_state] *)

Lemma take_prefix_run path app_state pg replicated is_async env w items :
  w_dicts w !! app_state = Some items →
  all_Stateful items = true →
  size (rng_state_items items) ≤ 1 →
  0 < get_world_size pg →
  ∃ cdelta,
    Forall (λ ev, is_coalesce_event ev = true) cdelta ∧
    take_prefix path app_state pg replicated is_async env w =
    (Ok (coalesced_path path pg env, take_impl_result items (w_states w) pg env (w_rng w)),
     World (<[fresh (dom (w_dicts w)) := popped_items items]> (w_dicts w))
           (take_impl_rng items (w_states w) pg env (w_rng w))
           (w_states w) (w_storage w)
           (w_trace w ++ [EvNewEventLoop] ++ cdelta ++
            [EvOpenStorage (coalesced_path path pg env)] ++
            take_impl_events items (w_states w) pg env (w_rng w))).
Proof.
  intros Hl Hall Hsz Hws. unfold take_prefix.
  erewrite bind_ok by (by eapply validate_app_state_ok).
  erewrite bind_ok by reflexivity.
  set (w0 := (emit EvNewEventLoop w).2).
  destruct (coalesce_ok path pg app_state (default [] replicated) env w0 Hws)
    as (coalesced & w1 & E & _ & _).
  pose proof (coalesce_only_trace path pg app_state (default [] replicated) env w0) as Hc.
  rewrite E in Hc. simpl in Hc. destruct Hc as (cdelta & Hw1 & F). subst w1.
  exists cdelta. split; [done|].
  erewrite bind_ok by exact E. simpl.
  erewrite bind_ok by reflexivity.
  erewrite bind_ok; cycle 1.
  { apply (take_impl_run _ _ _ _ _ _ _ _ items); done. }
  simpl. unfold ret. by rewrite <- !app_assoc.
Qed.

(** ** Storage locations *)

Lemma string_app_inj (a b1 b2 : string) : a +:+ b1 = a +:+ b2 → b1 = b2.
Proof. induction a as [|c a IH]; simpl; [done|]. intros [= H]. auto. Qed.

Lemma pretty_N_char_not_sep y :
  pretty_N_char y ≠ "/"%char ∧ pretty_N_char y ≠ "."%char.
Proof. unfold pretty_N_char. repeat case_match; done. Qed.

Lemma pretty_N_go_head x : ∀ s,
  (0 < x)%N ∨ (∃ y s', s = String (pretty_N_char y) s') →
  ∃ y s', pretty_N_go x s = String (pretty_N_char y) s'.
Proof.
  induction (N.lt_wf_0 x) as [x _ IH]; intros s Hs.
  destruct (decide (x = 0)%N) as [->|Hx].
  - rewrite pretty_N_go_0. destruct Hs as [?|?]; [lia|done].
  - rewrite pretty_N_go_step by lia. apply IH; [apply N.div_lt; lia|].
    right. eauto.
Qed.

Lemma pretty_nat_head (n : nat) : ∃ y s', pretty n = String (pretty_N_char y) s'.
Proof.
  unfold pretty, pretty_nat, pretty, pretty_N.
  destruct (decide (N.of_nat n = 0)%N) as [_|Hn].
  - exists 0%N, "". done.
  - apply pretty_N_go_head. left. lia.
Qed.

Lemma starts_with_slash_spec b :
  Str.starts_with_slash b = true → ∃ b', b = String "/"%char b'.
Proof.
  destruct b as [|c b']; simpl; [done|]. intros ->%bool_decide_eq_true. eauto.
Qed.

Lemma ranked_path_inj rank key1 key2 :
  ranked_path rank key1 = ranked_path rank key2 → key1 = key2.
Proof.
  unfold ranked_path, Str.path_join.
  destruct (pretty_nat_head rank) as (y & s' & ->).
  destruct (pretty_N_char_not_sep y) as [Hy _].
  destruct (Str.starts_with_slash key1) eqn:H1, (Str.starts_with_slash key2) eqn:H2; try done.
  - apply starts_with_slash_spec in H1 as (b' & ->).
    destruct (bool_decide _ || Str.ends_with_slash _); simpl; intros [= ? _]; by subst.
  - apply starts_with_slash_spec in H2 as (b' & ->).
    destruct (bool_decide _ || Str.ends_with_slash _); simpl; intros [= ? _]; by subst.
  - destruct (bool_decide _ || Str.ends_with_slash _); simpl; intros [= H].
    + by apply string_app_inj in H.
    + apply string_app_inj in H. by simplify_eq/=.
Qed.

(** ** The random number generator *)









(** * More properties of the code *)

(** ** [str] of a rank and what [read_object] makes of it *)

Lemma list_ascii_of_string_app (a b : string) :
  String.list_ascii_of_string (a +:+ b) =
  String.list_ascii_of_string a ++ String.list_ascii_of_string b.
Proof. induction a as [|c a IH]; simpl; [done|]. by rewrite IH. Qed.

Lemma string_app_assoc (a b c : string) : (a +:+ b) +:+ c = a +:+ (b +:+ c).
Proof.
  induction a as [|x a IH]; [done|].
  change (String x ((a +:+ b) +:+ c) = String x (a +:+ (b +:+ c))). by rewrite IH.
Qed.

Lemma pretty_N_go_app x : ∀ s, pretty_N_go x s = pretty_N_go x "" +:+ s.
Proof.
  induction (N.lt_wf_0 x) as [x _ IH]; intros s.
  assert (x = 0 ∨ 0 < x)%N as [->|Hx] by lia.
  - by rewrite !pretty_N_go_0.
  - rewrite (pretty_N_go_step x s), (pretty_N_go_step x "") by done.
    assert (x `div` 10 < x)%N as Hlt by (by apply N.div_lt).
    rewrite (IH _ Hlt (String (pretty_N_char (x `mod` 10)) s)).
    rewrite (IH _ Hlt (String (pretty_N_char (x `mod` 10)) "")).
    by rewrite string_app_assoc.
Qed.

Lemma pretty_N_go_snoc x :
  (0 < x)%N →
  String.list_ascii_of_string (pretty_N_go x "") =
  String.list_ascii_of_string (pretty_N_go (x `div` 10) "") ++ [pretty_N_char (x `mod` 10)].
Proof.
  intros Hx. rewrite pretty_N_go_step by done.
  by rewrite pretty_N_go_app, list_ascii_of_string_app.
Qed.

Lemma digit_of_pretty_N_char y :
  (y < 10)%N → digit_of (pretty_N_char y) = Some (Z.of_N y).
Proof.
  intros Hy.
  assert (y = 0 ∨ y = 1 ∨ y = 2 ∨ y = 3 ∨ y = 4 ∨ y = 5 ∨ y = 6 ∨ y = 7 ∨ y = 8 ∨ y = 9)%N
    as H by lia.
  repeat (destruct H as [->|H]; [reflexivity|]). by subst.
Qed.

(** The decimal digits of [str(n)]. *)
Lemma pretty_N_go_digits x :
  Forall (λ c, is_Some (digit_of c)) (String.list_ascii_of_string (pretty_N_go x "")) ∧
  foldl (λ a c, 10 * a + default 0 (digit_of c))%Z 0%Z
        (String.list_ascii_of_string (pretty_N_go x "")) = Z.of_N x ∧
  ((0 < x)%N → pretty_N_go x "" ≠ "").
Proof.
  induction (N.lt_wf_0 x) as [x _ IH].
  assert (x = 0 ∨ 0 < x)%N as [->|Hx] by lia.
  - rewrite pretty_N_go_0. simpl. split; [constructor|]. split; [done|lia].
  - destruct (IH (x `div` 10)%N) as (IH1 & IH2 & _); [by apply N.div_lt|].
    rewrite pretty_N_go_snoc by done.
    assert (x `mod` 10 < 10)%N as Hm by (by apply N.mod_lt).
    split; [|split].
    + apply Forall_app. split; [done|]. repeat constructor.
      by rewrite digit_of_pretty_N_char.
    + rewrite foldl_app, IH2. simpl. rewrite digit_of_pretty_N_char by done. simpl.
      rewrite (N.div_mod x 10) at 3 by done. lia.
    + intros _ E. apply (f_equal String.list_ascii_of_string) in E.
      rewrite pretty_N_go_snoc in E by done. simpl in E. by destruct (String.list_ascii_of_string _).
Qed.

Lemma pretty_nat_digits (n : nat) :
  Forall (λ c, is_Some (digit_of c)) (String.list_ascii_of_string (pretty n)) ∧
  foldl (λ a c, 10 * a + default 0 (digit_of c))%Z 0%Z
        (String.list_ascii_of_string (pretty n)) = Z.of_nat n ∧
  pretty n ≠ "".
Proof.
  unfold pretty, pretty_nat, pretty, pretty_N. case_decide as Hn.
  - assert (n = 0) as -> by lia. simpl. split; [by repeat constructor|done].
  - destruct (pretty_N_go_digits (N.of_nat n)) as (H1 & H2 & H3).
    split; [done|]. split; [rewrite H2; lia|]. apply H3. lia.
Qed.

Lemma digit_not_special c :
  is_Some (digit_of c) →
  is_space c = false ∧ c ≠ "/"%char ∧ c ≠ "_"%char ∧ c ≠ "-"%char ∧ c ≠ "+"%char.
Proof.
  destruct c as [[] [] [] [] [] [] [] []]; vm_compute; intros [d Hd];
    first [discriminate Hd | repeat split; discriminate].
Qed.

Lemma parse_digits_digits cs : ∀ acc after_digit,
  Forall (λ c, is_Some (digit_of c)) cs → cs ≠ [] →
  parse_digits cs acc after_digit =
  Some (foldl (λ a c, 10 * a + default 0 (digit_of c))%Z acc cs).
Proof.
  induction cs as [|c cs IH]; intros acc ad Hd Hne; [done|].
  apply Forall_cons in Hd as [Hc Hd]. simpl.
  destruct (digit_not_special c Hc) as (_ & _ & Hu & _).
  rewrite bool_decide_false by done. destruct Hc as [d Hc]. rewrite Hc. simpl.
  destruct cs as [|c' cs']; [done|]. by apply IH.
Qed.

Lemma lstrip_digits cs :
  Forall (λ c, is_Some (digit_of c)) cs → lstrip cs = cs.
Proof.
  destruct cs as [|c cs]; [done|]. intros [Hc _]%Forall_cons. simpl.
  destruct (digit_not_special c Hc) as (-> & _). done.
Qed.

Lemma strip_digits cs :
  Forall (λ c, is_Some (digit_of c)) cs → strip cs = cs.
Proof.
  intros Hd. unfold strip. rewrite (lstrip_digits cs) by done.
  rewrite lstrip_digits by (by apply Forall_reverse). apply reverse_involutive.
Qed.

(** [int(str(n)) == n]. *)
Lemma int_pretty (n : nat) : int (pretty n) = Some (Z.of_nat n).
Proof.
  destruct (pretty_nat_digits n) as (Hd & Hv & Hne).
  unfold int. rewrite strip_digits by done.
  destruct (String.list_ascii_of_string (pretty n)) as [|c cs] eqn:E.
  { destruct (pretty n); [done|discriminate E]. }
  apply Forall_cons in Hd as Hd'. destruct Hd' as [Hc _].
  destruct (digit_not_special c Hc) as (_ & _ & _ & Hm & Hp).
  rewrite !bool_decide_false by done.
  rewrite parse_digits_digits by done. by rewrite Hv.
Qed.

Lemma split_once_app (a p : string) :
  "/"%char ∉ String.list_ascii_of_string a →
  split_once (a +:+ String "/" p) = Some (a, p).
Proof.
  induction a as [|c a IH]; intros Hn.
  - change ("" +:+ String "/" p) with (String "/" p). done.
  - simpl in Hn. apply not_elem_of_cons in Hn as [Hc Ha].
    change (String c a +:+ String "/" p) with (String c (a +:+ String "/" p)).
    simpl. rewrite bool_decide_false by done. by rewrite IH.
Qed.

Lemma pretty_nat_no_slash (n : nat) : "/"%char ∉ String.list_ascii_of_string (pretty n).
Proof.
  destruct (pretty_nat_digits n) as (Hd & _). intros Hin.
  rewrite Forall_forall in Hd. by destruct (digit_not_special _ (Hd _ Hin)) as (_ & ? & _).
Qed.

Lemma string_get_elem_of (a : string) : ∀ n c,
  String.get n a = Some c → c ∈ String.list_ascii_of_string a.
Proof.
  induction a as [|x a IH]; intros n c; [done|]. simpl.
  destruct n as [|n]; [intros [= ->]; by left|]. intros H. right. eauto.
Qed.

(** [os.path.join(str(rank), logical_path)] for a logical path that does not
    begin with a slash. *)
Lemma ranked_path_relative rank p :
  Str.starts_with_slash p = false → ranked_path rank p = pretty rank +:+ String "/" p.
Proof.
  intros Hp. unfold ranked_path, Str.path_join. rewrite Hp.
  destruct (pretty_nat_digits rank) as (_ & _ & Hne).
  rewrite bool_decide_false by done. simpl.
  destruct (Str.ends_with_slash (pretty rank)) eqn:E; [|done].
  exfalso. unfold Str.ends_with_slash in E.
  destruct (String.get _ _) as [c|] eqn:Eg; [|done].
  apply bool_decide_eq_true in E as ->.
  by apply string_get_elem_of, pretty_nat_no_slash in Eg.
Qed.

Lemma ranked_path_absolute rank p :
  Str.starts_with_slash p = true → ranked_path rank p = p.
Proof. intros Hp. unfold ranked_path, Str.path_join. by rewrite Hp. Qed.

Lemma split_once_ranked_path rank p :
  Str.starts_with_slash p = false → split_once (ranked_path rank p) = Some (pretty rank, p).
Proof.
  intros Hp. rewrite ranked_path_relative by done.
  apply split_once_app, pretty_nat_no_slash.
Qed.

(** Keys of different ranks, or of different relative paths, differ. *)
Lemma ranked_path_inj2 r p r' p' :
  Str.starts_with_slash p = false →
  ranked_path r p = ranked_path r' p' → r = r' ∧ p = p'.
Proof.
  intros Hp E.
  destruct (Str.starts_with_slash p') eqn:Hp'.
  - rewrite (ranked_path_absolute r' p') in E by done.
    pose proof (split_once_ranked_path r p Hp) as Hs. rewrite E in Hs.
    apply starts_with_slash_spec in Hp' as [b ->]. simpl in Hs. simplify_eq.
    by destruct (pretty_nat_digits r) as (_ & _ & ?).
  - pose proof (split_once_ranked_path r p Hp) as Hs.
    rewrite E, split_once_ranked_path in Hs by done. simplify_eq.
    split; [|done]. by apply (inj pretty).
Qed.

(** ** The global manifest *)

Lemma foldl_rank_entries_notin rank (l : list (string * Entry)) : ∀ (gm : Manifest) k,
  (∀ p e, (p, e) ∈ l → ranked_path rank p ≠ k) →
  foldl (λ gm kv, <[ranked_path rank kv.1 := kv.2]> gm) gm l !! k = gm !! k.
Proof.
  induction l as [|[p e] l IH]; intros gm k H; simpl; [done|].
  rewrite IH by (intros p' e' Hin; apply (H p' e'); by right).
  apply lookup_insert_ne, (H p e). by left.
Qed.

Lemma foldl_rank_entries_in rank (l : list (string * Entry)) : ∀ (gm : Manifest) p e,
  NoDup l.*1 → (p, e) ∈ l →
  foldl (λ gm kv, <[ranked_path rank kv.1 := kv.2]> gm) gm l !! ranked_path rank p = Some e.
Proof.
  induction l as [|[p0 e0] l IH]; intros gm p e Hnd Hin; [by apply elem_of_nil in Hin|].
  rewrite fmap_cons in Hnd. apply NoDup_cons in Hnd as [Hn Hnd].
  apply elem_of_cons in Hin as [[= -> ->]|Hin]; simpl.
  - rewrite foldl_rank_entries_notin; [by rewrite lookup_insert_eq|].
    intros p' e' Hin' E. apply ranked_path_inj in E as ->.
    apply Hn. apply list_elem_of_fmap. by exists (p0, e').
  - by apply IH.
Qed.

Lemma foldl_rank_entries_inv rank (l : list (string * Entry)) : ∀ (gm : Manifest) k e,
  foldl (λ gm kv, <[ranked_path rank kv.1 := kv.2]> gm) gm l !! k = Some e →
  gm !! k = Some e ∨ ∃ p, (p, e) ∈ l ∧ ranked_path rank p = k.
Proof.
  induction l as [|[p0 e0] l IH]; intros gm k e H; simpl in H; [by left|].
  apply IH in H as [H|(p & Hin & E)].
  - destruct (decide (ranked_path rank p0 = k)) as [<-|Hne].
    + rewrite lookup_insert_eq in H. simplify_eq. right. exists p0. split; [by left|done].
    + rewrite lookup_insert_ne in H by done. by left.
  - right. exists p. split; [by right|done].
Qed.

Lemma add_rank_entries_notin rank gm m k :
  (∀ p, is_Some (m !! p) → ranked_path rank p ≠ k) →
  add_rank_entries rank gm m !! k = gm !! k.
Proof.
  intros H. apply foldl_rank_entries_notin. intros p e Hin%elem_of_map_to_list.
  apply H. by rewrite Hin.
Qed.

Lemma add_rank_entries_in rank gm m p e :
  m !! p = Some e → add_rank_entries rank gm m !! ranked_path rank p = Some e.
Proof.
  intros H. apply foldl_rank_entries_in; [apply NoDup_fst_map_to_list|].
  by apply elem_of_map_to_list.
Qed.

Lemma add_rank_entries_inv rank gm m k e :
  add_rank_entries rank gm m !! k = Some e →
  gm !! k = Some e ∨ ∃ p, m !! p = Some e ∧ ranked_path rank p = k.
Proof.
  intros [H|(p & Hin & E)]%foldl_rank_entries_inv; [by left|].
  right. exists p. split; [by apply elem_of_map_to_list|done].
Qed.

Lemma global_manifest_from_notin ms : ∀ r0 gm k,
  (∀ i m p, ms !! i = Some m → is_Some (m !! p) → ranked_path (r0 + i) p ≠ k) →
  global_manifest_from r0 ms gm !! k = gm !! k.
Proof.
  induction ms as [|m ms IH]; intros r0 gm k H; simpl; [done|].
  rewrite IH.
  - apply add_rank_entries_notin. intros p Hp.
    specialize (H 0 m p eq_refl Hp). by rewrite Nat.add_0_r in H.
  - intros i m' p Hi Hp. specialize (H (S i) m' p Hi Hp).
    by rewrite Nat.add_succ_r in H.
Qed.

Lemma global_manifest_from_in ms : ∀ r0 gm i m p e,
  ms !! i = Some m → m !! p = Some e →
  (∀ j m' p', i < j → ms !! j = Some m' → is_Some (m' !! p') →
              ranked_path (r0 + j) p' ≠ ranked_path (r0 + i) p) →
  global_manifest_from r0 ms gm !! ranked_path (r0 + i) p = Some e.
Proof.
  induction ms as [|m0 ms IH]; intros r0 gm i m p e Hi Hp H; [done|].
  destruct i as [|i]; simpl in Hi; simplify_eq; simpl.
  - rewrite global_manifest_from_notin.
    + rewrite Nat.add_0_r. by apply add_rank_entries_in.
    + intros j m' p' Hj Hp'. specialize (H (S j) m' p' ltac:(lia) Hj Hp').
      by rewrite Nat.add_succ_r in H.
  - replace (r0 + S i) with (S r0 + i) by lia. apply (IH _ _ _ m); [done..|].
    intros j m' p' Hlt Hj Hp'. specialize (H (S j) m' p' ltac:(lia) Hj Hp').
    by replace (r0 + S j) with (S r0 + j) in H by lia;
       replace (r0 + S i) with (S r0 + i) in H by lia.
Qed.

Lemma global_manifest_from_inv ms : ∀ r0 gm k e,
  global_manifest_from r0 ms gm !! k = Some e →
  gm !! k = Some e ∨
  ∃ i m p, ms !! i = Some m ∧ m !! p = Some e ∧ ranked_path (r0 + i) p = k.
Proof.
  induction ms as [|m0 ms IH]; intros r0 gm k e H; simpl in H; [by left|].
  apply IH in H as [H|(i & m & p & Hi & Hp & E)].
  - apply add_rank_entries_inv in H as [H|(p & Hp & E)]; [by left|].
    right. exists 0, m0, p. by rewrite Nat.add_0_r.
  - right. exists (S i), m, p. split; [done|]. split; [done|]. by rewrite Nat.add_succ_r.
Qed.

Lemma raises_only_ret P {A} (a : A) : raises_only P (ret a).
Proof. by intros w e w'. Qed.

Lemma raises_only_emit P ev : raises_only P (emit ev).
Proof. by intros w e w'. Qed.

Lemma raises_only_raise (P : exn → Prop) {A} e : P e → raises_only P (@raise A e).
Proof. by intros HP w e' w' [= <- <-]. Qed.

Lemma raises_only_bind P {A B} (m : M A) (k : A → M B) :
  raises_only P m → (∀ a, raises_only P (k a)) → raises_only P (bind m k).
Proof.
  intros Hm Hk w e w'. unfold bind. destruct (m w) as [[a|e1] w1] eqn:E.
  - apply Hk.
  - intros [= <- <-]. by apply (Hm _ _ _ E).
Qed.

Lemma raises_only_external (P : exn → Prop) o :
  (∀ msg, P (Exn "Exception" msg)) → raises_only P (external o).
Proof. intros HP. destruct o; [by apply raises_only_raise|apply raises_only_ret]. Qed.

Lemma raises_only_sync_read (P : exn → Prop) url file :
  P (Exn "FileNotFoundError" file) → raises_only P (sync_read url file).
Proof.
  intros HP w e w'. unfold sync_read, bind, emit, ret.
  destruct (w_storage w !! url ≫= _); [done|]. by intros [= <- <-].
Qed.

Lemma raises_only_read_locations (P : exn → Prop) storage locations :
  (∀ file, P (Exn "FileNotFoundError" file)) →
  P (Exn "UnpicklingError" "not a persisted object") →
  raises_only P (read_locations storage locations).
Proof.
  intros H1 H2. induction locations as [|l ls IH]; simpl; [apply raises_only_ret|].
  apply raises_only_bind; [by apply raises_only_sync_read|]. intros [v|m].
  - apply raises_only_bind; [done|]. intros ?. apply raises_only_ret.
  - by apply raises_only_raise.
Qed.

Lemma raises_only_metadata (P : exn → Prop) self :
  P (Exn "FileNotFoundError" SNAPSHOT_METADATA_FNAME) →
  P (Exn "YAMLError" "malformed snapshot metadata") →
  raises_only P (metadata self).
Proof.
  intros H1 H2. unfold metadata, _read_snapshot_metadata.
  destruct (s_metadata self); [apply raises_only_ret|].
  repeat first [ apply raises_only_emit | apply raises_only_ret
               | by apply raises_only_sync_read | by apply raises_only_raise
               | apply raises_only_bind; [|intros ?]
               | match goal with |- raises_only _ (match ?x with _ => _ end) => destruct x end ].
Qed.

(** Once the path is parsed, [read_object] raises no [ValueError]. *)
Lemma read_object_parsed gm self path obj_out budget env rank_str unranked rank :
  split_once path = Some (rank_str, unranked) → int rank_str = Some rank →
  raises_only (λ e, exn_class e ≠ "ValueError")
              (read_object gm self path obj_out budget env).
Proof.
  intros Hs Hi. unfold read_object. rewrite Hs, Hi.
  apply raises_only_bind; [by apply raises_only_metadata|]. intros ms. simpl.
  case_bool_decide; [by apply raises_only_raise|].
  apply raises_only_bind.
  { destruct (from_option is_Tensor false obj_out);
      [apply raises_only_ret|apply raises_only_emit]. }
  intros _. apply raises_only_bind; [apply raises_only_emit|]. intros _.
  apply raises_only_bind; [apply raises_only_emit|]. intros _.
  destruct (from_option Some _ _) as [entry|]; [|by apply raises_only_raise].
  assert (raises_only (λ e, exn_class e ≠ "ValueError")
            (emit (EvPrepareRead unranked) ;;;
             (if e_batching_disabled env then ret tt else emit EvBatchReadRequests) ;;;
             external (e_execute_reads env) ;;;
             parts <- read_locations (s_path ms.2) (entry_locations entry) ;;
             emit EvExecuteReadReqs ;;;
             emit (EvSyncClose (s_path ms.2)) ;;;
             emit EvLoopClose ;;;
             ret (ReadLoaded parts, ms.2))) as Hrest.
  { repeat first [ apply raises_only_emit | apply raises_only_ret
                 | by apply raises_only_external | by apply raises_only_read_locations
                 | apply raises_only_bind; [|intros ?]
                 | destruct (e_batching_disabled env) ]. }
  destruct entry; first [apply raises_only_ret | exact Hrest].
Qed.

Section gather_manifest_facts.

Variable consolidate : list Manifest → list Manifest.

(** X1.  The global manifest that [_gather_manifest] builds holds, under
    [os.path.join(str(rank), logical_path)], which is [<rank>/<logical_path>],
    exactly what the consolidated manifest of rank [rank] holds under
    [logical_path], for every logical path that does not begin with a slash:
    no entry is lost and entries of different ranks are not confused. *)
Theorem X1_lookup_of_relative_path manifest pg peers rank m p :
  consolidate (all_gather_object pg peers manifest) !! rank = Some m →
  Str.starts_with_slash p = false →
  ranked_path rank p = pretty rank +:+ "/" +:+ p ∧
  _gather_manifest consolidate manifest pg peers !! ranked_path rank p = m !! p.
Proof.
  intros Hm Hp. split; [by apply ranked_path_relative|].
  unfold _gather_manifest. cbv zeta.
  destruct (m !! p) as [e|] eqn:E.
  - apply (global_manifest_from_in _ 0 ∅ rank m p e Hm E).
    intros j m' p' Hlt Hj Hp' Heq. symmetry in Heq.
    apply ranked_path_inj2 in Heq as [? _]; [simpl in *; lia|done].
  - destruct (global_manifest_from 0 _ ∅ !! ranked_path rank p) as [e|] eqn:El; [|done].
    apply global_manifest_from_inv in El as [El|(i & m' & p' & Hi & Hp' & Heq)]; [done|].
    symmetry in Heq. apply ranked_path_inj2 in Heq as [-> ->]; [|done].
    simpl in *. congruence.
Qed.

(** X2.  Every key of the global manifest of [_gather_manifest] is
    [os.path.join(str(rank), logical_path)] for a rank of the consolidated
    list and a logical path of the manifest of that rank, and holds the
    entry of that path. *)
Theorem X2_keys_are_ranked_paths manifest pg peers k e :
  _gather_manifest consolidate manifest pg peers !! k = Some e →
  ∃ rank m p,
    consolidate (all_gather_object pg peers manifest) !! rank = Some m ∧
    m !! p = Some e ∧ k = ranked_path rank p.
Proof.
  intros [H|(i & m & p & Hi & Hp & E)]%global_manifest_from_inv; [done|].
  by exists i, m, p.
Qed.

(** X3.  For a logical path that begins with a slash, [os.path.join]
    drops the rank: the entry is stored in the global manifest under the
    logical path itself, the entry of the last rank that has the path
    replaces those of the ranks before it, and [read_object] raises a
    [ValueError] for that key, so the entry cannot be read back. *)
Theorem X3_absolute_path_loses_rank manifest pg peers rank m p e :
  consolidate (all_gather_object pg peers manifest) !! rank = Some m →
  m !! p = Some e →
  Str.starts_with_slash p = true →
  (∀ j m', rank < j → consolidate (all_gather_object pg peers manifest) !! j = Some m' →
           m' !! p = None) →
  _gather_manifest consolidate manifest pg peers !! p = Some e ∧
  ∀ gm self obj_out budget env w,
    ∃ msg, read_object gm self p obj_out budget env w = (Raise (Exn "ValueError" msg), w).
Proof.
  intros Hm He Hp Hlast. split.
  - rewrite <- (ranked_path_absolute rank p Hp) at 1. unfold _gather_manifest. cbv zeta.
    apply (global_manifest_from_in _ 0 ∅ rank m p e Hm He).
    intros j m' p' Hlt Hj [e' Hp'] Heq. simpl in Heq.
    rewrite (ranked_path_absolute rank p Hp) in Heq.
    destruct (Str.starts_with_slash p') eqn:Hp''.
    + rewrite ranked_path_absolute in Heq by done. subst p'.
      by rewrite (Hlast j m' Hlt Hj) in Hp'.
    + pose proof (split_once_ranked_path j p' Hp'') as Hs. rewrite Heq in Hs.
      apply starts_with_slash_spec in Hp as [b ->]. simpl in Hs. simplify_eq.
      by destruct (pretty_nat_digits j) as (_ & _ & ?).
  - intros gm self obj_out budget env w. apply read_object_malformed. right.
    apply starts_with_slash_spec in Hp as [b ->]. by exists "", b.
Qed.

End gather_manifest_facts.

Lemma X1_witness :
  ranked_path 1 "model/w" = pretty 1 +:+ "/" +:+ "model/w" ∧
  _gather_manifest id (Ex2.manifest_of 0) Ex.pg0 Ex2.manifest_of !! ranked_path 1 "model/w" =
    Ex2.manifest_of 1 !! "model/w".
Proof.
  apply (X1_lookup_of_relative_path id (Ex2.manifest_of 0) Ex.pg0 Ex2.manifest_of 1
           (Ex2.manifest_of 1) "model/w"); reflexivity.
Defined.

Lemma X2_witness :
  ∃ rank m p,
    id (all_gather_object Ex.pg0 Ex2.manifest_of (Ex2.manifest_of 0)) !! rank = Some m ∧
    m !! p = Some (TensorEntry "1/model/w" false) ∧ "1/model/w" = ranked_path rank p.
Proof.
  apply (X2_keys_are_ranked_paths id (Ex2.manifest_of 0) Ex.pg0 Ex2.manifest_of "1/model/w").
  vm_compute. reflexivity.
Defined.

Lemma X3_witness :
  _gather_manifest id (Ex2.manifest_of 0) Ex.pg0 Ex2.manifest_of !! "/abs" =
    Some (ObjectEntry "1/abs" false) ∧
  ∀ gm self obj_out budget env w,
    ∃ msg, read_object gm self "/abs" obj_out budget env w = (Raise (Exn "ValueError" msg), w).
Proof.
  apply (X3_absolute_path_loses_rank id (Ex2.manifest_of 0) Ex.pg0 Ex2.manifest_of 1
           (Ex2.manifest_of 1) "/abs"); [reflexivity..|].
  intros j m' Hj H. destruct j as [|[|j]]; [lia|lia|discriminate H].
Defined.

(** X4.  A key [os.path.join(str(rank), logical_path)] that
    [_gather_manifest] makes for a logical path not beginning with a slash is
    taken apart again by [read_object]: [path.split("/", 1)] gives
    [str(rank)] and the logical path, [int] gives the rank back, and
    [read_object] raises no [ValueError] for it. *)
Theorem X4_manifest_key_parses_back rank p :
  Str.starts_with_slash p = false →
  split_once (ranked_path rank p) = Some (pretty rank, p) ∧
  int (pretty rank) = Some (Z.of_nat rank) ∧
  ∀ gm self obj_out budget env w e w',
    read_object gm self (ranked_path rank p) obj_out budget env w = (Raise e, w') →
    exn_class e ≠ "ValueError".
Proof.
  intros Hp. split; [by apply split_once_ranked_path|]. split; [apply int_pretty|].
  intros gm self obj_out budget env w e w'.
  apply (read_object_parsed gm self _ obj_out budget env (pretty rank) p (Z.of_nat rank));
    [by apply split_once_ranked_path|apply int_pretty].
Qed.

Lemma X4_witness :
  split_once (ranked_path 3 "model/w") = Some (pretty 3, "model/w") ∧
  int (pretty 3) = Some (Z.of_nat 3) ∧
  ∀ gm self obj_out budget env w e w',
    read_object gm self (ranked_path 3 "model/w") obj_out budget env w = (Raise e, w') →
    exn_class e ≠ "ValueError".
Proof. apply (X4_manifest_key_parses_back 3 "model/w"). reflexivity. Defined.

(** ** [_pop_rng_state], [_infer_replicated] and the coalescing of patterns *)

(** X5.  [_pop_rng_state] changes the dictionary it is given, and
    nothing else: without an [RNGState] value it returns [None] and leaves
    the state as it is; with exactly one it returns the item and deletes its
    key from that dictionary; with more than one it raises a [RuntimeError]
    and leaves the dictionary as it is. *)
Theorem X5_pop_rng_state_effect app_state w items :
  w_dicts w !! app_state = Some items →
  (rng_state_items items = ∅ → _pop_rng_state app_state w = (Ok None, w)) ∧
  (∀ key stateful, rng_state_items items = {[key := stateful]} →
     items !! key = Some stateful ∧ is_RNGState stateful = true ∧
     _pop_rng_state app_state w =
       (Ok (Some (key, stateful)),
        World (<[app_state := delete key items]> (w_dicts w)) (w_rng w) (w_states w)
              (w_storage w) (w_trace w))) ∧
  (1 < size (rng_state_items items) →
     _pop_rng_state app_state w =
       (Raise (Exn "RuntimeError" "Multiple RNGState objects in app state"), w)).
Proof.
  intros Hl. split; [|split].
  - intros He. rewrite (pop_rng_state_run _ _ _ Hl), He. by rewrite map_to_list_empty.
  - intros key stateful Hs.
    assert (rng_state_items items !! key = Some stateful) as Hk
      by (rewrite Hs; apply lookup_singleton_eq).
    apply map_lookup_filter_Some in Hk as [Hk Hr]. simpl in Hr.
    split; [done|]. split; [done|].
    rewrite (pop_rng_state_run _ _ _ Hl), Hs, map_to_list_singleton.
    f_equal. unfold set_dicts. f_equal.
    apply map_eq. intros d. destruct (decide (d = app_state)) as [->|Hne].
    + by rewrite lookup_alter_eq, lookup_insert_eq, Hl.
    + by rewrite lookup_alter_ne, lookup_insert_ne.
  - by apply pop_rng_state_many.
Qed.

Lemma X5_witness :
  (rng_state_items Ex.app_state = ∅ → _pop_rng_state 5 Ex.world0 = (Ok None, Ex.world0)) ∧
  (∀ key stateful, rng_state_items Ex.app_state = {[key := stateful]} →
     Ex.app_state !! key = Some stateful ∧ is_RNGState stateful = true ∧
     _pop_rng_state 5 Ex.world0 =
       (Ok (Some (key, stateful)),
        World (<[5 := delete key Ex.app_state]> (w_dicts Ex.world0)) (w_rng Ex.world0)
              (w_states Ex.world0) (w_storage Ex.world0) (w_trace Ex.world0))) ∧
  (1 < size (rng_state_items Ex.app_state) →
     _pop_rng_state 5 Ex.world0 =
       (Raise (Exn "RuntimeError" "Multiple RNGState objects in app state"), Ex.world0)).
Proof. apply (X5_pop_rng_state_effect 5 Ex.world0 Ex.app_state). reflexivity. Defined.

Lemma elem_of_flat_map_items (f : string → obj → list string) (items : AppState) pat :
  pat ∈ flat_map (λ kv, f kv.1 kv.2) (map_to_list items) ↔
  ∃ key val, items !! key = Some val ∧ pat ∈ f key val.
Proof.
  rewrite list_elem_of_In, in_flat_map. split.
  - intros ([key val] & Hin%list_elem_of_In%elem_of_map_to_list & Hp%list_elem_of_In). eauto.
  - intros (key & val & Hk & Hp). exists (key, val).
    split; apply list_elem_of_In; [by apply elem_of_map_to_list|done].
Qed.

(** X6.  [_infer_replicated] returns the patterns of the caller
    followed by inferred ones.  It returns them unchanged when ["**"] is among
    them or no value of [app_state] is a [DistributedDataParallel] module.
    Otherwise a module under [key] adds [key/**] when it ignores no
    parameter, and [key/name] for each of its parameters and buffers that it
    does not ignore; nothing else is added. *)
Theorem X6_infer_replicated_patterns replicated (app_state : AppState) :
  (∃ inferred, _infer_replicated replicated app_state = replicated ++ inferred) ∧
  ("**" ∈ replicated → _infer_replicated replicated app_state = replicated) ∧
  ((∀ key val, app_state !! key = Some val → is_DDP val = false) →
   _infer_replicated replicated app_state = replicated) ∧
  (∀ pat, pat ∈ _infer_replicated replicated app_state ↔
     pat ∈ replicated ∨
     ("**" ∉ replicated) ∧
     ∃ key val ignored named_parameters named_buffers,
       app_state !! key = Some val ∧
       o_kind val = DDP ignored named_parameters named_buffers ∧
       (ignored = [] ∧ pat = Str.path_join key "**" ∨
        ignored ≠ [] ∧
        ∃ name, name ∈ named_parameters ++ named_buffers ∧ (name ∉ ignored) ∧
                pat = Str.path_join key name)).
Proof.
  assert (∀ key val pat, pat ∈ ddp_patterns key val ↔
            ∃ ignored named_parameters named_buffers,
              o_kind val = DDP ignored named_parameters named_buffers ∧
              (ignored = [] ∧ pat = Str.path_join key "**" ∨
               ignored ≠ [] ∧
               ∃ name, name ∈ named_parameters ++ named_buffers ∧ (name ∉ ignored) ∧
                       pat = Str.path_join key name)) as Hddp.
  { intros key val pat. unfold ddp_patterns.
    destruct (o_kind val) as [| | |ign params bufs].
    1-3: split; [by intros ?%elem_of_nil|by intros (? & ? & ? & ? & _)].
    destruct ign as [|i ign].
    - rewrite list_elem_of_singleton. split.
      + intros ->. exists [], params, bufs. split; [done|]. by left.
      + intros (? & ? & ? & [= <- <- <-] & [[_ ->]|[? _]]); done.
    - rewrite list_elem_of_fmap. split.
      + intros (name & -> & [Hn Hin]%list_elem_of_filter).
        exists (i :: ign), params, bufs. split; [done|]. right. split; [done|]. eauto.
      + intros (? & ? & ? & [= <- <- <-] & [[? _]|[_ (name & Hin & Hn & ->)]]); [done|].
        exists name. split; [done|]. by apply list_elem_of_filter. }
  unfold _infer_replicated. cbv zeta. split; [|split; [|split]].
  - case_bool_decide; [exists []; by rewrite app_nil_r|eauto].
  - intros H. by rewrite bool_decide_true.
  - intros Hno. case_bool_decide; [done|].
    assert (flat_map (λ kv, ddp_patterns kv.1 kv.2) (map_to_list app_state) = []) as ->;
      [|by rewrite app_nil_r].
    apply elem_of_nil_inv. intros pat (key & val & Hk & Hp)%elem_of_flat_map_items.
    apply Hddp in Hp as (? & ? & ? & Hkind & _). specialize (Hno key val Hk).
    unfold is_DDP in Hno. by rewrite Hkind in Hno.
  - intros pat. case_bool_decide as Hss.
    + split; [by left|]. by intros [?|[? _]].
    + rewrite elem_of_app, elem_of_flat_map_items. split.
      * intros [?|(key & val & Hk & Hp)]; [by left|]. right. split; [done|].
        apply Hddp in Hp as (ign & ps & bs & ? & ?). by exists key, val, ign, ps, bs.
      * intros [?|[_ (key & val & ign & ps & bs & Hk & Hkind & H)]]; [by left|].
        right. exists key, val. split; [done|]. apply Hddp. by exists ign, ps, bs.
Qed.

Lemma elem_of_all_gather_object {A} (pg : PGWrapper) (peers : nat → A) obj x :
  x ∈ all_gather_object pg peers obj ↔
  ∃ j, j < get_world_size pg ∧ x = if bool_decide (j = get_rank pg) then obj else peers j.
Proof.
  unfold all_gather_object. rewrite list_elem_of_fmap. split.
  - intros (j & -> & Hj%elem_of_seq). exists j. split; [lia|done].
  - intros (j & Hj & ->). exists j. split; [done|]. apply elem_of_seq. lia.
Qed.

(** X7.  On a rank of the process group,
    [_coalesce_path_and_replicated] returns the patterns that the rank itself
    has (after [_infer_replicated]) and that every other rank passed; it logs
    the warning about differing replicated paths exactly when some pattern of
    the rank is not among them. *)
Theorem X7_coalesce_replicated_warning path pg app_state replicated env w items :
  w_dicts w !! app_state = Some items →
  get_rank pg < get_world_size pg →
  let inferred := _infer_replicated replicated items in
  ∃ coalesced w',
    _coalesce_path_and_replicated path pg app_state replicated env w =
      (Ok (coalesced_path path pg env, coalesced), w') ∧
    (∀ pat, pat ∈ coalesced ↔
       pat ∈ inferred ∧
       ∀ j, j < get_world_size pg → j ≠ get_rank pg → pat ∈ e_replicated env j) ∧
    (EvWarning "replicated paths differ from those verified across all ranks"
       ∈ trace_since w w' ↔
     ∃ pat, pat ∈ inferred ∧ pat ∉ coalesced).
Proof.
  intros Hl Hr inferred.
  destruct (coalesce_ok path pg app_state replicated env w) as
    (coalesced & w' & E & Ec & Et); [lia|].
  rewrite Hl in Ec, Et. simpl in Ec, Et. fold inferred in Ec, Et.
  destruct (coalesce_replicated_spec (all_gather_object pg (e_replicated env) inferred))
    as (verified & Hv & Hmem).
  { intros E0. apply (f_equal length) in E0. rewrite all_gather_object_length in E0.
    simpl in E0. lia. }
  rewrite Hv in Ec. simplify_eq.
  assert (∀ pat, pat ∈ coalesced ↔
            pat ∈ inferred ∧
            ∀ j, j < get_world_size pg → j ≠ get_rank pg → pat ∈ e_replicated env j) as Hco.
  { intros pat. rewrite Hmem. split.
    - intros H. split.
      + apply H. apply elem_of_all_gather_object. exists (get_rank pg).
        split; [done|]. by rewrite bool_decide_true.
      + intros j Hj Hne. apply H. apply elem_of_all_gather_object. exists j.
        split; [done|]. by rewrite bool_decide_false.
    - intros [Hown Hothers] l (j & Hj & ->)%elem_of_all_gather_object.
      destruct (decide (j = get_rank pg)) as [Hjr|Hjr].
      + by rewrite (bool_decide_true _ Hjr).
      + rewrite (bool_decide_false _ Hjr). by apply Hothers. }
  assert (EvWarning "replicated paths differ from those verified across all ranks"
            ∈ trace_since w w' ↔ list_to_set inferred ≠ coalesced) as Hw.
  { rewrite Et. clear.
    destruct (bool_decide (coalesced_path path pg env ≠ path));
      (destruct (decide (list_to_set inferred ≠ coalesced)) as [Hd|Hd];
       [rewrite (bool_decide_true _ Hd)|rewrite (bool_decide_false _ Hd)]; simpl;
       (split; [|intros H']);
       [ by intros _
       | rewrite !elem_of_cons; tauto
       | intros Hin;
         repeat (apply elem_of_cons in Hin as [Hin|Hin]; [discriminate Hin|]);
         by apply elem_of_nil in Hin
       | done ]). }
  exists coalesced, w'. split; [done|]. split; [exact Hco|].
  rewrite Hw. split.
  - intros Hdiff.
    destruct (decide (Forall (λ pat, pat ∈ coalesced) inferred)) as [Hall|Hex].
    + exfalso. apply Hdiff. apply set_eq. intros pat. rewrite elem_of_list_to_set.
      rewrite Forall_forall in Hall. split; [apply Hall|]. by intros [? _]%Hco.
    + apply not_Forall_Exists in Hex; [|apply _].
      apply Exists_exists in Hex as (pat & Hin & Hn). eauto.
  - intros (pat & Hin & Hn) Heq. apply Hn. rewrite <- Heq.
    by apply elem_of_list_to_set.
Qed.

Lemma X7_witness :
  let inferred := _infer_replicated ["model/*"] Ex.app_state in
  ∃ coalesced w',
    _coalesce_path_and_replicated "/tmp/snap" Ex.pg1 5 ["model/*"] Ex.env Ex.world0 =
      (Ok (coalesced_path "/tmp/snap" Ex.pg1 Ex.env, coalesced), w') ∧
    (∀ pat, pat ∈ coalesced ↔
       pat ∈ inferred ∧
       ∀ j, j < get_world_size Ex.pg1 → j ≠ get_rank Ex.pg1 → pat ∈ e_replicated Ex.env j) ∧
    (EvWarning "replicated paths differ from those verified across all ranks"
       ∈ trace_since Ex.world0 w' ↔
     ∃ pat, pat ∈ inferred ∧ pat ∉ coalesced).
Proof.
  apply (X7_coalesce_replicated_warning "/tmp/snap" Ex.pg1 5 ["model/*"] Ex.env Ex.world0
           Ex.app_state); [reflexivity|vm_compute; lia].
Defined.

Lemma infer_replicated_no_ddp replicated (app_state : AppState) :
  (∀ key val, app_state !! key = Some val → is_DDP val = false) →
  _infer_replicated replicated app_state = replicated.
Proof.
  intros Hno. unfold _infer_replicated. cbv zeta. case_bool_decide; [done|].
  assert (flat_map (λ kv, ddp_patterns kv.1 kv.2) (map_to_list app_state) = []) as ->;
    [|by rewrite app_nil_r].
  apply elem_of_nil_inv. intros pat (key & val & Hk & Hp)%elem_of_flat_map_items.
  specialize (Hno key val Hk). unfold is_DDP in Hno. unfold ddp_patterns in Hp.
  destruct (o_kind val); try done; by apply elem_of_nil in Hp.
Qed.

Section replicated_entries_facts.

Variable fnmatch : string → string → bool.

Lemma calculate_replicated_entries_bcast (flattened : gmap string value)
    (honored : gset string) j ws (proposed sent : nat → list string) :
  sent j = replicated_paths_sent fnmatch flattened honored
             {| get_rank := j; get_world_size := ws |} proposed →
  _calculate_replicated_entries fnmatch flattened honored
    {| get_rank := j; get_world_size := ws |} proposed sent = list_to_set (sent 0).
Proof.
  intros Hs. unfold _calculate_replicated_entries, broadcast_object_list. simpl.
  case_bool_decide; [|done]. subst j. by rewrite Hs.
Qed.

(** X8.  A path that [_calculate_replicated_entries] returns on
    some rank is, on every rank of the process group, a path of the
    flattened values of that rank whose value is not a [ShardedTensor] and
    that matches one of the patterns. *)
Theorem X8_replicated_entries_on_every_rank ws (fl : nat → gmap string value)
    (honored : gset string) r p :
  0 < ws →
  let pg j := {| get_rank := j; get_world_size := ws |} in
  let proposed j := local_replicated_paths fnmatch (fl j) honored in
  let sent j := replicated_paths_sent fnmatch (fl j) honored (pg j) proposed in
  p ∈ _calculate_replicated_entries fnmatch (fl r) honored (pg r) proposed sent →
  ∀ j, j < ws →
    ∃ v, fl j !! p = Some v ∧ is_ShardedTensor v = false ∧
         ∃ pat, pat ∈ honored ∧ fnmatch p pat = true.
Proof.
  intros Hws pg proposed sent Hp j Hj.
  unfold pg in Hp. rewrite calculate_replicated_entries_bcast in Hp by reflexivity.
  apply elem_of_list_to_set in Hp.
  pose proof (elem_of_replicated_paths_sent_0 fnmatch fl honored ws p Hws) as Hs0.
  cbv zeta in Hs0. pose proof (proj1 Hs0 Hp j Hj) as Hpj. clear Hs0 Hp.
  rename Hpj into Hp. apply elem_of_local_replicated_paths in Hp as (v & Hv & Hm & Hs).
  eauto.
Qed.

(** X9.  When some rank passes no pattern and holds no
    [DistributedDataParallel] module, the set of patterns that
    [_coalesce_replicated] returns is empty on every rank, and with it
    [_calculate_replicated_entries] returns the empty set on every rank. *)
Theorem X9_no_patterns_nothing_replicated ws (replicated_of : nat → list string)
    (items_of : nat → AppState) (fl : nat → gmap string value) r :
  r < ws →
  replicated_of r = [] →
  (∀ key val, items_of r !! key = Some val → is_DDP val = false) →
  let pg j := {| get_rank := j; get_world_size := ws |} in
  let patterns j := _infer_replicated (replicated_of j) (items_of j) in
  (∀ j, _coalesce_replicated (all_gather_object (pg j) patterns (patterns j)) = Ok ∅) ∧
  let proposed j := local_replicated_paths fnmatch (fl j) ∅ in
  let sent j := replicated_paths_sent fnmatch (fl j) ∅ (pg j) proposed in
  ∀ j, _calculate_replicated_entries fnmatch (fl j) ∅ (pg j) proposed sent = ∅.
Proof.
  intros Hr Hnone Hno pg patterns.
  assert (patterns r = []) as Hpr.
  { unfold patterns. by rewrite infer_replicated_no_ddp, Hnone. }
  split.
  - intros j. change (patterns j) with (patterns (get_rank (pg j))).
    rewrite (all_gather_object_coherent (pg j) patterns). simpl.
    destruct (coalesce_replicated_spec (patterns <$> seq 0 ws)) as (verified & Hv & Hmem).
    { intros E. apply (f_equal length) in E. rewrite length_fmap, length_seq in E.
      simpl in E. lia. }
    rewrite Hv. f_equal. apply set_eq. intros pat. rewrite Hmem. split; [|set_solver].
    intros H. specialize (H (patterns r)). rewrite Hpr in H.
    exfalso. eapply not_elem_of_nil, H. apply elem_of_gathered. eauto.
  - intros proposed sent j.
    unfold pg. rewrite calculate_replicated_entries_bcast by reflexivity.
    assert (proposed 0 = []) as Hp0.
    { apply elem_of_nil_inv. intros p (v & _ & (pat & Hin & _) & _)%elem_of_local_replicated_paths.
      set_solver. }
    unfold sent, replicated_paths_sent. simpl.
    change (local_replicated_paths fnmatch (fl 0) ∅) with (proposed 0). by rewrite Hp0.
Qed.

End replicated_entries_facts.

Lemma X8_witness :
  ∃ v, Ex.flattened_of 0 !! "model/w" = Some v ∧ is_ShardedTensor v = false ∧
       ∃ pat, pat ∈ ({[ "model/*" ]} : gset string) ∧ Ex.fnmatch "model/w" pat = true.
Proof.
  apply (X8_replicated_entries_on_every_rank Ex.fnmatch 2 Ex.flattened_of {[ "model/*" ]} 1
           "model/w"); [lia| |lia].
  unfold _calculate_replicated_entries. apply elem_of_list_to_set. vm_compute. left.
Defined.

Lemma X9_witness :
  let pg j := {| get_rank := j; get_world_size := 2 |} in
  let patterns j := _infer_replicated (Ex2.replicated_of j) (Ex.items_of j) in
  (∀ j, _coalesce_replicated (all_gather_object (pg j) patterns (patterns j)) = Ok ∅) ∧
  let proposed j := local_replicated_paths Ex.fnmatch (Ex.flattened_of j) ∅ in
  let sent j := replicated_paths_sent Ex.fnmatch (Ex.flattened_of j) ∅ (pg j) proposed in
  ∀ j, _calculate_replicated_entries Ex.fnmatch (Ex.flattened_of j) ∅ (pg j) proposed sent = ∅.
Proof.
  apply (X9_no_patterns_nothing_replicated Ex.fnmatch 2 Ex2.replicated_of Ex.items_of
           Ex.flattened_of 1); [lia|reflexivity|].
  intros key val. apply (map_Forall_lookup_1 (λ _ v, is_DDP v = false)).
  refine (bool_decide_unpack _ _). vm_compute. exact I.
Defined.

(** ** Reading one object *)

Lemma split_once_None path :
  split_once path = None ↔ "/"%char ∉ String.list_ascii_of_string path.
Proof.
  induction path as [|c path IH]; simpl.
  - split; [intros _ ?%elem_of_nil; done|done].
  - case_bool_decide as Hc.
    + subst c. split; [done|]. intros H. exfalso. apply H. by left.
    + rewrite not_elem_of_cons, <- IH.
      destruct (split_once path); simpl; (split; [intros H|intros [H1 H2]]); done.
Qed.

(** X10.  [read_object] raises a [ValueError] for a path that has no
    slash, and for a path whose part before the first slash is made of ASCII
    characters and is not what [int] accepts; it does so before anything
    else: the state and the trace are as before. *)
Theorem X10_read_object_malformed_path gm self path obj_out budget env w :
  "/"%char ∉ String.list_ascii_of_string path ∨
  (∃ rank_str unranked,
     split_once path = Some (rank_str, unranked) ∧
     Forall (λ c, is_ascii c = true) (String.list_ascii_of_string rank_str) ∧
     int rank_str = None) →
  ∃ msg, read_object gm self path obj_out budget env w = (Raise (Exn "ValueError" msg), w).
Proof.
  intros [Hn|(rank_str & unranked & Hs & _ & Hi)]; apply read_object_malformed;
    [left; by apply split_once_None|right; eauto].
Qed.

Lemma X10_witness :
  ∃ msg, read_object get_manifest_for_rank_model Ex.snapshot "+ 1/model" None None Ex.env
           Ex.world0 = (Raise (Exn "ValueError" msg), Ex.world0).
Proof.
  apply (X10_read_object_malformed_path get_manifest_for_rank_model Ex.snapshot "+ 1/model"
           None None Ex.env Ex.world0).
  right. exists "+ 1", "model". split; [reflexivity|]. split; [|reflexivity].
  repeat constructor.
Defined.

(** ** The metadata of a snapshot *)

(** X12.  The property [metadata] reads the document
    [.snapshot_metadata] at most once: when it returns, the document is kept
    on the snapshot object and every later access returns it without an
    event, whatever the storage holds by then; a first access reads the
    document at the path of the snapshot, opening and closing one storage
    plugin and one event loop.  When it raises (the document is absent or
    malformed), the storage plugin and the event loop it opened stay
    open. *)
Theorem X12_metadata_read_once self w :
  (∀ md self1 w1, metadata self w = (Ok (md, self1), w1) →
     s_metadata self1 = Some md ∧ s_path self1 = s_path self ∧ s_pg self1 = s_pg self ∧
     w_storage w1 = w_storage w ∧
     (∀ w2, metadata self1 w2 = (Ok (md, self1), w2)) ∧
     match s_metadata self with
     | Some md0 => md = md0 ∧ self1 = self ∧ w1 = w
     | None =>
         w_storage w !! s_path self ≫= (.!! SNAPSHOT_METADATA_FNAME) = Some (BMetadata md) ∧
         trace_since w w1 =
           [EvNewEventLoop; EvOpenStorage (s_path self);
            EvSyncRead (s_path self) SNAPSHOT_METADATA_FNAME;
            EvSyncClose (s_path self); EvLoopClose]
     end) ∧
  (∀ e w1, metadata self w = (Raise e, w1) →
     s_metadata self = None ∧
     (∀ md, w_storage w !! s_path self ≫= (.!! SNAPSHOT_METADATA_FNAME)
            ≠ Some (BMetadata md)) ∧
     w_storage w1 = w_storage w ∧
     storages_left_open (trace_since w w1) = 1 ∧
     event_loops_left_open (trace_since w w1) = 1).
Proof.
  split.
  - intros md self1 w1 Hrun.
    destruct (metadata_result _ _ _ _ _ Hrun) as (Hp & Hpg & Hs1 & Hcached & Hagain).
    pose proof (same_storage_metadata self w) as Hst. rewrite Hrun in Hst.
    do 4 (split; [done|]). split; [done|].
    destruct (s_metadata self) as [md0|] eqn:Hmd.
    + destruct (Hcached md0 eq_refl) as [-> ->].
      unfold metadata in Hrun. rewrite Hmd in Hrun. by injection Hrun as ->.
    + destruct w as [dicts rng states storage0 trace].
      unfold metadata, _read_snapshot_metadata, sync_read, bind, emit, ret, raise in Hrun.
      rewrite Hmd in Hrun. simpl in Hrun.
      destruct (storage0 !! s_path self ≫= _) as [[v|m]|] eqn:Hdoc; simpl in Hrun;
        simplify_eq.
      split; [done|]. unfold trace_since. simpl.
      by rewrite <- !app_assoc, drop_app_length.
  - intros e w1 Hrun.
    pose proof (same_storage_metadata self w) as Hst. rewrite Hrun in Hst.
    destruct w as [dicts rng states storage0 trace].
    unfold metadata, _read_snapshot_metadata, sync_read, bind, emit, ret, raise in Hrun.
    destruct (s_metadata self) as [md0|] eqn:Hmd; [done|]. simpl in Hrun.
    split; [done|].
    destruct (storage0 !! s_path self ≫= _) as [[v|m]|] eqn:Hdoc; simpl in Hrun;
      [|done|]; injection Hrun as <- <-; simpl;
      (split; [intros md; by rewrite Hdoc|]); (split; [done|]);
      unfold trace_since; simpl; rewrite <- ?app_assoc, drop_app_length; done.
Qed.

(** ** The background commit *)

Ltac invert_split :=
  repeat match goal with
  | H : ?pre ++ _ :: _ = _ |- _ => destruct pre; simpl in H; simplify_eq
  | H : _ = ?pre ++ _ :: _ |- _ => destruct pre; simpl in H; simplify_eq
  end.

(** X13.  In the background commit of
    [async_take] a storage write of [_complete_snapshot] is the write of
    [.snapshot_metadata] to the storage of the snapshot, on rank 0 only, right
    after the completion of the pending writes and the arrival at the
    barrier, both of which returned; no other write follows. *)
Theorem X13_async_metadata_written_by_rank_0_after_arrive self kw env w pre url file post :
  trace_since w (_complete_snapshot self kw env w).2 = pre ++ EvSyncWrite url file :: post →
  t_rank kw = 0 ∧ url = t_storage kw ∧ file = SNAPSHOT_METADATA_FNAME ∧
  e_sync_complete env = None ∧ e_arrive env = None ∧ e_write_metadata env = None ∧
  pre = [EvSyncComplete; EvBarrierArrive] ∧
  Forall (λ ev, is_sync_write ev = false) post.
Proof.
  destruct (complete_snapshot_run self kw env w) as (w' & E & Et).
  rewrite E. simpl. rewrite Et. unfold commit_steps, commit_failure.
  destruct (e_sync_complete env) as [m1|], (e_arrive env) as [m2|],
    (decide (t_rank kw = 0)) as [Hr|Hr];
    [rewrite ?(bool_decide_true _ Hr)|rewrite ?(bool_decide_false _ Hr)..];
    try rewrite (bool_decide_true _ Hr); try rewrite (bool_decide_false _ Hr);
    destruct (e_write_metadata env) as [m3|], (e_depart env) as [m4|]; simpl;
    intros Heq; invert_split; repeat split; by repeat constructor.
Qed.

Lemma X13_witness :
  t_rank Ex2.kw = 0 ∧ "/tmp/snap" = t_storage Ex2.kw ∧
  ".snapshot_metadata" = SNAPSHOT_METADATA_FNAME ∧
  e_sync_complete Ex.env = None ∧ e_arrive Ex.env = None ∧ e_write_metadata Ex.env = None ∧
  [EvSyncComplete; EvBarrierArrive] = [EvSyncComplete; EvBarrierArrive] ∧
  Forall (λ ev, is_sync_write ev = false)
         [EvBarrierDepart; EvSyncClose "/tmp/snap"; EvLoopClose].
Proof.
  apply (X13_async_metadata_written_by_rank_0_after_arrive Ex2.handle Ex2.kw Ex.env Ex.world0
           [EvSyncComplete; EvBarrierArrive] "/tmp/snap" ".snapshot_metadata"
           [EvBarrierDepart; EvSyncClose "/tmp/snap"; EvLoopClose]).
  vm_compute. reflexivity.
Defined.

(** ** What [take] returns and what it writes *)

Lemma metadata_read_run self w md :
  s_metadata self = None →
  w_storage w !! s_path self ≫= (.!! SNAPSHOT_METADATA_FNAME) = Some (BMetadata md) →
  metadata self w =
  (Ok (md, {| s_path := s_path self; s_pg := s_pg self; s_metadata := Some md |}),
   World (w_dicts w) (w_rng w) (w_states w) (w_storage w)
         (w_trace w ++ [EvNewEventLoop; EvOpenStorage (s_path self);
                        EvSyncRead (s_path self) SNAPSHOT_METADATA_FNAME;
                        EvSyncClose (s_path self); EvLoopClose])).
Proof.
  intros Hmd Hdoc. destruct w as [dicts rng states storage0 trace]. simpl in Hdoc.
  unfold metadata, _read_snapshot_metadata, sync_read, bind, emit, ret. rewrite Hmd. simpl.
  rewrite Hdoc. simpl. by rewrite <- !app_assoc.
Qed.

(** X14.  When [take] returns on a valid [app_state], the completion
    of the writes did not fail, nor did, on rank 0, the write of the metadata
    document.  The snapshot it returns is for rank 0's path and the process
    group, and its metadata (the version, the world size of the process
    group, the gathered manifest) is kept on the object: [metadata] and
    [get_manifest] on it return without an event. *)
Theorem X14_take_outcome path app_state pg replicated env w items s w' :
  w_dicts w !! app_state = Some items →
  all_Stateful items = true →
  size (rng_state_items items) ≤ 1 →
  0 < get_world_size pg →
  take path app_state pg replicated env w = (Ok s, w') →
  let md := {| version := e_version env; world_size := get_world_size pg;
               manifest := e_manifest env |} in
  s = {| s_path := coalesced_path path pg env; s_pg := pg; s_metadata := Some md |} ∧
  e_sync_complete env = None ∧
  (get_rank pg = 0 → e_write_metadata env = None) ∧
  ∀ w2, metadata s w2 = (Ok (md, s), w2) ∧ get_manifest s w2 = (Ok (e_manifest env, s), w2).
Proof.
  intros Hl Hall Hsz Hws Htake md.
  pose proof (f_equal fst Htake) as Hres. simpl in Hres.
  rewrite take_split in Hres.
  destruct (take_prefix_run path app_state pg replicated false env w items)
    as (cdelta & _ & Ep); try done.
  erewrite bind_ok in Hres by exact Ep. simpl in Hres.
  match type of Hres with
  | (take_commit ?p ?g ?io ?m ?e ?w0).1 = _ =>
      destruct (take_commit_run p g io m e w0) as (Er & _)
  end.
  rewrite Er in Hres. unfold take_commit_outcome in Hres.
  destruct (e_sync_complete env); [done|].
  case_bool_decide as Hr.
  - destruct (e_write_metadata env); [done|]. by simplify_eq.
  - by simplify_eq.
Qed.

Lemma X14_witness :
  let md := {| version := e_version Ex.env; world_size := get_world_size Ex.pg0;
               manifest := e_manifest Ex.env |} in
  Ex2.taken =
    {| s_path := coalesced_path "/tmp/snap" Ex.pg0 Ex.env; s_pg := Ex.pg0;
       s_metadata := Some md |} ∧
  e_sync_complete Ex.env = None ∧
  (get_rank Ex.pg0 = 0 → e_write_metadata Ex.env = None) ∧
  ∀ w2, metadata Ex2.taken w2 = (Ok (md, Ex2.taken), w2) ∧
        get_manifest Ex2.taken w2 = (Ok (e_manifest Ex.env, Ex2.taken), w2).
Proof.
  apply (X14_take_outcome "/tmp/snap" 5 Ex.pg0 None Ex.env Ex.world0 Ex.app_state Ex2.taken
           (take "/tmp/snap" 5 Ex.pg0 None Ex.env Ex.world0).2);
    [reflexivity|vm_compute; reflexivity|vm_compute; lia|vm_compute; lia
    |vm_compute; reflexivity].
Defined.

Lemma complete_snapshot_commits self kw env w :
  commit_failure (t_rank kw) env = None → t_rank kw = 0 →
  ∃ w', _complete_snapshot self kw env w = (Ok (set_done self), w') ∧
        w_storage w' !! t_storage kw ≫= (.!! SNAPSHOT_METADATA_FNAME)
          = Some (BMetadata (t_metadata kw)).
Proof.
  intros Hc Hr. unfold commit_failure in Hc. rewrite Hr in Hc.
  rewrite bool_decide_true in Hc by done.
  destruct (e_sync_complete env) eqn:E1; [done|]. destruct (e_arrive env) eqn:E2; [done|].
  destruct (e_write_metadata env) eqn:E3; [done|].
  destruct w as [dicts rng states storage0 trace].
  unfold _complete_snapshot, try_finally, try_except, sync_complete, arrive, depart,
    _write_snapshot_metadata, sync_write, bind, emit, ret, external.
  rewrite E1, E2, E3, Hc, Hr. simpl.
  eexists. split; [reflexivity|]. simpl.
  rewrite lookup_insert_eq. simpl. by rewrite lookup_insert_eq.
Qed.

(** X15.  On rank 0, after an [async_take] on a valid
    [app_state] whose background commit does not fail, [wait] returns a
    snapshot without metadata on the object, and the first access to
    [metadata] on it reads from the storage the document the commit wrote:
    the version, the world size and the manifest of [_take_impl]. *)
Theorem X15_async_take_metadata_round_trip path app_state pg replicated env env' w items :
  w_dicts w !! app_state = Some items →
  all_Stateful items = true →
  size (rng_state_items items) ≤ 1 →
  get_rank pg = 0 → 0 < get_world_size pg →
  commit_failure 0 env' = None →
  let md := {| version := e_version env; world_size := get_world_size pg;
               manifest := e_manifest env |} in
  let path0 := coalesced_path path pg env in
  ∃ ps w1 ps' w2 w3,
    async_take path app_state pg replicated env w = (Ok ps, w1) ∧
    wait ps env' w1 = (Ok (Snapshot_init path0 pg, ps'), w2) ∧
    metadata (Snapshot_init path0 pg) w2 =
      (Ok (md, {| s_path := path0; s_pg := pg; s_metadata := Some md |}), w3) ∧
    trace_since w2 w3 =
      [EvNewEventLoop; EvOpenStorage path0; EvSyncRead path0 SNAPSHOT_METADATA_FNAME;
       EvSyncClose path0; EvLoopClose].
Proof.
  intros Hl Hall Hsz Hr Hws Hc md path0.
  destruct (take_prefix_run path app_state pg replicated true env w items)
    as (cdelta & _ & Ep); try done.
  set (res := take_impl_result items (w_states w) pg env (w_rng w)) in Ep.
  set (ps0 := new_handle path0 res.1 pg res.2 path0).
  assert (∃ w1, async_take path app_state pg replicated env w = (Ok ps0, w1)) as [w1 Ea].
  { rewrite async_take_split. erewrite bind_ok by exact Ep.
    rewrite PendingSnapshot_init_run. eexists. reflexivity. }
  set (kw := {| t_path := path0; t_rank := get_rank pg; t_world_size := get_world_size pg;
                t_pending_io_work := res.1; t_metadata := res.2; t_storage := path0 |}).
  destruct (complete_snapshot_commits ps0 kw env' w1) as (w2 & Ecs & Hdoc);
    [simpl; by rewrite Hr|done|].
  simpl in Hdoc.
  exists ps0, w1, (set_joined (set_done ps0)), w2.
  eexists. split; [done|]. split; [|split; [by apply metadata_read_run|]].
  - unfold wait, thread_join. simpl. fold kw.
    erewrite bind_ok; [|by erewrite bind_ok by exact Ecs]. done.
  - unfold trace_since. simpl. by rewrite drop_app_length.
Qed.

Lemma X15_witness :
  let md := {| version := e_version Ex.env; world_size := get_world_size Ex.pg0;
               manifest := e_manifest Ex.env |} in
  let path0 := coalesced_path "/tmp/snap" Ex.pg0 Ex.env in
  ∃ ps w1 ps' w2 w3,
    async_take "/tmp/snap" 5 Ex.pg0 None Ex.env Ex.world0 = (Ok ps, w1) ∧
    wait ps Ex.env w1 = (Ok (Snapshot_init path0 Ex.pg0, ps'), w2) ∧
    metadata (Snapshot_init path0 Ex.pg0) w2 =
      (Ok (md, {| s_path := path0; s_pg := Ex.pg0; s_metadata := Some md |}), w3) ∧
    trace_since w2 w3 =
      [EvNewEventLoop; EvOpenStorage path0; EvSyncRead path0 SNAPSHOT_METADATA_FNAME;
       EvSyncClose path0; EvLoopClose].
Proof.
  apply (X15_async_take_metadata_round_trip "/tmp/snap" 5 Ex.pg0 None Ex.env Ex.env Ex.world0
           Ex.app_state);
    [reflexivity|vm_compute; reflexivity|vm_compute; lia|reflexivity|vm_compute; lia
    |reflexivity].
Defined.

(** ** Frame properties of the storage *)

#[global] Instance same_storage_at_preorder url : PreOrder (same_storage_at url).
Proof. split; [done|]. unfold same_storage_at. intros w1 w2 w3 H1 H2. congruence. Qed.

Lemma same_storage_same_storage_at url w w' : same_storage w w' → same_storage_at url w w'.
Proof. unfold same_storage, same_storage_at. by intros ->. Qed.

Lemma same_storage_dict_copy d : keeps same_storage (dict_copy d).
Proof. by intros w. Qed.

Lemma same_storage_dict_delitem d key : keeps same_storage (dict_delitem d key).
Proof. by intros w. Qed.

Lemma same_storage_state_dict key o : keeps same_storage (state_dict key o).
Proof. intros w. unfold state_dict, bind, emit. simpl. by destruct (o_kind o). Qed.

Lemma same_storage_load_state_dict key o sd : keeps same_storage (load_state_dict key o sd).
Proof. intros w. unfold load_state_dict, bind, emit. simpl. by destruct (o_kind o). Qed.

#[global] Hint Resolve same_storage_dict_copy same_storage_dict_delitem
  same_storage_state_dict same_storage_load_state_dict : keeps.

Lemma same_storage_pop_rng_state d : keeps same_storage (_pop_rng_state d).
Proof. unfold _pop_rng_state. keeps_auto. Qed.

Lemma same_storage_take_loop d global_keys : ∀ flattened,
  keeps same_storage (take_loop d global_keys flattened).
Proof.
  induction global_keys as [|key rest IH]; intros flattened; simpl; [keeps_auto|].
  unfold barrier. keeps_auto.
Qed.

Lemma same_storage_take_impl path d replicated pg storage is_async env :
  keeps same_storage (_take_impl path d replicated pg storage is_async env).
Proof.
  unfold _take_impl.
  repeat first
    [ progress cbv zeta
    | apply same_storage_pop_rng_state
    | apply same_storage_take_loop
    | solve [eauto with keeps]
    | apply keeps_ret; apply _
    | apply keeps_dict_items; apply _
    | apply keeps_bind; [apply _ | | intros ?]
    | apply keeps_for_each; [apply _ | intros ?]
    | match goal with |- keeps _ (match ?x with _ => _ end) => destruct x end ].
Qed.

Lemma same_storage_take_prefix path d pg replicated is_async env :
  keeps same_storage (take_prefix path d pg replicated is_async env).
Proof.
  unfold take_prefix.
  apply keeps_bind; [apply _|apply keeps_validate_app_state; apply _|intros _].
  apply keeps_bind; [apply _|apply same_storage_emit|intros _].
  apply keeps_bind; [apply _| |intros pc].
  { eapply keeps_weaken; [|apply coalesce_only_trace]. apply only_trace_same_storage. }
  apply keeps_bind; [apply _|apply same_storage_emit|intros _].
  apply keeps_bind; [apply _|apply same_storage_take_impl|intros im].
  apply keeps_ret; apply _.
Qed.

Lemma same_storage_at_emit url ev : keeps (same_storage_at url) (emit ev).
Proof. by intros w. Qed.

Lemma same_storage_at_sync_complete url pending storage env :
  url ≠ storage → keeps (same_storage_at url) (sync_complete pending storage env).
Proof.
  intros Hne w. unfold sync_complete, bind, external, emit, same_storage_at.
  destruct (e_sync_complete env); simpl; [done|]. by rewrite lookup_insert_ne.
Qed.

Lemma same_storage_at_write_metadata url md storage env :
  url ≠ storage → keeps (same_storage_at url) (_write_snapshot_metadata md storage env).
Proof.
  intros Hne w. unfold _write_snapshot_metadata, sync_write, bind, external, emit,
    same_storage_at.
  destruct (e_write_metadata env); simpl; [done|]. by rewrite lookup_insert_ne.
Qed.

Lemma same_storage_at_external url o : keeps (same_storage_at url) (external o).
Proof. apply keeps_external; apply _. Qed.

Lemma same_storage_at_take_commit url path pg pending md env :
  url ≠ path → keeps (same_storage_at url) (take_commit path pg pending md env).
Proof.
  intros Hne. unfold take_commit, barrier.
  apply keeps_bind; [apply _|by apply same_storage_at_sync_complete|intros _].
  apply keeps_bind; [apply _|apply same_storage_at_emit|intros _].
  apply keeps_bind; [apply _| |intros _].
  { case_bool_decide; [by apply same_storage_at_write_metadata|apply keeps_ret; apply _]. }
  apply keeps_bind; [apply _|apply same_storage_at_emit|intros _].
  apply keeps_bind; [apply _|apply same_storage_at_emit|intros _].
  apply keeps_ret; apply _.
Qed.

Lemma same_storage_at_complete_snapshot url self kw env :
  url ≠ t_storage kw → keeps (same_storage_at url) (_complete_snapshot self kw env).
Proof.
  intros Hne. unfold _complete_snapshot, arrive, depart, report_error. cbv zeta.
  apply keeps_bind; [apply _| |intros ?; apply keeps_ret; apply _].
  apply keeps_try_finally; [apply _| |].
  - apply keeps_try_except; [apply _| |intros e].
    + apply keeps_bind; [apply _|by apply same_storage_at_sync_complete|intros _].
      apply keeps_bind; [apply _| |intros _].
      { apply keeps_bind; [apply _|apply same_storage_at_external|intros _].
        apply same_storage_at_emit. }
      apply keeps_bind; [apply _| |intros _].
      { case_bool_decide; [by apply same_storage_at_write_metadata|apply keeps_ret; apply _]. }
      apply keeps_bind; [apply _| |intros _; apply keeps_ret; apply _].
      apply keeps_bind; [apply _|apply same_storage_at_external|intros _].
      apply same_storage_at_emit.
    + apply keeps_bind; [apply _|apply same_storage_at_emit|intros _].
      apply keeps_bind; [apply _|apply same_storage_at_emit|intros _].
      apply keeps_ret; apply _.
  - apply keeps_bind; [apply _|apply same_storage_at_emit|intros _].
    apply same_storage_at_emit.
Qed.

(** X16.  [take] writes under the path of rank 0 only: the
    storage at any other URL holds after the call what it held before, whether
    [take] returns or raises.  The same holds of [async_take] and of the
    background commit that follows it. *)
Theorem X16_take_writes_only_under_its_path path app_state pg replicated env w url :
  url ≠ coalesced_path path pg env →
  w_storage (take path app_state pg replicated env w).2 !! url = w_storage w !! url ∧
  w_storage (async_take path app_state pg replicated env w).2 !! url = w_storage w !! url ∧
  ∀ ps w1 env', async_take path app_state pg replicated env w = (Ok ps, w1) →
    w_storage (thread_join ps env' w1).2 !! url = w_storage w !! url.
Proof.
  intros Hne.
  pose proof (same_storage_take_prefix path app_state pg replicated false env w) as Hp.
  pose proof (same_storage_take_prefix path app_state pg replicated true env w) as Hpa.
  unfold same_storage in Hp, Hpa.
  split; [|split].
  - rewrite take_split. unfold bind.
    destruct (take_prefix path app_state pg replicated false env w) as [[x|e] w1] eqn:Ep;
      simpl in Hp |- *; [|by rewrite Hp].
    apply take_prefix_path in Ep.
    pose proof (same_storage_at_take_commit url x.1 pg x.2.1 x.2.2 env) as Hc.
    rewrite Ep in Hc. specialize (Hc Hne w1). unfold same_storage_at in Hc.
    rewrite Ep, Hc. by rewrite Hp.
  - rewrite async_take_split. unfold bind.
    destruct (take_prefix path app_state pg replicated true env w) as [[x|e] w1];
      simpl in *; by rewrite Hpa.
  - intros ps w1 env'. rewrite async_take_split. unfold bind.
    destruct (take_prefix path app_state pg replicated true env w) as [[x|e] w0] eqn:Ep;
      [|done].
    apply take_prefix_path in Ep. simpl in Hpa.
    rewrite PendingSnapshot_init_run.
    assert (w_storage (emit EvGetOrCreateStore w0).2 = w_storage w) as Hpa' by done.
    remember (emit EvGetOrCreateStore w0).2 as w1' eqn:Ew1. clear Ew1. intros [= <- <-].
    set (ps0 := new_handle x.1 x.2.1 pg x.2.2 x.1).
    set (kw := {| t_path := x.1; t_rank := get_rank pg; t_world_size := get_world_size pg;
                  t_pending_io_work := x.2.1; t_metadata := x.2.2; t_storage := x.1 |}).
    assert (url ≠ t_storage kw) as Hne' by (simpl; by rewrite Ep).
    pose proof (same_storage_at_complete_snapshot url ps0 kw env' Hne' w1') as Hc.
    unfold same_storage_at in Hc.
    change (thread_join ps0 env' w1') with
      (bind (_complete_snapshot ps0 kw env') (λ self, ret (set_joined self)) w1').
    unfold bind.
    destruct (_complete_snapshot ps0 kw env' w1') as [[self'|e] w2]; simpl in *;
      by rewrite Hc, Hpa'.
Qed.

Lemma X16_witness :
  w_storage (take "/tmp/snap" 5 Ex.pg0 None Ex.env Ex2.world_stored).2 !! "/tmp/other" =
    w_storage Ex2.world_stored !! "/tmp/other" ∧
  w_storage (async_take "/tmp/snap" 5 Ex.pg0 None Ex.env Ex2.world_stored).2 !! "/tmp/other" =
    w_storage Ex2.world_stored !! "/tmp/other" ∧
  ∀ ps w1 env', async_take "/tmp/snap" 5 Ex.pg0 None Ex.env Ex2.world_stored = (Ok ps, w1) →
    w_storage (thread_join ps env' w1).2 !! "/tmp/other" =
    w_storage Ex2.world_stored !! "/tmp/other".
Proof.
  apply (X16_take_writes_only_under_its_path "/tmp/snap" 5 Ex.pg0 None Ex.env Ex2.world_stored
           "/tmp/other").
  vm_compute. discriminate.
Defined.

Lemma same_storage_read_locations storage locations :
  keeps same_storage (read_locations storage locations).
Proof.
  induction locations as [|l ls IH]; unfold read_locations; fold read_locations;
    keeps_auto.
Qed.

Lemma same_storage_load_stateful self key stateful storage pg env :
  keeps same_storage (_load_stateful self key stateful storage pg env).
Proof.
  unfold _load_stateful.
  repeat first
    [ progress cbv zeta
    | apply same_storage_metadata
    | solve [eauto with keeps]
    | apply keeps_ret; apply _
    | apply keeps_raise; apply _
    | apply keeps_external; apply _
    | apply keeps_bind; [apply _ | | intros ?]
    | apply keeps_for_each; [apply _ | intros ?]
    | apply keeps_read_entries; [apply _ | intros ? ?]
    | match goal with |- keeps _ (match ?x with _ => _ end) => destruct x end ].
Qed.

Lemma same_storage_restore_loop d global_keys storage pg env : ∀ self,
  keeps same_storage (restore_loop self d global_keys storage pg env).
Proof.
  induction global_keys as [|key rest IH]; intros self; simpl; [keeps_auto|].
  apply keeps_bind; [apply _|apply keeps_dict_items; apply _|intros items].
  apply keeps_bind; [apply _|apply same_storage_load_stateful|intros self1].
  apply keeps_bind; [apply _|apply same_storage_emit|intros _]. apply IH.
Qed.

Lemma same_storage_restore self app_state env :
  keeps same_storage (restore self app_state env).
Proof.
  unfold restore. cbv zeta.
  apply keeps_bind; [apply _|apply keeps_validate_app_state; apply _|intros _].
  apply keeps_bind; [apply _|apply same_storage_emit|intros _].
  apply keeps_bind; [apply _|apply same_storage_emit|intros _].
  apply keeps_bind; [apply _|apply same_storage_dict_copy|intros d].
  apply keeps_bind; [apply _|apply same_storage_pop_rng_state|intros rng_state_item].
  apply keeps_bind; [apply _|apply keeps_dict_items; apply _|intros items].
  apply keeps_bind; [apply _|apply same_storage_emit|intros _].
  apply keeps_bind; [apply _|apply same_storage_restore_loop|intros self1].
  apply keeps_bind; [apply _| |intros self2].
  { destruct rng_state_item as [[key stateful]|];
      [apply same_storage_load_stateful|apply keeps_ret; apply _]. }
  apply keeps_bind; [apply _|apply same_storage_emit|intros _].
  apply keeps_bind; [apply _|apply same_storage_emit|intros _].
  apply keeps_ret; apply _.
Qed.

Lemma same_storage_read_object gm self path obj_out budget env :
  keeps same_storage (read_object gm self path obj_out budget env).
Proof.
  unfold read_object.
  destruct (split_once path) as [[rank_str unranked]|]; [|apply keeps_raise; apply _].
  destruct (int rank_str) as [rank|]; [|apply keeps_raise; apply _].
  apply keeps_bind; [apply _|apply same_storage_metadata|intros ms]. cbv zeta.
  case_bool_decide; [apply keeps_raise; apply _|].
  repeat first
    [ apply same_storage_read_locations
    | apply same_storage_emit
    | apply keeps_ret; apply _
    | apply keeps_raise; apply _
    | apply keeps_external; apply _
    | apply keeps_bind; [apply _ | | intros ?]
    | match goal with |- keeps _ (match ?x with _ => _ end) => destruct x end
    | match goal with |- keeps _ (if ?x then _ else _) => destruct x end ].
Qed.

(** X17.  [restore], [read_object], [get_manifest] and [metadata]
    never write: the storage holds after the call what it held before,
    whether the call returns or raises. *)
Theorem X17_reading_never_writes gm self app_state path obj_out budget env w :
  w_storage (restore self app_state env w).2 = w_storage w ∧
  w_storage (read_object gm self path obj_out budget env w).2 = w_storage w ∧
  w_storage (get_manifest self w).2 = w_storage w ∧
  w_storage (metadata self w).2 = w_storage w.
Proof.
  split; [|split; [|split]].
  - apply same_storage_restore.
  - apply same_storage_read_object.
  - unfold get_manifest.
    apply (keeps_bind same_storage (metadata self)); [apply same_storage_metadata|].
    intros ms. apply keeps_ret; apply _.
  - apply same_storage_metadata.
Qed.

(** ** [restore] on a rank without objects, and without a snapshot *)

Lemma restore_loop_absent self d storage pg env items global_keys : ∀ w,
  w_dicts w !! d = Some items →
  (∀ k, k ∈ global_keys → items !! k = None) →
  restore_loop self d global_keys storage pg env w =
  (Ok self, World (w_dicts w) (w_rng w) (w_states w) (w_storage w)
                  (w_trace w ++ replicate (length global_keys) EvBarrier)).
Proof.
  induction global_keys as [|key rest IH]; intros w Hl Hnone.
  - simpl. unfold ret. rewrite app_nil_r. by destruct w.
  - simpl. erewrite bind_ok by reflexivity. rewrite Hl. simpl.
    rewrite (Hnone key) by (by left).
    unfold _load_stateful. erewrite bind_ok by reflexivity.
    unfold barrier. erewrite bind_ok by reflexivity.
    rewrite IH; [|done|intros k Hk; apply Hnone; by right].
    simpl. by rewrite <- app_assoc.
Qed.

(** X18.  On a rank whose [app_state] is empty, [restore] returns
    without reading anything, not even the metadata of the snapshot: it opens
    the storage plugin, takes part in the all-gather of the keys, passes one
    barrier for each global key, and closes the storage plugin and the event
    loop. *)
Theorem X18_restore_without_objects self app_state env w :
  w_dicts w !! app_state = Some ∅ →
  let global_keys := _gather_keys [] (s_pg self) (e_keys env) in
  ∃ w',
    restore self app_state env w = (Ok self, w') ∧
    w_rng w' = w_rng w ∧ w_states w' = w_states w ∧ w_storage w' = w_storage w ∧
    trace_since w w' =
      [EvNewEventLoop; EvOpenStorage (s_path self); EvAllGather] ++
      replicate (length global_keys) EvBarrier ++
      [EvSyncClose (s_path self); EvLoopClose].
Proof.
  intros Hl global_keys. unfold restore.
  erewrite bind_ok
    by (eapply validate_app_state_ok; [exact Hl|];
        unfold all_Stateful; by rewrite map_to_list_empty).
  do 3 erewrite bind_ok by reflexivity. simpl. rewrite Hl. simpl.
  erewrite bind_ok; cycle 1.
  { apply (pop_rng_state_ok _ _ ∅); [simpl; apply lookup_insert_eq|].
    unfold rng_state_items. rewrite map_filter_empty, map_size_empty. lia. }
  assert (popped_item (∅ : AppState) = None) as Hp.
  { unfold popped_item, rng_state_items. by rewrite map_filter_empty, map_to_list_empty. }
  assert (popped_items (∅ : AppState) = ∅) as Hpi by (unfold popped_items; by rewrite Hp).
  rewrite Hp, Hpi. unfold set_dicts. simpl. rewrite insert_insert_eq.
  erewrite bind_ok by reflexivity. simpl. rewrite lookup_insert_eq. simpl.
  rewrite map_to_list_empty. simpl. fold global_keys.
  erewrite bind_ok by reflexivity. simpl.
  erewrite bind_ok; cycle 1.
  { apply (restore_loop_absent _ _ _ _ _ ∅); [simpl; apply lookup_insert_eq|done]. }
  simpl. do 3 erewrite bind_ok by reflexivity. simpl.
  eexists. split; [reflexivity|]. simpl. do 3 (split; [done|]).
  unfold trace_since. simpl. rewrite <- !app_assoc. by rewrite drop_app_length.
Qed.

Lemma X18_witness :
  let global_keys := _gather_keys [] (s_pg Ex.snapshot) (e_keys Ex.env) in
  ∃ w',
    restore Ex.snapshot 5 Ex.env Ex2.world_empty = (Ok Ex.snapshot, w') ∧
    w_rng w' = w_rng Ex2.world_empty ∧ w_states w' = w_states Ex2.world_empty ∧
    w_storage w' = w_storage Ex2.world_empty ∧
    trace_since Ex2.world_empty w' =
      [EvNewEventLoop; EvOpenStorage (s_path Ex.snapshot); EvAllGather] ++
      replicate (length global_keys) EvBarrier ++
      [EvSyncClose (s_path Ex.snapshot); EvLoopClose].
Proof. apply (X18_restore_without_objects Ex.snapshot 5 Ex.env Ex2.world_empty). reflexivity. Defined.

Lemma load_stateful_missing self key o storage pg env w :
  s_metadata self = None →
  w_storage w !! s_path self ≫= (.!! SNAPSHOT_METADATA_FNAME) = None →
  _load_stateful self key (Some o) storage pg env w =
  (Raise (Exn "FileNotFoundError" SNAPSHOT_METADATA_FNAME),
   World (w_dicts w) (w_rng w) (w_states w) (w_storage w)
         (w_trace w ++ [EvNewEventLoop; EvOpenStorage (s_path self)])).
Proof.
  intros Hmd Hdoc. destruct w as [dicts rng states storage0 trace]. simpl in Hdoc.
  unfold _load_stateful, metadata, _read_snapshot_metadata, sync_read, bind, emit, ret.
  rewrite Hmd. simpl. rewrite Hdoc. simpl. by rewrite <- app_assoc.
Qed.

Lemma restore_loop_missing self d storage pg env items global_keys : ∀ w,
  w_dicts w !! d = Some items →
  s_metadata self = None →
  w_storage w !! s_path self ≫= (.!! SNAPSHOT_METADATA_FNAME) = None →
  ∃ r delta,
    restore_loop self d global_keys storage pg env w =
      (r, World (w_dicts w) (w_rng w) (w_states w) (w_storage w) (w_trace w ++ delta)) ∧
    Forall (λ ev, is_object_call ev = false) delta ∧
    (r = Raise (Exn "FileNotFoundError" SNAPSHOT_METADATA_FNAME) ∨
     r = Ok self ∧ ∀ k, k ∈ global_keys → items !! k = None).
Proof.
  induction global_keys as [|key rest IH]; intros w Hl Hmd Hdoc.
  - exists (Ok self), []. simpl. unfold ret. rewrite app_nil_r.
    split; [by destruct w|]. split; [constructor|]. right. split; [done|].
    by intros k ?%elem_of_nil.
  - simpl. erewrite bind_ok by reflexivity. rewrite Hl. simpl.
    destruct (items !! key) as [o|] eqn:Hk.
    + erewrite bind_raise by (by apply load_stateful_missing).
      eexists _, _. split; [reflexivity|]. split; [by repeat constructor|by left].
    + unfold _load_stateful. erewrite bind_ok by reflexivity.
      unfold barrier. erewrite bind_ok by reflexivity.
      destruct (IH (emit EvBarrier w).2) as (r & delta & E & F & Hr); try done.
      simpl in E. rewrite E. exists r, (EvBarrier :: delta).
      split; [by rewrite <- app_assoc|]. split; [by constructor|].
      destruct Hr as [?|[? Hnone]]; [by left|]. right. split; [done|].
      intros k [->|?]%elem_of_cons; [done|by apply Hnone].
Qed.

(** X19.  When the snapshot has no metadata on the object and the
    storage holds no [.snapshot_metadata] at its path, [restore] on a
    non-empty valid [app_state] raises a [FileNotFoundError] before it calls
    [state_dict] or [load_state_dict] of any object: the states of the
    objects, the generator and the storage are as before. *)
Theorem X19_restore_missing_snapshot self app_state env w items key0 stateful0 :
  w_dicts w !! app_state = Some items →
  all_Stateful items = true →
  size (rng_state_items items) ≤ 1 →
  items !! key0 = Some stateful0 →
  get_rank (s_pg self) < get_world_size (s_pg self) →
  s_metadata self = None →
  w_storage w !! s_path self ≫= (.!! SNAPSHOT_METADATA_FNAME) = None →
  ∃ w',
    restore self app_state env w =
      (Raise (Exn "FileNotFoundError" SNAPSHOT_METADATA_FNAME), w') ∧
    w_rng w' = w_rng w ∧ w_states w' = w_states w ∧ w_storage w' = w_storage w ∧
    Forall (λ ev, is_object_call ev = false) (trace_since w w').
Proof.
  intros Hl Hall Hsz Hne Hr Hmd Hdoc. unfold restore.
  erewrite bind_ok by (by eapply validate_app_state_ok).
  do 3 erewrite bind_ok by reflexivity. simpl. rewrite Hl. simpl.
  erewrite bind_ok; cycle 1.
  { apply (pop_rng_state_ok _ _ items); [|done]. simpl. apply lookup_insert_eq. }
  unfold set_dicts. simpl. rewrite insert_insert_eq.
  erewrite bind_ok by reflexivity. simpl. rewrite lookup_insert_eq. simpl.
  erewrite bind_ok by reflexivity. simpl.
  match goal with
  | |- context [bind (restore_loop self ?d ?gk (s_path self) (s_pg self) env) _ ?w0] =>
      destruct (restore_loop_missing self d (s_path self) (s_pg self) env
                  (popped_items items) gk w0) as (r & delta & E & F & Hres);
        [simpl; apply lookup_insert_eq|done|done|]
  end.
  simpl in E.
  assert (∀ d0,
            Forall (λ ev, is_object_call ev = false) d0 →
            Forall (λ ev, is_object_call ev = false)
                   (drop (length (w_trace w))
                      ((((w_trace w ++ [EvNewEventLoop]) ++ [EvOpenStorage (s_path self)]) ++
                        [EvAllGather]) ++ d0))) as Hdrop.
  { intros d0 H. rewrite <- !app_assoc, drop_app_length. simpl. by repeat constructor. }
  destruct Hres as [->|[-> Hnone]].
  - erewrite bind_raise by exact E.
    eexists. split; [reflexivity|]. simpl. do 3 (split; [done|]).
    unfold trace_since. simpl. by apply Hdrop.
  - erewrite bind_ok by exact E.
    destruct (popped_item items) as [[key stateful]|] eqn:Hp.
    + erewrite bind_raise by (by apply load_stateful_missing).
      eexists. split; [reflexivity|]. simpl. do 3 (split; [done|]).
      unfold trace_since. simpl. rewrite <- (app_assoc _ delta). apply Hdrop.
      apply Forall_app. split; [done|]. by repeat constructor.
    + exfalso. assert (popped_items items = items) as Hpi
        by (unfold popped_items; by rewrite Hp).
      rewrite Hpi in Hnone. rewrite (Hnone key0) in Hne; [done|].
      apply gather_keys_own; [done|].
      apply list_elem_of_fmap. exists (key0, stateful0). split; [done|].
      by apply elem_of_map_to_list.
Qed.

Lemma X19_witness :
  ∃ w',
    restore (Snapshot_init "/tmp/snap" Ex.pg0) 5 Ex.env Ex.world0 =
      (Raise (Exn "FileNotFoundError" SNAPSHOT_METADATA_FNAME), w') ∧
    w_rng w' = w_rng Ex.world0 ∧ w_states w' = w_states Ex.world0 ∧
    w_storage w' = w_storage Ex.world0 ∧
    Forall (λ ev, is_object_call ev = false) (trace_since Ex.world0 w').
Proof.
  apply (X19_restore_missing_snapshot (Snapshot_init "/tmp/snap" Ex.pg0) 5 Ex.env Ex.world0
           Ex.app_state "model" Ex.model);
    [reflexivity|vm_compute; reflexivity|vm_compute; lia|reflexivity|vm_compute; lia
    |reflexivity|reflexivity].
Defined.

(** ** Storage plugins and event loops of the runs that return *)

Lemma net_opened_app t1 t2 :
  net_opened (t1 ++ t2) =
  ((net_opened t1).1 + (net_opened t2).1, (net_opened t1).2 + (net_opened t2).2)%Z.
Proof.
  unfold net_opened. simpl. induction t1 as [|ev t1 IH]; simpl.
  - by destruct (foldr _ _ t2), (foldr _ _ t2).
  - injection IH as -> ->. f_equal; lia.
Qed.

Lemma net_opened_neutral t :
  Forall (λ ev, is_neutral ev = true) t → net_opened t = (0, 0)%Z.
Proof.
  unfold net_opened. induction 1 as [|ev t Hev _ IH]; simpl; [done|].
  injection IH as -> ->. apply bool_decide_eq_true in Hev as [-> ->]. done.
Qed.

Lemma opens_trace_since s l w w' : opens s l w w' → net_opened (trace_since w w') = (s, l).
Proof. intros (delta & E & H). by rewrite (trace_since_app _ _ _ E). Qed.

Lemma opens_trans s1 l1 s2 l2 w1 w2 w3 :
  opens s1 l1 w1 w2 → opens s2 l2 w2 w3 → opens (s1 + s2) (l1 + l2) w1 w3.
Proof.
  intros (d1 & E1 & H1) (d2 & E2 & H2). exists (d1 ++ d2).
  split; [by rewrite E2, E1, app_assoc|]. by rewrite net_opened_app, H1, H2.
Qed.

Lemma on_ok_ret {A} (a : A) : on_ok (opens 0 0) (ret a).
Proof. intros w a' w' [= <- <-]. exists []. by rewrite app_nil_r. Qed.

Lemma on_ok_raise R {A} e : on_ok R (@raise A e).
Proof. by intros w a w'. Qed.

Lemma on_ok_emit ev : on_ok (opens (storage_delta ev) (loop_delta ev)) (emit ev).
Proof.
  intros w a w' [= <- <-]. exists [ev]. split; [done|]. unfold net_opened. simpl.
  f_equal; lia.
Qed.

Lemma on_ok_bind s1 l1 s2 l2 {A B} (m : M A) (k : A → M B) :
  on_ok (opens s1 l1) m → (∀ a, on_ok (opens s2 l2) (k a)) →
  on_ok (opens (s1 + s2) (l1 + l2)) (bind m k).
Proof.
  intros Hm Hk w b w'. unfold bind. destruct (m w) as [[a|e] w1] eqn:E; [|done].
  intros Hka. eapply opens_trans; [by eapply Hm|by eapply Hk].
Qed.

Lemma on_ok_neutral {A} (m : M A) : keeps (grows_by is_neutral) m → on_ok (opens 0 0) m.
Proof.
  intros Hm w a w' E. specialize (Hm w). rewrite E in Hm. destruct Hm as (delta & Et & F).
  exists delta. split; [done|]. by apply net_opened_neutral.
Qed.

Lemma on_ok_bind_neutral s l {A B} (m : M A) (k : A → M B) :
  keeps (grows_by is_neutral) m → (∀ a, on_ok (opens s l) (k a)) →
  on_ok (opens s l) (bind m k).
Proof.
  intros Hm Hk. apply (on_ok_bind 0 0 s l m k); [by apply on_ok_neutral|done].
Qed.

Lemma neutral_take_impl path d replicated pg storage is_async env :
  keeps (grows_by is_neutral) (_take_impl path d replicated pg storage is_async env).
Proof.
  eapply keeps_weaken; [|apply grows_take_impl].
  intros w w'. apply grows_by_weaken. by intros [].
Qed.

Lemma neutral_coalesce path pg app_state replicated env :
  keeps (grows_by is_neutral) (_coalesce_path_and_replicated path pg app_state replicated env).
Proof.
  eapply keeps_weaken; [|apply coalesce_only_trace].
  intros w w' H%only_trace_grows. revert H. apply grows_by_weaken. by intros [].
Qed.

Lemma neutral_write_metadata md storage env :
  keeps (grows_by is_neutral) (_write_snapshot_metadata md storage env).
Proof. unfold _write_snapshot_metadata. keeps_auto. Qed.

Lemma neutral_validate app_state : keeps (grows_by is_neutral) (_validate_app_state app_state).
Proof. apply keeps_validate_app_state; apply _. Qed.

Lemma on_ok_take path app_state pg replicated env :
  on_ok (opens 0 0) (take path app_state pg replicated env).
Proof.
  unfold take, barrier. cbv zeta.
  apply on_ok_bind_neutral; [apply neutral_validate|intros _].
  apply (on_ok_bind 0 1 0 (-1)); [apply (on_ok_emit EvNewEventLoop)|intros _].
  apply on_ok_bind_neutral; [apply neutral_coalesce|intros pc].
  apply (on_ok_bind 1 0 (-1) (-1)); [apply (on_ok_emit (EvOpenStorage _))|intros _].
  apply on_ok_bind_neutral; [apply neutral_take_impl|intros im].
  apply on_ok_bind_neutral; [by apply grows_sync_complete|intros _].
  apply on_ok_bind_neutral; [by apply grows_emit|intros _].
  apply on_ok_bind_neutral.
  { case_bool_decide; [apply neutral_write_metadata|apply keeps_ret; apply _]. }
  intros _.
  apply (on_ok_bind (-1) 0 0 (-1)); [apply (on_ok_emit (EvSyncClose _))|intros _].
  apply (on_ok_bind 0 (-1) 0 0); [apply (on_ok_emit EvLoopClose)|intros _].
  apply on_ok_ret.
Qed.

Lemma on_ok_async_take path app_state pg replicated env :
  on_ok (opens 1 1) (async_take path app_state pg replicated env).
Proof.
  unfold async_take. cbv zeta.
  apply on_ok_bind_neutral; [apply neutral_validate|intros _].
  apply (on_ok_bind 0 1 1 0); [apply (on_ok_emit EvNewEventLoop)|intros _].
  apply on_ok_bind_neutral; [apply neutral_coalesce|intros pc].
  apply (on_ok_bind 1 0 0 0); [apply (on_ok_emit (EvOpenStorage _))|intros _].
  apply on_ok_bind_neutral; [apply neutral_take_impl|intros im].
  apply on_ok_neutral. unfold PendingSnapshot_init. keeps_auto.
Qed.

Lemma on_ok_metadata self : on_ok (opens 0 0) (metadata self).
Proof.
  unfold metadata. destruct (s_metadata self); [apply on_ok_ret|].
  apply (on_ok_bind 0 1 0 (-1)); [apply (on_ok_emit EvNewEventLoop)|intros _].
  apply (on_ok_bind 1 0 (-1) (-1)); [apply (on_ok_emit (EvOpenStorage _))|intros _].
  apply on_ok_bind_neutral.
  { unfold _read_snapshot_metadata. keeps_auto. }
  intros m.
  apply (on_ok_bind (-1) 0 0 (-1)); [apply (on_ok_emit (EvSyncClose _))|intros _].
  apply (on_ok_bind 0 (-1) 0 0); [apply (on_ok_emit EvLoopClose)|intros _].
  apply on_ok_ret.
Qed.

Lemma on_ok_load_stateful self key stateful storage pg env :
  on_ok (opens 0 0) (_load_stateful self key stateful storage pg env).
Proof.
  unfold _load_stateful. destruct stateful as [o|]; [|apply on_ok_ret].
  apply (on_ok_bind 0 0 0 0); [apply on_ok_metadata|intros ms]. cbv zeta.
  apply on_ok_neutral. keeps_auto.
Qed.

Lemma on_ok_restore_loop d global_keys storage pg env : ∀ self,
  on_ok (opens 0 0) (restore_loop self d global_keys storage pg env).
Proof.
  induction global_keys as [|key rest IH]; intros self; simpl; [apply on_ok_ret|].
  apply on_ok_bind_neutral; [apply keeps_dict_items; apply _|intros items].
  apply (on_ok_bind 0 0 0 0); [apply on_ok_load_stateful|intros self1].
  apply on_ok_bind_neutral; [by apply grows_emit|intros _]. apply IH.
Qed.

Lemma on_ok_restore self app_state env : on_ok (opens 0 0) (restore self app_state env).
Proof.
  unfold restore. cbv zeta.
  apply on_ok_bind_neutral; [apply neutral_validate|intros _].
  apply (on_ok_bind 0 1 0 (-1)); [apply (on_ok_emit EvNewEventLoop)|intros _].
  apply (on_ok_bind 1 0 (-1) (-1)); [apply (on_ok_emit (EvOpenStorage _))|intros _].
  apply on_ok_bind_neutral; [apply grows_dict_copy|intros d].
  apply on_ok_bind_neutral; [apply grows_pop_rng_state|intros rng_state_item].
  apply on_ok_bind_neutral; [apply keeps_dict_items; apply _|intros items].
  apply on_ok_bind_neutral; [by apply grows_emit|intros _].
  apply (on_ok_bind 0 0 (-1) (-1)); [apply on_ok_restore_loop|intros self1].
  apply (on_ok_bind 0 0 (-1) (-1)).
  { destruct rng_state_item as [[key stateful]|]; [apply on_ok_load_stateful|apply on_ok_ret]. }
  intros self2.
  apply (on_ok_bind (-1) 0 0 (-1)); [apply (on_ok_emit (EvSyncClose _))|intros _].
  apply (on_ok_bind 0 (-1) 0 0); [apply (on_ok_emit EvLoopClose)|intros _].
  apply on_ok_ret.
Qed.

Lemma neutral_read_locations storage locations :
  keeps (grows_by is_neutral) (read_locations storage locations).
Proof.
  induction locations as [|l ls IH]; unfold read_locations; fold read_locations;
    keeps_auto.
Qed.

(** X21.  A [take], a [restore] and an access to [metadata]
    that return have closed as many storage plugins and event loops as they
    opened.  A [read_object] that returns has done so when it read objects,
    and has left one storage plugin and one event loop open when it returned
    the value of a [PrimitiveEntry]. *)
Theorem X21_resources_closed_on_success :
  (∀ path app_state pg replicated env w s w',
     take path app_state pg replicated env w = (Ok s, w') →
     net_opened (trace_since w w') = (0, 0)%Z) ∧
  (∀ self app_state env w self' w',
     restore self app_state env w = (Ok self', w') →
     net_opened (trace_since w w') = (0, 0)%Z) ∧
  (∀ self w md self' w',
     metadata self w = (Ok (md, self'), w') →
     net_opened (trace_since w w') = (0, 0)%Z) ∧
  (∀ gm self path obj_out budget env w res self' w',
     read_object gm self path obj_out budget env w = (Ok (res, self'), w') →
     net_opened (trace_since w w') =
       match res with ReadPrimitive _ => (1, 1)%Z | ReadLoaded _ => (0, 0)%Z end).
Proof.
  split; [|split; [|split]].
  - intros path app_state pg replicated env w s w' E.
    by apply opens_trace_since, (on_ok_take _ _ _ _ _ _ _ _ E).
  - intros self app_state env w self' w' E.
    by apply opens_trace_since, (on_ok_restore _ _ _ _ _ _ E).
  - intros self w md self' w' E.
    by apply opens_trace_since, (on_ok_metadata _ _ _ _ E).
  - intros gm self path obj_out budget env w res self' w'. unfold read_object.
    destruct (split_once path) as [[rank_str unranked]|]; [|done].
    destruct (int rank_str) as [rank|]; [|done].
    unfold bind at 1. destruct (metadata self w) as [[ms|e] w1] eqn:Em; [|done].
    apply on_ok_metadata in Em. cbv zeta. case_bool_decide; [done|].
    unfold bind at 1.
    set (warn := if from_option is_Tensor false obj_out then ret tt
                 else emit (EvWarning "obj_out does not support in-place load")).
    assert (keeps (grows_by is_neutral) warn) as Hwarn by (unfold warn; keeps_auto).
    apply on_ok_neutral in Hwarn.
    destruct (warn w1) as [[[]|e] w2] eqn:Ew; [|done]. apply Hwarn in Ew.
    unfold bind at 1. unfold emit at 1. unfold bind at 1. unfold emit at 1.
    set (w3 := World _ _ _ _ _).
    assert (opens 1 1 w w3) as H3.
    { destruct Em as (d1 & E1 & N1), Ew as (d2 & E2 & N2).
      exists (d1 ++ d2 ++ [EvNewEventLoop; EvOpenStorage (s_path ms.2)]).
      split; [unfold w3; simpl; rewrite E2, E1; by rewrite <- !app_assoc|].
      rewrite !net_opened_app, N1, N2. done. }
    destruct (from_option Some _ _) as [entry|]; [|done].
    assert (on_ok (opens (-1) (-1))
              (emit (EvPrepareRead unranked) ;;;
               (if e_batching_disabled env then ret tt else emit EvBatchReadRequests) ;;;
               external (e_execute_reads env) ;;;
               parts <- read_locations (s_path ms.2) (entry_locations entry) ;;
               emit EvExecuteReadReqs ;;;
               emit (EvSyncClose (s_path ms.2)) ;;;
               emit EvLoopClose ;;;
               ret (ReadLoaded parts, ms.2))) as Hrest.
    { apply on_ok_bind_neutral; [by apply grows_emit|intros _].
      apply on_ok_bind_neutral; [keeps_auto|intros _].
      apply on_ok_bind_neutral; [apply keeps_external; apply _|intros _].
      apply on_ok_bind_neutral; [apply neutral_read_locations|intros parts].
      apply on_ok_bind_neutral; [by apply grows_emit|intros _].
      apply (on_ok_bind (-1) 0 0 (-1)); [apply (on_ok_emit (EvSyncClose _))|intros _].
      apply (on_ok_bind 0 (-1) 0 0); [apply (on_ok_emit EvLoopClose)|intros _].
      apply on_ok_ret. }
    assert (∀ r s' w4,
              (emit (EvPrepareRead unranked) ;;;
               (if e_batching_disabled env then ret tt else emit EvBatchReadRequests) ;;;
               external (e_execute_reads env) ;;;
               parts <- read_locations (s_path ms.2) (entry_locations entry) ;;
               emit EvExecuteReadReqs ;;;
               emit (EvSyncClose (s_path ms.2)) ;;;
               emit EvLoopClose ;;;
               ret (ReadLoaded parts, ms.2)) w3 = (Ok (r, s'), w4) →
              ∃ parts, r = ReadLoaded parts) as Hloaded.
    { intros r s' w4. unfold bind, emit, ret, external.
      repeat (case_match; simplify_eq/=); try done; intros [= <- <- <-]; eauto. }
    destruct entry as [v repl| | | |];
      [intros [= <- <- <-]; by apply opens_trace_since|..];
      (intros E; destruct (Hloaded _ _ _ E) as [parts ->];
       apply opens_trace_since;
       apply (opens_trans 1 1 (-1) (-1) w w3 w'); [done|by apply (Hrest _ _ _ E)]).
Qed.

Lemma commit_steps_neutral rank storage env :
  net_opened (commit_steps rank storage env) = (0, 0)%Z.
Proof.
  unfold commit_steps.
  destruct (e_sync_complete env), (e_arrive env), (bool_decide (rank = 0)),
    (e_write_metadata env), (e_depart env); reflexivity.
Qed.

(** X22.  An [async_take] that returns has opened one
    storage plugin and one event loop and not closed them; the thread of the
    handle always runs to its end and closes both, whether the commit fails or
    not; joining the thread again does nothing. *)
Theorem X22_async_take_hands_over_resources path app_state pg replicated env env' w ps w1 :
  async_take path app_state pg replicated env w = (Ok ps, w1) →
  net_opened (trace_since w w1) = (1, 1)%Z ∧
  ∃ ps' w2,
    thread_join ps env' w1 = (Ok ps', w2) ∧
    net_opened (trace_since w1 w2) = (-1, -1)%Z ∧
    done_ ps' = true ∧
    ∀ env'' , thread_join ps' env'' w2 = (Ok ps', w2).
Proof.
  intros E. split; [by apply opens_trace_since, (on_ok_async_take _ _ _ _ _ _ _ _ E)|].
  rewrite async_take_split in E. unfold bind in E.
  destruct (take_prefix _ _ _ _ _ _ w) as [[x|e] w0]; [|done].
  rewrite PendingSnapshot_init_run in E.
  remember (emit EvGetOrCreateStore w0).2 as w0' eqn:Ew. clear Ew.
  injection E as <- <-.
  set (ps := new_handle x.1 x.2.1 pg x.2.2 x.1).
  set (kw := {| t_path := x.1; t_rank := get_rank pg; t_world_size := get_world_size pg;
                t_pending_io_work := x.2.1; t_metadata := x.2.2; t_storage := x.1 |}).
  destruct (complete_snapshot_run ps kw env' w0') as (w2 & Ec & Et).
  eexists _, w2. split.
  { change (thread_join ps env' w0') with
      (bind (_complete_snapshot ps kw env') (λ self, ret (set_joined self)) w0').
    erewrite bind_ok by exact Ec. reflexivity. }
  split; [|done].
  rewrite Et, !net_opened_app, commit_steps_neutral.
  by destruct (commit_failure (t_rank kw) env').
Qed.

Lemma X22_witness :
  ∃ ps w1,
    async_take "/tmp/snap" 5 Ex.pg0 None Ex.env Ex.world0 = (Ok ps, w1) ∧
    net_opened (trace_since Ex.world0 w1) = (1, 1)%Z ∧
    ∃ ps' w2,
      thread_join ps Ex.env_write_fails w1 = (Ok ps', w2) ∧
      net_opened (trace_since w1 w2) = (-1, -1)%Z ∧
      done_ ps' = true ∧
      ∀ env'' , thread_join ps' env'' w2 = (Ok ps', w2).
Proof.
  eexists _, _. split; [vm_compute; reflexivity|].
  apply (X22_async_take_hands_over_resources "/tmp/snap" 5 Ex.pg0 None Ex.env Ex.env_write_fails
           Ex.world0).
  vm_compute. reflexivity.
Defined.


(** ** The collectives of [take] and [async_take] *)

Lemma filter_collective_loop items global_keys :
  filter (λ ev, is_collective ev = true) (take_loop_events items global_keys) =
  replicate (length global_keys) EvBarrier.
Proof.
  unfold take_loop_events. induction global_keys as [|key rest IH]; simpl; [done|].
  rewrite !filter_app, IH. by destruct (items !! key).
Qed.

Lemma filter_collective_tail flattened env :
  filter (λ ev, is_collective ev = true) (take_tail_events flattened env) =
  [EvCalculateReplicated; EvPartitionWriteReqs; EvGatherManifest; EvMemoryBudget].
Proof.
  unfold take_tail_events. rewrite !filter_app.
  assert (filter (λ ev, is_collective ev = true) (EvPrepareWrite <$> flattened.*1) = [])
    as ->.
  { induction (flattened.*1) as [|p ps IH]; [done|]. rewrite fmap_cons.
    by rewrite filter_cons_False. }
  by destruct (e_batching_disabled env).
Qed.

Lemma filter_collective_impl items states pg env rng :
  filter (λ ev, is_collective ev = true) (take_impl_events items states pg env rng) =
  [EvAllGather] ++ replicate (length (take_global_keys items pg env)) EvBarrier ++
  [EvCalculateReplicated; EvPartitionWriteReqs; EvGatherManifest; EvMemoryBudget].
Proof.
  unfold take_impl_events. rewrite !filter_app, filter_collective_loop, filter_collective_tail.
  by destruct (popped_item items) as [[key o]|].
Qed.

Lemma take_prefix_collectives path app_state pg replicated is_async env w items :
  w_dicts w !! app_state = Some items →
  all_Stateful items = true →
  size (rng_state_items items) ≤ 1 →
  0 < get_world_size pg →
  ∃ im w1,
    take_prefix path app_state pg replicated is_async env w =
      (Ok (coalesced_path path pg env, im), w1) ∧
    filter (λ ev, is_collective ev = true) (trace_since w w1) =
      [EvBroadcast; EvAllGather; EvAllGather] ++
      replicate (length (take_global_keys items pg env)) EvBarrier ++
      [EvCalculateReplicated; EvPartitionWriteReqs; EvGatherManifest; EvMemoryBudget].
Proof.
  intros Hl Hall Hsz Hws. unfold take_prefix.
  erewrite bind_ok by (by eapply validate_app_state_ok).
  erewrite bind_ok by reflexivity.
  set (w0 := (emit EvNewEventLoop w).2).
  destruct (coalesce_ok path pg app_state (default [] replicated) env w0 Hws)
    as (coalesced & w1 & E & _ & Et).
  pose proof (coalesce_only_trace path pg app_state (default [] replicated) env w0) as Hc.
  rewrite E in Hc. simpl in Hc. destruct Hc as (cdelta & Hw1 & F). subst w1.
  rewrite (trace_since_app _ _ cdelta) in Et by done.
  assert (filter (λ ev, is_collective ev = true) cdelta = [EvBroadcast; EvAllGather]) as Hcd.
  { rewrite Et. clear.
    by destruct (bool_decide (coalesced_path path pg env ≠ path)),
         (bool_decide (list_to_set _ ≠ coalesced)). }
  erewrite bind_ok by exact E. simpl.
  erewrite bind_ok by reflexivity.
  erewrite bind_ok; cycle 1.
  { apply (take_impl_run _ _ _ _ _ _ _ _ items); done. }
  simpl. unfold ret. eexists _, _. split; [reflexivity|].
  unfold trace_since. simpl. rewrite <- !app_assoc, drop_app_length.
  rewrite !filter_app, Hcd, filter_collective_impl. done.
Qed.

(** X23.  On a valid [app_state], the collectives of [take] and its
    calls that hand the [PGWrapper] on are, in this order, the broadcast of
    the path, the all-gather of the patterns, the all-gather of the keys, one
    barrier for each global key, [_calculate_replicated_entries],
    [partition_write_reqs], [_gather_manifest],
    [get_process_memory_budget_bytes] and, unless the completion of the
    writes raised, the barrier before the commit; those of [async_take] are
    the same with [get_or_create_store] in the place of the last barrier.
    They depend on the number of global keys only, not on the objects the
    rank holds. *)
Theorem X23_take_collectives path app_state pg replicated env w items :
  w_dicts w !! app_state = Some items →
  all_Stateful items = true →
  size (rng_state_items items) ≤ 1 →
  0 < get_world_size pg →
  let common :=
    [EvBroadcast; EvAllGather; EvAllGather] ++
    replicate (length (take_global_keys items pg env)) EvBarrier ++
    [EvCalculateReplicated; EvPartitionWriteReqs; EvGatherManifest; EvMemoryBudget] in
  filter (λ ev, is_collective ev = true)
         (trace_since w (take path app_state pg replicated env w).2) =
    common ++ match e_sync_complete env with None => [EvBarrier] | Some _ => [] end ∧
  filter (λ ev, is_collective ev = true)
         (trace_since w (async_take path app_state pg replicated env w).2) =
    common ++ [EvGetOrCreateStore].
Proof.
  intros Hl Hall Hsz Hws common. split.
  - destruct (take_prefix_collectives path app_state pg replicated false env w items)
      as (im & w1 & Ep & Hf); try done.
    rewrite take_split. erewrite bind_ok by exact Ep. simpl.
    destruct (take_commit_run (coalesced_path path pg env) pg im.1 im.2 env w1)
      as (_ & Et & _).
    pose proof (grows_take_prefix path app_state pg replicated false env w) as Hg.
    rewrite Ep in Hg. simpl in Hg. apply grows_by_trace_since in Hg as [Hw1 _].
    unfold trace_since at 1. rewrite Et, Hw1, <- app_assoc, drop_app_length.
    rewrite filter_app, Hf. fold common. f_equal.
    unfold take_commit_events. destruct (e_sync_complete env); [done|].
    case_bool_decide; [|done]. by destruct (e_write_metadata env).
  - destruct (take_prefix_collectives path app_state pg replicated true env w items)
      as (im & w1 & Ep & Hf); try done.
    rewrite async_take_split. erewrite bind_ok by exact Ep.
    rewrite PendingSnapshot_init_run. simpl.
    pose proof (grows_take_prefix path app_state pg replicated true env w) as Hg.
    rewrite Ep in Hg. simpl in Hg. apply grows_by_trace_since in Hg as [Hw1 _].
    unfold trace_since at 1. simpl. rewrite Hw1, <- app_assoc, drop_app_length.
    rewrite filter_app, Hf. done.
Qed.

Lemma X23_witness :
  let common :=
    [EvBroadcast; EvAllGather; EvAllGather] ++
    replicate (length (take_global_keys Ex.app_state Ex.pg0 Ex.env)) EvBarrier ++
    [EvCalculateReplicated; EvPartitionWriteReqs; EvGatherManifest; EvMemoryBudget] in
  filter (λ ev, is_collective ev = true)
         (trace_since Ex.world0 (take "/tmp/snap" 5 Ex.pg0 None Ex.env Ex.world0).2) =
    common ++ match e_sync_complete Ex.env with None => [EvBarrier] | Some _ => [] end ∧
  filter (λ ev, is_collective ev = true)
         (trace_since Ex.world0 (async_take "/tmp/snap" 5 Ex.pg0 None Ex.env Ex.world0).2)
    = common ++ [EvGetOrCreateStore].
Proof.
  apply (X23_take_collectives "/tmp/snap" 5 Ex.pg0 None Ex.env Ex.world0 Ex.app_state);
    [reflexivity|vm_compute; reflexivity|vm_compute; lia|vm_compute; lia].
Defined.
